(** * pycoinnet.aitertools: a shallow embedding and its verification

    The module [aitertools.py] is a toolkit of asynchronous stream
    primitives running under asyncio's single cooperative scheduler.  Code
    between two suspension points runs atomically, so every coroutine is
    embedded as a step function over an explicit frame (the place where the
    coroutine is parked) and the state of the objects it touches.  Systems of
    several tasks are labelled transition systems whose labels name the task
    that the scheduler resumes.

    Part I holds the embedding, one module per class or function of the
    source.  Part II holds the lemmas about each module.  The module
    [Properties] states and proves the properties of the specification,
    and the module [Further] proves further properties of the code. *)

From stdpp Require Import base option list strings relations.
From Stdlib Require Import ZArith Lia Permutation.

Open Scope Z_scope.
Open Scope nat_scope.
Open Scope list_scope.

(* ================================================================== *)
(** * Part I: the embedding                                            *)
(* ================================================================== *)

(** ** Python exceptions and results *)

(** The exceptions that the module raises or catches, plus the three
    built-in exceptions that derive from [BaseException] without deriving
    from [Exception], plus user-defined classes given by name and by whether
    they derive from [Exception]. *)
Inductive exn : Type :=
| StopAsyncIteration
| ValueError
| AttributeError
| TypeError
| InvalidStateError
| QueueEmpty
| QueueFull
| KeyboardInterrupt
| SystemExit
| GeneratorExit
| UserError (name : string) (derives_Exception : bool).

(** [isinstance(e, Exception)], the test made by [except Exception:]. *)
Definition isinstance_Exception (e : exn) : bool :=
  match e with
  | KeyboardInterrupt | SystemExit | GeneratorExit => false
  | UserError _ b => b
  | _ => true
  end.

(** Result of a synchronous call. *)
Inductive result (T : Type) : Type :=
| Ok (v : T)
| Raise (e : exn).
Arguments Ok {T} v.
Arguments Raise {T} e.

Definition rbind {T U} (r : result T) (k : T -> result U) : result U :=
  match r with
  | Ok v => k v
  | Raise e => Raise e
  end.

#[global] Instance result_bind : MBind result := fun _ _ k r => rbind r k.
#[global] Instance result_ret : MRet result := fun _ v => Ok v.

(** Result of resuming a coroutine: it returns, raises, or parks itself at
    a frame [F] until the scheduler resumes it. *)
Inductive resumed (T F : Type) : Type :=
| Return (v : T)
| Throw (e : exn)
| Await (frame : F).
Arguments Return {T F} v.
Arguments Throw {T F} e.
Arguments Await {T F} frame.

(** ** asyncio.Semaphore

    [Semaphore()] starts at value 1.  [locked()] is true when the value is
    0; [acquire] takes one unit when the semaphore is not locked and parks
    the caller otherwise; [release] gives the unit back.

    This is the counter alone, as [asyncio] has it before Python 3.11: a
    parked caller takes the unit itself when it is resumed.  From 3.11 on
    [release] hands the unit to the first parked caller at once, so that
    the value can be 0 while that caller has not been resumed yet; what
    bounds the number of holders from above is the same under both. *)
Module Semaphore.

Definition t := nat.
Definition init : t := 1.
Definition locked (s : t) : bool := Nat.eqb s 0.
Definition try_acquire (s : t) : option t :=
  if locked s then None else Some (s - 1).
Definition release (s : t) : t := s + 1.

End Semaphore.

(** ** linked_aiter and push_aiter *)
Module Linked.
Section WithItem.
Context {A : Type}.

(** An [asyncio.Future] of the chain: pending, resolved to the pair
    [(item, next_future)], or cancelled.  Futures live in a store and are
    named by their index, so that several cursors share one future. *)
Inductive future : Type :=
| Pending
| Resolved (item : A) (next : nat)
| Cancelled.

Definition state_of (h : list future) (f : nat) : future :=
  default Pending (h !! f).

(** [Future.done()] and [Future.cancelled()] *)
Definition done (h : list future) (f : nat) : bool :=
  match state_of h f with
  | Pending => false
  | _ => true
  end.

Definition cancelled (h : list future) (f : nat) : bool :=
  match state_of h f with
  | Cancelled => true
  | _ => false
  end.

(** [asyncio.Future()] *)
Definition new_future (h : list future) : list future * nat :=
  (h ++ [Pending], length h).

(** [Future.set_result]: raises [InvalidStateError] on a future that is
    already done. *)
Definition set_result (h : list future) (f : nat) (item : A) (next : nat)
  : result (list future) :=
  if done h f then Raise InvalidStateError
  else Ok (<[f := Resolved item next]> h).

(** [Future.cancel]: no effect on a future that is already done. *)
Definition cancel (h : list future) (f : nat) : list future :=
  if done h f then h else <[f := Cancelled]> h.

(** The world that the cursors share: the futures and the tasks created by
    [asyncio.ensure_future(self._next_callback_f(self._tail))], recorded as
    (callback, future) pairs. *)
Record world : Type := World {
  futures : list future;
  spawned : list (nat * nat)
}.

(** The instance attributes set by [linked_aiter.__init__]. *)
Record linked_aiter : Type := LinkedAiter {
  _tail : nat;
  _lock : Semaphore.t;
  _next_callback_f : option nat
}.

(** [push_aiter(linked_aiter)]: the inherited attributes and [_head]. *)
Record push_aiter : Type := PushAiter {
  cursor : linked_aiter;
  _head : nat
}.

(** [linked_aiter.__init__(self, tail=None, next_callback_f=None)]:
    [self._tail = tail or asyncio.Future()] (a future is truthy). *)
Definition linked_aiter_init (w : world) (tail : option nat)
    (next_callback_f : option nat) : world * linked_aiter :=
  match tail with
  | Some t => (w, LinkedAiter t Semaphore.init next_callback_f)
  | None =>
      let '(h, t) := new_future (futures w) in
      (World h (spawned w), LinkedAiter t Semaphore.init next_callback_f)
  end.

(** Values that an attribute can hold. *)
Inductive attr : Type :=
| AFuture (f : nat)
| ASemaphore (s : Semaphore.t)
| ACallback (cb : option nat)
| AMethod (name : string).

(** An instance of one of the two classes. *)
Inductive object : Type :=
| Cursor (c : linked_aiter)
| Producer (p : push_aiter).

Definition inherited (o : object) : linked_aiter :=
  match o with
  | Cursor c => c
  | Producer p => cursor p
  end.

(** The instance dictionary of an object and the names that its class (and,
    for [push_aiter], its base class) defines. *)
Definition instance_dict (o : object) : list (string * attr) :=
  [ ("_tail"%string, AFuture (_tail (inherited o)));
    ("_lock"%string, ASemaphore (_lock (inherited o)));
    ("_next_callback_f"%string, ACallback (_next_callback_f (inherited o))) ]
  ++ match o with
     | Cursor _ => []
     | Producer p => [ ("_head"%string, AFuture (_head p)) ]
     end.

Definition class_dict (o : object) : list string :=
  match o with
  | Cursor _ => []
  | Producer _ => [ "push"; "push_nowait"; "stop" ]%string
  end
  ++ [ "__init__"; "split"; "__aiter__"; "__anext__" ]%string.

Fixpoint assoc (name : string) (d : list (string * attr)) : option attr :=
  match d with
  | [] => None
  | (k, v) :: d' => if String.eqb k name then Some v else assoc name d'
  end.

(** Attribute access [self.name]: the instance dictionary, then the class,
    then [AttributeError]. *)
Definition getattr (self : object) (name : string) : result attr :=
  match assoc name (instance_dict self) with
  | Some v => Ok v
  | None =>
      if existsb (String.eqb name) (class_dict self) then Ok (AMethod name)
      else Raise AttributeError
  end.

(** The [tail] argument of the constructor as the constructor uses it. *)
Definition as_tail (v : attr) : option nat :=
  match v with
  | AFuture f => Some f
  | _ => None
  end.

(** [linked_aiter.split(self, is_active=True)]:
    [next_callback_f = self._next_callback_f if is_active else None;
     return linked_aiter(self.tail, next_callback_f)].
    The source reads the attribute [tail]. *)
Definition split (w : world) (self : object) (is_active : bool)
  : result (world * linked_aiter) :=
  let next_callback_f :=
    if is_active then _next_callback_f (inherited self) else None in
  tail ← getattr self "tail";
  Ok (linked_aiter_init w (as_tail tail) next_callback_f).

(** Where [linked_aiter.__anext__] can be parked: on the lock, or (holding
    the lock) on [await self._tail]. *)
Inductive anext_frame : Type :=
| AtLock
| AtTail.

Definition set_tail (self : linked_aiter) (t : nat) : linked_aiter :=
  LinkedAiter t (_lock self) (_next_callback_f self).

Definition set_lock (self : linked_aiter) (s : Semaphore.t) : linked_aiter :=
  LinkedAiter (_tail self) s (_next_callback_f self).

(** The body of [async with self._lock], from [await self._tail] on. *)
Definition anext_locked (w : world) (self : linked_aiter)
  : world * linked_aiter * resumed A anext_frame :=
  match state_of (futures w) (_tail self) with
  | Pending => (w, self, Await AtTail)
  | Resolved item next =>
      (* the task stored in [self._next_task] is recorded in [spawned] *)
      let self1 := set_tail self next in
      let w1 :=
        match _next_callback_f self1 with
        | Some cb =>
            if done (futures w) next then w
            else World (futures w) (spawned w ++ [(cb, next)])
        | None => w
        end in
      (w1, set_lock self1 (Semaphore.release (_lock self1)), Return item)
  | Cancelled =>
      (w, set_lock self (Semaphore.release (_lock self)),
       Throw StopAsyncIteration)
  end.

(** [linked_aiter.__anext__], resumed at a frame. *)
Definition anext_resume (w : world) (self : linked_aiter) (fr : anext_frame)
  : world * linked_aiter * resumed A anext_frame :=
  match fr with
  | AtLock =>
      match Semaphore.try_acquire (_lock self) with
      | None => (w, self, Await AtLock)
      | Some s => anext_locked w (set_lock self s)
      end
  | AtTail => anext_locked w self
  end.

Definition __anext__ (w : world) (self : linked_aiter)
  : world * linked_aiter * resumed A anext_frame :=
  anext_resume w self AtLock.

(** [push_aiter.__init__]: [super().__init__(asyncio.Future())];
    [self._head = self._tail]. *)
Definition push_aiter_init (w : world) : world * push_aiter :=
  let '(h, f) := new_future (futures w) in
  let '(w1, c) := linked_aiter_init (World h (spawned w)) (Some f) None in
  (w1, PushAiter c (_tail c)).

(** [push_aiter.push_nowait] *)
Definition push_nowait (w : world) (self : push_aiter) (item : A)
  : result (world * push_aiter) :=
  if cancelled (futures w) (_head self) then Raise ValueError
  else
    let '(h1, new_head) := new_future (futures w) in
    h2 ← set_result h1 (_head self) item new_head;
    Ok (World h2 (spawned w), PushAiter (cursor self) new_head).

(** [async def push(self, item): self.push_nowait(item)]: the coroutine
    has no [await], so it has no frame to park at. *)
Definition push (w : world) (self : push_aiter) (item : A)
  : resumed (world * push_aiter) Empty_set :=
  match push_nowait w self item with
  | Ok r => Return r
  | Raise e => Throw e
  end.

(** [push_aiter.stop] *)
Definition stop (w : world) (self : push_aiter) : world :=
  if done (futures w) (_head self) then w
  else World (cancel (futures w) (_head self)) (spawned w).

(** Pushing a list of items one after the other. *)
Fixpoint push_all (w : world) (self : push_aiter) (items : list A)
  : result (world * push_aiter) :=
  match items with
  | [] => Ok (w, self)
  | x :: items' =>
      r ← push_nowait w self x;
      push_all (fst r) (snd r) items'
  end.

(** A consumer loop [async for x in c] run to its end on a chain that is
    already settled: the values obtained, and how the loop left
    ([Some e]: the exception that ended it; [None]: parked or out of
    fuel). *)
Fixpoint drain (fuel : nat) (w : world) (c : linked_aiter)
  : list A * option exn * linked_aiter :=
  match fuel with
  | 0 => ([], None, c)
  | S fuel' =>
      match __anext__ w c with
      | (w1, c1, Return x) =>
          let '(xs, e, c2) := drain fuel' w1 c1 in (x :: xs, e, c2)
      | (_, c1, Throw e) => ([], Some e, c1)
      | (_, c1, Await _) => ([], None, c1)
      end
  end.

(** The operations that a program can apply to a producer and to the
    cursors on its chain.  A call that raises leaves the objects as they
    were. *)
Inductive op : Type :=
| OpPush (item : A)
| OpPushNowait (item : A)
| OpStop
| OpAnext (fr : anext_frame)
| OpCursorAnext (c : linked_aiter) (fr : anext_frame).

Definition apply (s : world * push_aiter) (o : op) : world * push_aiter :=
  let '(w, p) := s in
  match o with
  | OpPush item =>
      match push w p item with
      | Return r => r
      | _ => s
      end
  | OpPushNowait item =>
      match push_nowait w p item with
      | Ok r => r
      | Raise _ => s
      end
  | OpStop => (stop w p, p)
  | OpAnext fr =>
      let '(w1, c1, _) := anext_resume w (cursor p) fr in
      (w1, PushAiter c1 (_head p))
  | OpCursorAnext c fr =>
      let '(w1, _, _) := anext_resume w c fr in (w1, p)
  end.

Definition run (s : world * push_aiter) (ops : list op)
  : world * push_aiter :=
  fold_left apply ops s.

(** [chain h f xs g]: from future [f], the resolved futures carry the
    items [xs] and lead to future [g]. *)
Fixpoint chain (h : list future) (f : nat) (xs : list A) (g : nat) : Prop :=
  match xs with
  | [] => f = g
  | x :: xs' => exists n, h !! f = Some (Resolved x n) /\ chain h n xs' g
  end.

End WithItem.
Arguments future : clear implicits.
Arguments world : clear implicits.
End Linked.

(** ** asyncio.Queue

    The queue of the standard library, as its documentation describes it:
    a FIFO buffer that is unbounded when [maxsize <= 0].  The coroutines
    [put] and [get] park the caller while the queue is full (resp. empty);
    the parked callers are frames of the tasks that made the calls. *)
Module Queue.
Section WithItem.
Context {A : Type}.

Record t : Type := Q {
  maxsize : Z;
  items : list A
}.

Definition init (maxsize : Z) : t := Q maxsize [].

Definition qsize (q : t) : nat := length (items q).

Definition empty (q : t) : bool :=
  match items q with
  | [] => true
  | _ => false
  end.

Definition full (q : t) : bool :=
  if (maxsize q <=? 0)%Z then false
  else (maxsize q <=? Z.of_nat (qsize q))%Z.

Definition put_nowait (q : t) (item : A) : result t :=
  if full q then Raise QueueFull
  else Ok (Q (maxsize q) (items q ++ [item])).

Definition get_nowait (q : t) : result (A * t) :=
  match items q with
  | [] => Raise QueueEmpty
  | x :: rest => Ok (x, Q (maxsize q) rest)
  end.

End WithItem.
Arguments t : clear implicits.
End Queue.

(** ** q_aiter *)
Module QAiter.
Section WithItem.
Context {A : Type}.

(** The attributes set by [q_aiter.__init__].  [_stopping] is the future
    of the source, which is only ever tested with [done()] and resolved
    with [set_result(True)]: the field holds [done()].  [full_calls] and
    [dropped] are not attributes: they record the items with which
    [_full_callback] has been called, and the items that [push_nowait] found
    the queue full for and did not enqueue, in call order. *)
Record q_aiter : Type := QAiter {
  _q : Queue.t A;
  _stopping : bool;
  _stopped : bool;
  _full_callback : option nat;
  full_calls : list A;
  dropped : list A
}.

(** [q_aiter.__init__(self, q=None, maxsize=1, full_callback=None)] *)
Definition q_aiter_init (q : option (Queue.t A)) (maxsize : Z)
    (full_callback : option nat) : q_aiter :=
  let q' := match q with
            | None => Queue.init maxsize
            | Some q0 => q0
            end in
  QAiter q' false false full_callback [] [].

Definition default_maxsize : Z := 1.

Definition set_q (self : q_aiter) (q : Queue.t A) : q_aiter :=
  QAiter q (_stopping self) (_stopped self) (_full_callback self)
         (full_calls self) (dropped self).

(** [self._full_callback(self, item)].  The callback is code of the
    caller, given the stream itself: it is taken here to return without
    raising and without acting on the stream, and the call is recorded in
    [full_calls].  What follows such a call is stated, below, for streams
    that have no callback. *)
Definition call_full_callback (self : q_aiter) (item : A) : q_aiter :=
  QAiter (_q self) (_stopping self) (_stopped self) (_full_callback self)
         (full_calls self ++ [item]) (dropped self).

Definition drop_item (self : q_aiter) (item : A) : q_aiter :=
  QAiter (_q self) (_stopping self) (_stopped self) (_full_callback self)
         (full_calls self) (dropped self ++ [item]).

(** [q_aiter.stop] *)
Definition stop (self : q_aiter) : q_aiter :=
  if _stopping self then self
  else QAiter (_q self) true (_stopped self) (_full_callback self)
              (full_calls self) (dropped self).

(** [q_aiter.full] *)
Definition full (self : q_aiter) : bool := Queue.full (_q self).

(** [q_aiter.push_nowait(self, *items)] *)
Fixpoint push_nowait (self : q_aiter) (items : list A) : result q_aiter :=
  match items with
  | [] => Ok self
  | x :: rest =>
      if _stopping self then Raise ValueError
      else if full self then
        match _full_callback self with
        | Some _ => push_nowait (drop_item (call_full_callback self x) x) rest
        | None => push_nowait (drop_item self x) rest
        end
      else
        q1 ← Queue.put_nowait (_q self) x;
        push_nowait (set_q self q1) rest
  end.

(** Where [q_aiter.push] can be parked: inside [await self._q.put(item)],
    with the items that remain to be pushed. *)
Inductive push_frame : Type :=
| InPut (item : A) (rest : list A).

(** [await self._q.put(item)], from the test of [full()] on: the caller
    parks while the queue is full, and enqueues otherwise. *)
Definition put (self : q_aiter) (item : A) : option q_aiter :=
  match Queue.put_nowait (_q self) item with
  | Ok q1 => Some (set_q self q1)
  | Raise _ => None
  end.

(** [q_aiter.push(self, *items)], from the top of the loop. *)
Fixpoint push (self : q_aiter) (items : list A)
  : q_aiter * resumed unit push_frame :=
  match items with
  | [] => (self, Return tt)
  | x :: rest =>
      if _stopping self then (self, Throw ValueError)
      else
        let self1 :=
          match _full_callback self with
          | Some _ => if Queue.full (_q self) then call_full_callback self x
                      else self
          | None => self
          end in
        match put self1 x with
        | None => (self1, Await (InPut x rest))
        | Some self2 => push self2 rest
        end
  end.

(** [q_aiter.push], resumed inside [put]. *)
Definition push_resume (self : q_aiter) (fr : push_frame)
  : q_aiter * resumed unit push_frame :=
  match fr with
  | InPut x rest =>
      match put self x with
      | None => (self, Await (InPut x rest))
      | Some self1 => push self1 rest
      end
  end.

(** Where [q_aiter.__anext__] can be parked: in
    [asyncio.wait([self._stopping, q_get], return_when=FIRST_COMPLETED)].
    The frame holds the state of the task [q_get]: still inside
    [self._q.get()] ([None]) or done with an item ([Some item]). *)
Inductive anext_frame : Type :=
| AtWait (q_get : option A).

(** [q_aiter.__anext__], from the top of the loop. *)
Definition __anext__ (self : q_aiter)
  : q_aiter * resumed A anext_frame :=
  if _stopping self then
    if _stopped self then (self, Throw StopAsyncIteration)
    else
      match Queue.get_nowait (_q self) with
      | Ok (x, q1) => (set_q self q1, Return x)
      | Raise _ =>
          (QAiter (_q self) (_stopping self) true (_full_callback self)
                  (full_calls self) (dropped self),
           Throw StopAsyncIteration)
      end
  else (self, Await (AtWait None)).

(** The task [q_get] runs [self._q.get()]: it takes the head of the queue
    when there is one and stays parked otherwise. *)
Definition q_get_run (self : q_aiter) (fr : anext_frame)
  : q_aiter * anext_frame :=
  match fr with
  | AtWait None =>
      match Queue.get_nowait (_q self) with
      | Ok (x, q1) => (set_q self q1, AtWait (Some x))
      | Raise _ => (self, fr)
      end
  | AtWait (Some _) => (self, fr)
  end.

(** [q_aiter.__anext__], resumed after [asyncio.wait]: [q_get] done gives
    its result; otherwise, with [_stopping] done, [q_get] is cancelled and
    the loop starts over; with neither done the wait goes on. *)
Definition anext_resume (self : q_aiter) (fr : anext_frame)
  : q_aiter * resumed A anext_frame :=
  match fr with
  | AtWait (Some x) => (self, Return x)
  | AtWait None =>
      if _stopping self then __anext__ self
      else (self, Await fr)
  end.

(** The operations that producers, consumers and the scheduler can apply
    to a stream, and the stream that each leaves. *)
Inductive op : Type :=
| OpPush (items : list A)
| OpPushResume (fr : push_frame)
| OpPushNowait (items : list A)
| OpStop
| OpAnext
| OpAnextResume (fr : anext_frame)
| OpGet (fr : anext_frame).

Definition apply (self : q_aiter) (o : op) : q_aiter :=
  match o with
  | OpPush items => (push self items).1
  | OpPushResume fr => (push_resume self fr).1
  | OpPushNowait items =>
      match push_nowait self items with
      | Ok self1 => self1
      | Raise _ => self
      end
  | OpStop => stop self
  | OpAnext => (__anext__ self).1
  | OpAnextResume fr => (anext_resume self fr).1
  | OpGet fr => (q_get_run self fr).1
  end.

Definition run (self : q_aiter) (ops : list op) : q_aiter :=
  fold_left apply ops self.

End WithItem.
Arguments q_aiter : clear implicits.
Arguments push_frame : clear implicits.
Arguments anext_frame : clear implicits.
Arguments op : clear implicits.
End QAiter.

(** ** A producer task and a consumer task on one q_aiter

    The producer runs [await q.push(item_1, ..., item_n); q.stop()]; the consumer runs
    [async for x in q: out.append(x)].  The scheduler resumes one task at a
    time: the producer, the consumer, or the task [q_get] that the
    consumer's [__anext__] created.  A parked task can be resumed once what
    it waits for has happened. *)
Module Pipe.
Import QAiter.
Section WithItem.
Context {A : Type}.

Inductive producer : Type :=
| PStart (items : list A)
| PParked (fr : push_frame A)
| PDone
| PFailed (e : exn).

Inductive consumer : Type :=
| CLoop
| CParked (fr : anext_frame A)
| CEnded
| CFailed (e : exn).

Record sys : Type := Sys {
  qa : q_aiter A;
  prod : producer;
  cons : consumer;
  out : list A
}.

Inductive task : Type :=
| Producer
| Consumer
| Getter.

(** The producer after a step of [push]: on return it goes on to
    [q.stop()] without parking. *)
Definition after_push (s : sys) (r : q_aiter A * resumed unit (push_frame A))
  : sys :=
  match r with
  | (q1, Return _) => Sys (stop q1) PDone (cons s) (out s)
  | (q1, Throw e) => Sys q1 (PFailed e) (cons s) (out s)
  | (q1, Await fr) => Sys q1 (PParked fr) (cons s) (out s)
  end.

(** The consumer after a step of [__anext__]. *)
Definition after_anext (s : sys) (r : q_aiter A * resumed A (anext_frame A))
  : sys :=
  match r with
  | (q1, Return x) => Sys q1 (prod s) CLoop (out s ++ [x])
  | (q1, Throw StopAsyncIteration) => Sys q1 (prod s) CEnded (out s)
  | (q1, Throw e) => Sys q1 (prod s) (CFailed e) (out s)
  | (q1, Await fr) => Sys q1 (prod s) (CParked fr) (out s)
  end.

(** One step of the task [t], or [None] when [t] cannot run. *)
Definition step (t : task) (s : sys) : option sys :=
  match t with
  | Producer =>
      match prod s with
      | PStart items => Some (after_push s (push (qa s) items))
      | PParked fr =>
          if Queue.full (_q (qa s)) then None
          else Some (after_push s (push_resume (qa s) fr))
      | PDone | PFailed _ => None
      end
  | Consumer =>
      match cons s with
      | CLoop => Some (after_anext s (__anext__ (qa s)))
      | CParked (AtWait None) =>
          if _stopping (qa s)
          then Some (after_anext s (anext_resume (qa s) (AtWait None)))
          else None
      | CParked fr => Some (after_anext s (anext_resume (qa s) fr))
      | CEnded | CFailed _ => None
      end
  | Getter =>
      match cons s with
      | CParked (AtWait None) =>
          if Queue.empty (_q (qa s)) then None
          else
            let '(q1, fr) := q_get_run (qa s) (AtWait None) in
            Some (Sys q1 (prod s) (CParked fr) (out s))
      | _ => None
      end
  end.


(** The system for a queue of capacity [C] and the items to push. *)
Definition start (C : Z) (cb : option nat) (items : list A) : sys :=
  Sys (q_aiter_init None C cb) (PStart items) CLoop [].

(** Running a schedule, skipping the tasks that cannot run. *)
Fixpoint run (sched : list task) (s : sys) : sys :=
  match sched with
  | [] => s
  | t :: sched' =>
      match step t s with
      | Some s' => run sched' s'
      | None => run sched' s
      end
  end.



End WithItem.
Arguments sys : clear implicits.
Arguments producer : clear implicits.
Arguments consumer : clear implicits.
End Pipe.

(** ** Driving a stream to its end

    [aiter_to_iter] calls [__anext__] until [StopAsyncIteration] breaks its
    loop; any other exception leaves the loop.  [fuel] bounds the number of
    calls. *)
Inductive ending : Type :=
| Exhausted
| Failed (e : exn)
| Unfinished.

Section Driver.
Context {St B F : Type}.
Variable anext : St -> St * resumed B F.

Fixpoint aiter_to_iter (fuel : nat) (s : St) : list B * ending * St :=
  match fuel with
  | 0 => ([], Unfinished, s)
  | S fuel' =>
      match anext s with
      | (s1, Return y) =>
          let '(ys, e, s2) := aiter_to_iter fuel' s1 in (y :: ys, e, s2)
      | (s1, Throw StopAsyncIteration) => ([], Exhausted, s1)
      | (s1, Throw e) => ([], Failed e, s1)
      | (s1, Await _) => ([], Unfinished, s1)
      end
  end.

End Driver.

(** ** iter_to_aiter

    [async def iter_to_aiter(iter): for _ in iter: yield _]: the state of
    the generator is what remains of the iterable, and [__anext__] never
    parks. *)
Definition iter_to_aiter_anext {A} (remaining : list A)
  : list A * resumed A Empty_set :=
  match remaining with
  | [] => ([], Throw StopAsyncIteration)
  | x :: rest => (rest, Return x)
  end.

(** ** map_aiter *)
Module MapAiter.
Section WithItem.
Context {A B : Type}.

(** A mapping function: whether [asyncio.iscoroutinefunction] holds of it,
    and what a call (awaited, for a coroutine function) gives. *)
Record map_fn : Type := MapFn {
  iscoroutinefunction : bool;
  call : A -> result B
}.

(** The state of the generator [map_aiter(map_f, aiter)] over the stream
    [iter_to_aiter(items)]: what remains of the input, whether the
    generator has finished, and the calls made to [logging.exception]
    (the exception and the item). *)
Record state : Type := State {
  source : list A;
  finished : bool;
  logged : list (exn * A)
}.

Definition map_aiter (items : list A) : state := State items false [].

(** [async for _ in aiter: try: yield f(_) except Exception: logging...],
    run from the top of the loop to the next [yield], to the end of the
    input, or to an exception that the [except] clause lets through. *)
Fixpoint loop (f : A -> result B) (src : list A) (log : list (exn * A))
  : state * resumed B Empty_set :=
  match src with
  | [] => (State [] true log, Throw StopAsyncIteration)
  | x :: rest =>
      match f x with
      | Ok y => (State rest false log, Return y)
      | Raise e =>
          if isinstance_Exception e then loop f rest (log ++ [(e, x)])
          else (State rest true log, Throw e)
      end
  end.

(** [await map_f(_)] of a call that has run to its result. *)
Definition await (r : result B) : result B := r.

(** [__anext__] of the generator: the branch is chosen by
    [asyncio.iscoroutinefunction(map_f)]; a finished generator raises
    [StopAsyncIteration]. *)
Definition __anext__ (map_f : map_fn) (st : state)
  : state * resumed B Empty_set :=
  if finished st then (st, Throw StopAsyncIteration)
  else if iscoroutinefunction map_f
  then loop (fun x => await (call map_f x)) (source st) (logged st)
  else loop (call map_f) (source st) (logged st).

End WithItem.
Arguments map_fn : clear implicits.
Arguments state : clear implicits.
End MapAiter.

(** ** azip *)
Module Azip.
Section WithItem.
Context {A : Type}.

(** An input of [azip]: the stream [iter_to_aiter(items)], with the number
    of times its [__anext__] has been called. *)
Record input : Type := Input {
  remaining : list A;
  calls : nat
}.

Definition input_anext (i : input) : input * resumed A Empty_set :=
  let '(rest, r) := iter_to_aiter_anext (remaining i) in
  (Input rest (S (calls i)), r).

(** The state of the generator: [anext_list] and whether the generator
    has finished. *)
Record state : Type := State {
  anext_list : list input;
  finished : bool
}.

Definition azip (aiters : list (list A)) : state :=
  State (map (fun items => Input items 0) aiters) false.

(** [next_list = [await _.__anext__() for _ in anext_list]]: the inputs
    are advanced from left to right; the first [StopAsyncIteration] leaves
    the comprehension, and the inputs to its right are not advanced. *)
Fixpoint advance (inputs : list input) : list input * result (list A) :=
  match inputs with
  | [] => ([], Ok [])
  | i :: rest =>
      match input_anext i with
      | (i1, Return x) =>
          let '(rest1, r) := advance rest in
          (i1 :: rest1,
           match r with
           | Ok xs => Ok (x :: xs)
           | Raise e => Raise e
           end)
      | (i1, Throw e) => (i1 :: rest, Raise e)
      | (i1, Await fr) => match fr with end
      end
  end.

(** [__anext__] of the generator; the tuple is given as the list of its
    components. *)
Definition __anext__ (st : state) : state * resumed (list A) Empty_set :=
  if finished st then (st, Throw StopAsyncIteration)
  else
    match advance (anext_list st) with
    | (inputs, Ok next_list) => (State inputs false, Return next_list)
    | (inputs, Raise StopAsyncIteration) =>
        (State inputs true, Throw StopAsyncIteration)
    | (inputs, Raise e) => (State inputs true, Throw e)
    end.

End WithItem.
Arguments input : clear implicits.
Arguments state : clear implicits.
End Azip.

(** ** aiter_forker and its forks

    The forker, its forks and the consumers of the forks form one system.
    The upstream [_open_aiter] is a stream that gives the items of a list
    and then [StopAsyncIteration]; a call of its [__anext__] parks the
    caller, and returns when the scheduler resumes it.  The forks are kept
    in a table; [_outputs] holds the indices of the registered ones, in
    registration order. *)
Module Forker.
Import QAiter.
Section WithItem.
Context {A : Type}.

(** Where the consumer of a fork is. *)
Inductive fork_pc : Type :=
| FIdle                          (* outside [__anext__] *)
| FAtLock                        (* [_fetch_next], first [async with]: waiting *)
| FAtUpstream                    (* [_fetch_next]: [await self._open_aiter.__anext__()] *)
| FAtWait (fr : anext_frame A)   (* [q_aiter.__anext__]: [asyncio.wait] *)
| FEnded                         (* its loop has seen [StopAsyncIteration] *)
| FFailed (e : exn).

(** A fork: the [q_aiter] (or [_active_forked_aiter]) object, its class,
    and its consumer.  [seen] holds the items that the consumer has
    obtained.  [preloaded] and [registered_at] record the creation of the
    fork: the items of the queue it was given, and how many items the
    forker had fetched. *)
Record fork : Type := Fork {
  aiter : q_aiter A;
  is_active : bool;
  pc : fork_pc;
  seen : list A;
  preloaded : list A;
  registered_at : nat
}.

(** The attributes of [aiter_forker], the table of forks, and counters:
    [fetched] holds the items that the upstream has returned, [issued]
    counts the calls of the upstream's [__anext__], [in_flight] those that
    have not returned, [terminal] the [StopAsyncIteration] received. *)
Record forker : Type := Forker {
  _open_aiter : list A;
  _outputs : list nat;
  _is_fetching : Semaphore.t;
  forks : list fork;
  fetched : list A;
  issued : nat;
  in_flight : nat;
  terminal : nat
}.

(** [aiter_forker.__init__] *)
Definition aiter_forker (upstream : list A) : forker :=
  Forker upstream [] Semaphore.init [] [] 0 0 0.

Definition set_aiter (f : fork) (q : q_aiter A) : fork :=
  Fork q (is_active f) (pc f) (seen f) (preloaded f) (registered_at f).

Definition set_pc (f : fork) (p : fork_pc) : fork :=
  Fork (aiter f) (is_active f) p (seen f) (preloaded f) (registered_at f).

Definition set_forks (s : forker) (fs : list fork) : forker :=
  Forker (_open_aiter s) (_outputs s) (_is_fetching s) fs (fetched s)
         (issued s) (in_flight s) (terminal s).

Definition set_fork (s : forker) (i : nat) (f : fork) : forker :=
  set_forks s (<[i := f]> (forks s)).

(** [aiter_forker.new_fork(self, q=None, maxsize=0, is_active=False)]:
    both classes pass [q] and [maxsize] to [q_aiter.__init__]. *)
Definition new_fork (s : forker) (q : option (Queue.t A)) (maxsize : Z)
    (active : bool) : forker :=
  let a := q_aiter_init q maxsize None in
  let f := Fork a active FIdle [] (Queue.items (_q a)) (length (fetched s)) in
  Forker (_open_aiter s) (_outputs s ++ [length (forks s)]) (_is_fetching s)
         (forks s ++ [f]) (fetched s) (issued s) (in_flight s) (terminal s).

Definition default_maxsize : Z := 0.

(** [aiter_forker.remove_fork] *)
Definition remove_fork (s : forker) (i : nat) : forker :=
  Forker (_open_aiter s) (filter (fun j => j <> i) (_outputs s))
         (_is_fetching s) (forks s) (fetched s) (issued s) (in_flight s)
         (terminal s).

(** [for output in list(self._outputs): output.push_nowait(_)]: an
    exception leaves the loop, and the outputs already served keep the
    item. *)
Fixpoint push_outputs (fs : list fork) (outputs : list nat) (item : A)
  : list fork * option exn :=
  match outputs with
  | [] => (fs, None)
  | i :: rest =>
      match fs !! i with
      | None => push_outputs fs rest item
      | Some f =>
          match push_nowait (aiter f) [item] with
          | Ok q1 => push_outputs (<[i := set_aiter f q1]> fs) rest item
          | Raise e => (fs, Some e)
          end
      end
  end.

(** [for output in list(self._outputs): output.stop()] *)
Fixpoint stop_outputs (fs : list fork) (outputs : list nat) : list fork :=
  match outputs with
  | [] => fs
  | i :: rest =>
      match fs !! i with
      | None => stop_outputs fs rest
      | Some f => stop_outputs (<[i := set_aiter f (stop (aiter f))]> fs) rest
      end
  end.

(** The consumer of a fork after a step of [q_aiter.__anext__]. *)
Definition deliver (f : fork) (r : q_aiter A * resumed A (anext_frame A))
  : fork :=
  match r with
  | (q1, Return x) =>
      Fork q1 (is_active f) FIdle (seen f ++ [x]) (preloaded f)
           (registered_at f)
  | (q1, Throw StopAsyncIteration) => set_pc (set_aiter f q1) FEnded
  | (q1, Throw e) => set_pc (set_aiter f q1) (FFailed e)
  | (q1, Await fr) => set_pc (set_aiter f q1) (FAtWait fr)
  end.

(** [aiter_forker._fetch_next], called for fork [i], up to its first
    suspension: when [locked()] it parks on the semaphore of the first
    [async with]; otherwise it takes the semaphore and calls the upstream's
    [__anext__], where it parks until the upstream returns. *)
Definition _fetch_next (s : forker) (i : nat) (f : fork) : forker :=
  if Semaphore.locked (_is_fetching s)
  then set_fork s i (set_pc f FAtLock)
  else
    match Semaphore.try_acquire (_is_fetching s) with
    | None => set_fork s i (set_pc f FAtLock)
    | Some sem =>
        Forker (_open_aiter s) (_outputs s) sem
               (<[i := set_pc f FAtUpstream]> (forks s)) (fetched s)
               (S (issued s)) (S (in_flight s)) (terminal s)
    end.

(** [_active_forked_aiter.__anext__], from the test of its [while]: with
    an empty buffer and no stop it awaits [self._empty_callback_f()], that
    is [_fetch_next]; else it goes on to [q_aiter.__anext__]. *)
Definition active_forked_anext (s : forker) (i : nat) (f : fork) : forker :=
  if Queue.empty (_q (aiter f)) && negb (_stopping (aiter f))
  then _fetch_next s i f
  else set_fork s i (deliver f (__anext__ (aiter f))).

(** The loop of fork [i], read from the table. *)
Definition continue (s : forker) (i : nat) : forker :=
  match forks s !! i with
  | Some f => active_forked_anext s i f
  | None => s
  end.

(** [aiter_forker._fetch_next], resumed when the upstream's [__anext__]
    returns to fork [i]: the fan-out or the stops, the release of the
    semaphore, and back to the [while] of the fork. *)
Definition _fetch_next_returns (s : forker) (i : nat) : forker :=
  match _open_aiter s with
  | x :: rest =>
      let '(fs, err) := push_outputs (forks s) (_outputs s) x in
      let s1 :=
        Forker rest (_outputs s) (Semaphore.release (_is_fetching s)) fs
               (fetched s ++ [x]) (issued s) (in_flight s - 1) (terminal s) in
      match err with
      | Some e =>
          match fs !! i with
          | Some f => set_fork s1 i (set_pc f (FFailed e))
          | None => s1
          end
      | None => continue s1 i
      end
  | [] =>
      let fs := stop_outputs (forks s) (_outputs s) in
      let s1 :=
        Forker [] (_outputs s) (Semaphore.release (_is_fetching s)) fs
               (fetched s) (issued s) (in_flight s - 1) (S (terminal s)) in
      continue s1 i
  end.

(** What the scheduler and the program can do. *)
Inductive label : Type :=
| NewFork (q : option (Queue.t A)) (maxsize : Z) (active : bool)
| RemoveFork (i : nat)
| Advance (i : nat)
| Resume (i : nat)
| Getter (i : nat).

(** One step, or [None] when the label cannot be taken. *)
Definition step (l : label) (s : forker) : option forker :=
  match l with
  | NewFork q maxsize active => Some (new_fork s q maxsize active)
  | RemoveFork i => Some (remove_fork s i)
  | Advance i =>
      match forks s !! i with
      | Some f =>
          match pc f with
          | FIdle =>
              if is_active f then Some (active_forked_anext s i f)
              else Some (set_fork s i (deliver f (__anext__ (aiter f))))
          | _ => None
          end
      | None => None
      end
  | Resume i =>
      match forks s !! i with
      | Some f =>
          match pc f with
          | FAtLock =>
              match Semaphore.try_acquire (_is_fetching s) with
              | Some sem =>
                  Some (continue
                          (Forker (_open_aiter s) (_outputs s)
                                  (Semaphore.release sem) (forks s)
                                  (fetched s) (issued s) (in_flight s)
                                  (terminal s)) i)
              | None => None
              end
          | FAtUpstream => Some (_fetch_next_returns s i)
          | FAtWait (AtWait None) =>
              if _stopping (aiter f)
              then Some (set_fork s i
                           (deliver f (anext_resume (aiter f) (AtWait None))))
              else None
          | FAtWait fr =>
              Some (set_fork s i (deliver f (anext_resume (aiter f) fr)))
          | _ => None
          end
      | None => None
      end
  | Getter i =>
      match forks s !! i with
      | Some f =>
          match pc f with
          | FAtWait (AtWait None) =>
              if Queue.empty (_q (aiter f)) then None
              else
                let '(q1, fr) := q_get_run (aiter f) (AtWait None) in
                Some (set_fork s i (set_pc (set_aiter f q1) (FAtWait fr)))
          | _ => None
          end
      | None => None
      end
  end.

(** Running a list of labels, skipping those that cannot be taken. *)
Fixpoint run (ls : list label) (s : forker) : forker :=
  match ls with
  | [] => s
  | l :: ls' =>
      match step l s with
      | Some s' => run ls' s'
      | None => run ls' s
      end
  end.

(** The labels of the consumers: no fork is created or removed. *)
Definition draining (l : label) : bool :=
  match l with
  | Advance _ | Resume _ | Getter _ => true
  | _ => false
  end.

Definition creating (l : label) : bool :=
  match l with
  | NewFork _ _ _ => true
  | _ => false
  end.

(** What the consumer of a fork has obtained or will obtain without any
    further fetch: the items seen, the item held by its task [q_get], and
    the buffer. *)
Definition held (p : fork_pc) : list A :=
  match p with
  | FAtWait (AtWait (Some x)) => [x]
  | _ => []
  end.

Definition observed (f : fork) : list A :=
  seen f ++ held (pc f) ++ Queue.items (_q (aiter f)).

End WithItem.
Arguments fork : clear implicits.
Arguments forker : clear implicits.
Arguments fork_pc : clear implicits.
Arguments label : clear implicits.
End Forker.

(** ** sharable_aiter and parallel_map_aiter

    [parallel_map_aiter] wraps the upstream in one [sharable_aiter], builds
    [worker_count] generators [map_aiter(map_f, shared_aiter)] and hands
    them to [join_aiters], whose jobs call the [__anext__] of each worker
    again and again.  The upstream is any stream object: its state, the
    frames at which a call of its [__anext__] can be parked, and how a call
    starts, is resumed, and is advanced by a task of its own.  The
    environment may act on the upstream (a producer pushes or stops). *)
Module ParallelMap.
Section WithUpstream.
Context {A B U F E : Type}.

Record aiter_ops : Type := AiterOps {
  up_anext : U -> U * resumed A F;
  up_resume : U -> F -> option (U * resumed A F);
  up_task : U -> F -> option (U * F);
  up_env : E -> U -> U
}.

Variable ops : aiter_ops.

(** [sharable_aiter.__anext__]: [return await self._aiter.__anext__()].
    The call is passed to the upstream as it is; the frame of the call is
    the frame of the upstream's call. *)
Definition sharable_anext (u : U) : U * resumed A F := up_anext ops u.

Definition sharable_resume (u : U) (fr : F) : option (U * resumed A F) :=
  up_resume ops u fr.

(** A worker [map_aiter(map_f, shared_aiter)]: where it is, the items that
    it has received from the shared stream, the values that it has yielded,
    and its calls of [logging.exception]. *)
Inductive worker_pc : Type :=
| WReady                  (* about to call [shared_aiter.__anext__()] *)
| WParked (fr : F)        (* inside that call *)
| WEnded
| WFailed (e : exn).

Record worker : Type := Worker {
  wpc : worker_pc;
  received : list A;
  yielded : list B;
  wlogged : list (exn * A)
}.

(** The shared upstream, the workers, and the items that the upstream's
    [__anext__] has returned, in the order of the returns. *)
Record sys : Type := Sys {
  upstream : U;
  workers : list worker;
  delivered : list A
}.

(** [parallel_map_aiter(map_f, worker_count, aiter)] *)
Definition parallel_map_aiter (worker_count : nat) (aiter : U) : sys :=
  Sys aiter (replicate worker_count (Worker WReady [] [] [])) [].

(** The body of the worker's loop on the item [x]:
    [try: yield map_f(_) except Exception: logging.exception(...)]. *)
Definition on_item (map_f : A -> result B) (w : worker) (x : A) : worker :=
  match map_f x with
  | Ok y => Worker WReady (received w ++ [x]) (yielded w ++ [y]) (wlogged w)
  | Raise e =>
      if isinstance_Exception e
      then Worker WReady (received w ++ [x]) (yielded w)
                  (wlogged w ++ [(e, x)])
      else Worker (WFailed e) (received w ++ [x]) (yielded w) (wlogged w)
  end.

(** The worker [i] after the shared stream's [__anext__] has stepped. *)
Definition after_anext (map_f : A -> result B) (s : sys) (i : nat)
    (w : worker) (r : U * resumed A F) : sys :=
  match r with
  | (u, Return x) =>
      Sys u (<[i := on_item map_f w x]> (workers s)) (delivered s ++ [x])
  | (u, Throw StopAsyncIteration) =>
      Sys u (<[i := Worker WEnded (received w) (yielded w) (wlogged w)]>
               (workers s)) (delivered s)
  | (u, Throw e) =>
      Sys u (<[i := Worker (WFailed e) (received w) (yielded w) (wlogged w)]>
               (workers s)) (delivered s)
  | (u, Await fr) =>
      Sys u (<[i := Worker (WParked fr) (received w) (yielded w) (wlogged w)]>
               (workers s)) (delivered s)
  end.

Inductive label : Type :=
| Drive (i : nat)         (* a job of the joiner calls worker [i] *)
| Resume (i : nat)        (* the parked call of worker [i] is resumed *)
| Task (i : nat)          (* the upstream's task for that call runs *)
| Env (e : E).            (* the environment acts on the upstream *)

Definition step (map_f : A -> result B) (l : label) (s : sys) : option sys :=
  match l with
  | Drive i =>
      match workers s !! i with
      | Some w =>
          match wpc w with
          | WReady => Some (after_anext map_f s i w (sharable_anext (upstream s)))
          | _ => None
          end
      | None => None
      end
  | Resume i =>
      match workers s !! i with
      | Some w =>
          match wpc w with
          | WParked fr =>
              match sharable_resume (upstream s) fr with
              | Some r => Some (after_anext map_f s i w r)
              | None => None
              end
          | _ => None
          end
      | None => None
      end
  | Task i =>
      match workers s !! i with
      | Some w =>
          match wpc w with
          | WParked fr =>
              match up_task ops (upstream s) fr with
              | Some (u, fr') =>
                  Some (Sys u (<[i := Worker (WParked fr') (received w)
                                         (yielded w) (wlogged w)]>
                                 (workers s)) (delivered s))
              | None => None
              end
          | _ => None
          end
      | None => None
      end
  | Env e => Some (Sys (up_env ops e (upstream s)) (workers s) (delivered s))
  end.

Fixpoint run (map_f : A -> result B) (ls : list label) (s : sys) : sys :=
  match ls with
  | [] => s
  | l :: ls' =>
      match step map_f l s with
      | Some s' => run map_f ls' s'
      | None => run map_f ls' s
      end
  end.

(** The calls of the shared stream's [__anext__] that are in progress. *)
Definition parked (w : worker) : bool :=
  match wpc w with
  | WParked _ => true
  | _ => false
  end.

Definition in_flight (s : sys) : nat := length (filter parked (workers s)).

End WithUpstream.
Arguments aiter_ops : clear implicits.
Arguments worker : clear implicits.
Arguments sys : clear implicits.
Arguments label : clear implicits.

(** A [q_aiter] as the upstream: a producer feeds it with [push_nowait]
    and [stop]. *)
Inductive q_env (A : Type) : Type :=
| QPush (item : A)
| QStop.
Arguments QPush {A} item.
Arguments QStop {A}.

Definition q_aiter_ops {A : Type}
  : aiter_ops A (QAiter.q_aiter A) (QAiter.anext_frame A) (q_env A) :=
  AiterOps QAiter.__anext__
    (fun q fr =>
       match fr with
       | QAiter.AtWait None =>
           if QAiter._stopping q then Some (QAiter.anext_resume q fr) else None
       | _ => Some (QAiter.anext_resume q fr)
       end)
    (fun q fr =>
       match fr with
       | QAiter.AtWait None =>
           if Queue.empty (QAiter._q q) then None
           else Some (QAiter.q_get_run q fr)
       | _ => None
       end)
    (fun e q =>
       match e with
       | QPush x =>
           match QAiter.push_nowait q [x] with
           | Ok q1 => q1
           | Raise _ => q
           end
       | QStop => QAiter.stop q
       end).

End ParallelMap.

(** ** Several consumers of one linked stream

    A [linked_aiter] "can be shared by multiple consumers": the tasks that
    run [async for x in p] on one producer object [p] all call the
    [__anext__] of the same cursor.  The scheduler resumes one consumer at
    a time, and the program pushes and stops.  [sent] holds the items of
    the pushes that succeeded and [served] the items that [__anext__] has
    returned, in the order of the returns. *)
Module Shared.
Import Linked.
Section WithItem.
Context {A : Type}.

Inductive consumer_pc : Type :=
| CIdle                        (* between two calls of [__anext__] *)
| CParked (fr : anext_frame)   (* inside [__anext__] *)
| CEnded                       (* its loop has seen [StopAsyncIteration] *)
| CFailed (e : exn).

Record consumer : Type := Consumer {
  pc : consumer_pc;
  got : list A
}.

Record sys : Type := Sys {
  store : world A;
  stream : push_aiter;
  consumers : list consumer;
  sent : list A;
  served : list A
}.

(** [p = push_aiter()] and [n] consumers about to start. *)
Definition start (w0 : world A) (n : nat) : sys :=
  let '(w1, p1) := push_aiter_init w0 in
  Sys w1 p1 (replicate n (Consumer CIdle [])) [] [].

(** Consumer [i] after a step of the shared [__anext__]. *)
Definition after_anext (s : sys) (i : nat) (c : consumer)
    (r : world A * linked_aiter * resumed A anext_frame) : sys :=
  let '(w1, c1, out) := r in
  let p1 := PushAiter c1 (_head (stream s)) in
  match out with
  | Return x =>
      Sys w1 p1 (<[i := Consumer CIdle (got c ++ [x])]> (consumers s))
          (sent s) (served s ++ [x])
  | Throw StopAsyncIteration =>
      Sys w1 p1 (<[i := Consumer CEnded (got c)]> (consumers s))
          (sent s) (served s)
  | Throw e =>
      Sys w1 p1 (<[i := Consumer (CFailed e) (got c)]> (consumers s))
          (sent s) (served s)
  | Await fr =>
      Sys w1 p1 (<[i := Consumer (CParked fr) (got c)]> (consumers s))
          (sent s) (served s)
  end.

Inductive label : Type :=
| Push (item : A)
| Stop
| Call (i : nat)       (* consumer [i] calls [__anext__] *)
| Resume (i : nat).    (* the parked call of consumer [i] is resumed *)

(** One step, or [None] when the label cannot be taken (a push that
    raises, a consumer that is not where the label needs it). *)
Definition step (l : label) (s : sys) : option sys :=
  match l with
  | Push x =>
      match push_nowait (store s) (stream s) x with
      | Ok (w1, p1) => Some (Sys w1 p1 (consumers s) (sent s ++ [x]) (served s))
      | Raise _ => None
      end
  | Stop =>
      Some (Sys (stop (store s) (stream s)) (stream s) (consumers s)
                (sent s) (served s))
  | Call i =>
      match consumers s !! i with
      | Some c =>
          match pc c with
          | CIdle =>
              Some (after_anext s i c
                      (__anext__ (store s) (cursor (stream s))))
          | _ => None
          end
      | None => None
      end
  | Resume i =>
      match consumers s !! i with
      | Some c =>
          match pc c with
          | CParked fr =>
              Some (after_anext s i c
                      (anext_resume (store s) (cursor (stream s)) fr))
          | _ => None
          end
      | None => None
      end
  end.

Fixpoint run (ls : list label) (s : sys) : sys :=
  match ls with
  | [] => s
  | l :: ls' =>
      match step l s with
      | Some s' => run ls' s'
      | None => run ls' s
      end
  end.

(** The consumers that hold the lock: those parked on [await self._tail]. *)
Definition inside (c : consumer) : bool :=
  match pc c with
  | CParked AtTail => true
  | _ => false
  end.

End WithItem.
Arguments consumer : clear implicits.
Arguments sys : clear implicits.
Arguments label : clear implicits.
End Shared.

(** ** Generators over other generators

    [flatten_aiter], [map_filter_aiter] and [rated_aiter] consume streams
    that are themselves generators.  The modules below embed a generator
    over any upstream whose [__anext__] comes back without parking: the
    upstream is given by its state and by the function that one call of its
    [__anext__] computes.  A generator that skips items calls the upstream
    again and again inside one call of its own [__anext__]; [fuel] bounds
    the rounds of that loop, and a call whose rounds are used up is still
    running. *)
Inductive running : Type :=
| StillRunning.

(** A stream whose [__anext__] has no suspension point, as an upstream. *)
Definition no_park {St A} (anext : St -> St * resumed A Empty_set) (s : St)
  : St * resumed A running :=
  match anext s with
  | (s1, Return x) => (s1, Return x)
  | (s1, Throw e) => (s1, Throw e)
  | (_, Await fr) => match fr with end
  end.

(** What iterating a Python object gives: its elements, and then either the
    end of the iteration ([failure = None]) or an exception raised by
    [iter()] or by [next()].  A list has no failure; an object that is not
    iterable has no element and the failure [TypeError]. *)
Record iterable (B : Type) : Type := Iterable {
  elements : list B;
  failure : option exn
}.
Arguments Iterable {B} elements failure.
Arguments elements {B} i.
Arguments failure {B} i.

(** *** map_aiter over any upstream *)
Module MapOver.
Section WithUpstream.
Context {U A B : Type}.
Variable up_anext : U -> U * resumed A running.

Record state : Type := State {
  upstream : U;
  finished : bool;
  logged : list (exn * A)
}.

Definition map_aiter (aiter : U) : state := State aiter false [].

(** The loop [async for _ in aiter: try: yield map_f(_) except Exception:
    logging.exception(...)], from its top to the next [yield] or to the
    exception that leaves the generator: an exception of the upstream's
    [__anext__] is raised outside the [try]. *)
Fixpoint loop (fuel : nat) (f : A -> result B) (u : U) (log : list (exn * A))
  : state * resumed B running :=
  match fuel with
  | 0 => (State u false log, Await StillRunning)
  | S fuel' =>
      match up_anext u with
      | (u1, Return x) =>
          match f x with
          | Ok y => (State u1 false log, Return y)
          | Raise e =>
              if isinstance_Exception e
              then loop fuel' f u1 (log ++ [(e, x)])
              else (State u1 true log, Throw e)
          end
      | (u1, Throw e) => (State u1 true log, Throw e)
      | (u1, Await r) => (State u1 false log, Await r)
      end
  end.

Definition __anext__ (fuel : nat) (map_f : MapAiter.map_fn A B) (st : state)
  : state * resumed B running :=
  if finished st then (st, Throw StopAsyncIteration)
  else if MapAiter.iscoroutinefunction map_f
  then loop fuel (fun x => MapAiter.await (MapAiter.call map_f x))
            (upstream st) (logged st)
  else loop fuel (MapAiter.call map_f) (upstream st) (logged st).

End WithUpstream.
Arguments state : clear implicits.
End MapOver.

(** *** azip over any upstreams *)
Module AzipOver.
Section WithUpstream.
Context {U A : Type}.
Variable up_anext : U -> U * resumed A running.

Record state : Type := State {
  anext_list : list U;
  finished : bool
}.

Definition azip (aiters : list U) : state := State aiters false.

(** [next_list = [await _.__anext__() for _ in anext_list]] *)
Fixpoint advance (inputs : list U) : list U * resumed (list A) running :=
  match inputs with
  | [] => ([], Return [])
  | i :: rest =>
      match up_anext i with
      | (i1, Return x) =>
          let '(rest1, r) := advance rest in
          (i1 :: rest1,
           match r with
           | Return xs => Return (x :: xs)
           | Throw e => Throw e
           | Await k => Await k
           end)
      | (i1, Throw e) => (i1 :: rest, Throw e)
      | (i1, Await k) => (i1 :: rest, Await k)
      end
  end.

(** [__anext__] of the generator: [StopAsyncIteration] breaks the loop and
    ends the generator; any other exception leaves it. *)
Definition __anext__ (st : state) : state * resumed (list A) running :=
  if finished st then (st, Throw StopAsyncIteration)
  else
    match advance (anext_list st) with
    | (inputs, Return next_list) => (State inputs false, Return next_list)
    | (inputs, Throw StopAsyncIteration) =>
        (State inputs true, Throw StopAsyncIteration)
    | (inputs, Throw e) => (State inputs true, Throw e)
    | (inputs, Await k) => (State inputs false, Await k)
    end.

End WithUpstream.
Arguments state : clear implicits.
End AzipOver.

(** *** flatten_aiter *)
Module Flatten.
Section WithUpstream.
Context {U B : Type}.
Variable up_anext : U -> U * resumed (iterable B) running.

(** The state of the generator: the upstream, what remains of the loop
    [for _ in items] when the generator is parked at its [yield], and
    whether the generator has finished. *)
Record state : Type := State {
  upstream : U;
  in_for : option (iterable B);
  finished : bool
}.

Definition flatten_aiter (aiter : U) : state := State aiter None false.

(** The body [try: for _ in items: yield _  except Exception: pass], from
    the request of the next element of [items]. *)
Inductive body : Type :=
| Yields (y : B) (rest : iterable B)
| Over                         (* the body is over: on to the next [items] *)
| Leaves (e : exn).            (* an exception that [except Exception] lets through *)

Definition for_next (items : iterable B) : body :=
  match elements items with
  | y :: rest => Yields y (Iterable rest (failure items))
  | [] =>
      match failure items with
      | None => Over
      | Some e => if isinstance_Exception e then Over else Leaves e
      end
  end.

(** [async for items in aiter: ...], from its top. *)
Fixpoint loop (fuel : nat) (u : U) : state * resumed B running :=
  match fuel with
  | 0 => (State u None false, Await StillRunning)
  | S fuel' =>
      match up_anext u with
      | (u1, Return items) =>
          match for_next items with
          | Yields y rest => (State u1 (Some rest) false, Return y)
          | Over => loop fuel' u1
          | Leaves e => (State u1 None true, Throw e)
          end
      | (u1, Throw e) => (State u1 None true, Throw e)
      | (u1, Await r) => (State u1 None false, Await r)
      end
  end.

Definition __anext__ (fuel : nat) (st : state) : state * resumed B running :=
  if finished st then (st, Throw StopAsyncIteration)
  else
    match in_for st with
    | Some items =>
        match for_next items with
        | Yields y rest => (State (upstream st) (Some rest) false, Return y)
        | Over => loop fuel (upstream st)
        | Leaves e => (State (upstream st) None true, Throw e)
        end
    | None => loop fuel (upstream st)
    end.

End WithUpstream.
Arguments state : clear implicits.
End Flatten.

(** *** map_filter_aiter *)
Module MapFilter.
Section WithUpstream.
Context {U A B : Type}.
Variable up_anext : U -> U * resumed A running.

(** The state of the generator: the upstream; when the generator is parked
    at its [yield], what remains of the loop [for _ in items] and the value
    of the variable [_], which that loop rebinds; whether the generator has
    finished; and the calls of [logging.exception], each with the exception
    and the value that [_] holds at the call: the item of the stream, or
    the element yielded last. *)
Record state : Type := State {
  upstream : U;
  in_for : option (iterable B * (A + B));
  finished : bool;
  logged : list (exn * (A + B))
}.

Definition map_filter_aiter (aiter : U) : state := State aiter None false [].

(** The body [try: items = map_f(_); for _ in items: yield _  except
    Exception: logging.exception(..., map_f, _)] *)
Inductive body : Type :=
| Yields (y : B) (rest : iterable B)
| Over (log : list (exn * (A + B)))
| Leaves (e : exn).

(** From the request of the next element of [items]; [cur] is the value
    of [_]. *)
Definition for_next (items : iterable B) (cur : A + B)
    (log : list (exn * (A + B))) : body :=
  match elements items with
  | y :: rest => Yields y (Iterable rest (failure items))
  | [] =>
      match failure items with
      | None => Over log
      | Some e =>
          if isinstance_Exception e then Over (log ++ [(e, cur)])
          else Leaves e
      end
  end.

(** From the call of the mapping function on the item [x]. *)
Definition on_item (f : A -> result (iterable B)) (x : A)
    (log : list (exn * (A + B))) : body :=
  match f x with
  | Ok items => for_next items (inl x) log
  | Raise e =>
      if isinstance_Exception e then Over (log ++ [(e, inl x)])
      else Leaves e
  end.

(** [async for _ in aiter: ...], from its top. *)
Fixpoint loop (fuel : nat) (f : A -> result (iterable B)) (u : U)
    (log : list (exn * (A + B))) : state * resumed B running :=
  match fuel with
  | 0 => (State u None false log, Await StillRunning)
  | S fuel' =>
      match up_anext u with
      | (u1, Return x) =>
          match on_item f x log with
          | Yields y rest => (State u1 (Some (rest, inr y)) false log, Return y)
          | Over log1 => loop fuel' f u1 log1
          | Leaves e => (State u1 None true log, Throw e)
          end
      | (u1, Throw e) => (State u1 None true log, Throw e)
      | (u1, Await r) => (State u1 None false log, Await r)
      end
  end.

(** The generator resumed where it is parked. *)
Definition resume (fuel : nat) (f : A -> result (iterable B)) (st : state)
  : state * resumed B running :=
  match in_for st with
  | Some (items, cur) =>
      match for_next items cur (logged st) with
      | Yields y rest =>
          (State (upstream st) (Some (rest, inr y)) false (logged st), Return y)
      | Over log1 => loop fuel f (upstream st) log1
      | Leaves e => (State (upstream st) None true (logged st), Throw e)
      end
  | None => loop fuel f (upstream st) (logged st)
  end.

Definition __anext__ (fuel : nat) (map_f : MapAiter.map_fn A (iterable B))
    (st : state) : state * resumed B running :=
  if finished st then (st, Throw StopAsyncIteration)
  else if MapAiter.iscoroutinefunction map_f
  then resume fuel (fun x => MapAiter.await (MapAiter.call map_f x)) st
  else resume fuel (MapAiter.call map_f) st.

End WithUpstream.
Arguments state : clear implicits.
End MapFilter.

(** *** rated_aiter *)
Module Rated.

(** The Python values that matter to [range]: the integers, and any other
    object. *)
Inductive value (A : Type) : Type :=
| Int (n : Z)
| Obj (a : A).
Arguments Int {A} n.
Arguments Obj {A} a.

(** [range(v)]: the integers from 0 up to [v - 1], none when [v <= 0];
    [TypeError] when [v] is not an integer. *)
Definition range {A} (v : value A) : result (iterable (value A)) :=
  match v with
  | Int n => Ok (Iterable (map Int (seqZ 0 n)) None)
  | Obj _ => Raise TypeError
  end.

(** [range] and [lambda x: x[0]] as mapping functions: neither is a
    coroutine function. *)
Definition range_f {A} : MapAiter.map_fn (value A) (iterable (value A)) :=
  MapAiter.MapFn false range.

Definition first {A} : MapAiter.map_fn (list (value A)) (value A) :=
  MapAiter.MapFn false
    (fun x => match x with
              | a :: _ => Ok a
              | [] => Raise (UserError "IndexError" true)
              end).

Section WithStreams.
Context {UA UR A : Type}.
Variable aiter_anext : UA -> UA * resumed (value A) running.
Variable rate_anext : UR -> UR * resumed (value A) running.

(** The two streams that [rated_aiter] hands to [azip]: [aiter], and
    [map_filter_aiter(range, rate_limiter)]. *)
Inductive input : Type :=
| Items (aiter : UA)
| Tokens (tokens : MapFilter.state UR (value A) (value A)).

Definition input_anext (fuel : nat) (i : input)
  : input * resumed (value A) running :=
  match i with
  | Items u => let '(u1, r) := aiter_anext u in (Items u1, r)
  | Tokens st =>
      let '(st1, r) := MapFilter.__anext__ rate_anext fuel range_f st in
      (Tokens st1, r)
  end.

Definition state : Type :=
  MapOver.state (AzipOver.state input) (list (value A)).

(** [map_aiter(lambda x: x[0],
               azip(aiter, map_filter_aiter(range, rate_limiter)))] *)
Definition rated_aiter (rate_limiter : UR) (aiter : UA) : state :=
  MapOver.map_aiter
    (AzipOver.azip
       [Items aiter; Tokens (MapFilter.map_filter_aiter rate_limiter)]).

Definition __anext__ (fuel : nat) (st : state)
  : state * resumed (value A) running :=
  MapOver.__anext__ (AzipOver.__anext__ (input_anext fuel)) fuel first st.

End WithStreams.
Arguments input : clear implicits.
Arguments state : clear implicits.
End Rated.

(* ================================================================== *)
(** * Part II: the proofs                                              *)
(* ================================================================== *)

Module LinkedFacts.
Import Linked.
Section WithItem.
Context {A : Type}.
Implicit Types (w : world A) (h : list (future A)) (p : push_aiter) (c : linked_aiter).

Lemma getattr_tail_missing (o : object) : getattr o "tail" = Raise AttributeError.
Proof. destruct o; reflexivity. Qed.

(** *** Futures *)

Lemma state_of_lookup h f st : h !! f = Some st -> state_of h f = st.
Proof. unfold state_of. by intros ->. Qed.

Lemma state_of_app_l h h' f : f < length h -> state_of (h ++ h') f = state_of h f.
Proof. intros Hf. unfold state_of. by rewrite lookup_app_l. Qed.

Lemma state_of_new h : state_of (h ++ [Pending]) (length h) = Pending.
Proof. unfold state_of. by rewrite list_lookup_middle. Qed.

Lemma state_of_insert_eq h f st : f < length h -> state_of (<[f := st]> h) f = st.
Proof. intros Hf. unfold state_of. by rewrite list_lookup_insert_eq. Qed.

Lemma state_of_insert_ne h f g st : f <> g -> state_of (<[f := st]> h) g = state_of h g.
Proof. intros Hf. unfold state_of. by rewrite list_lookup_insert_ne. Qed.

(** *** A cursor never writes a future *)

Lemma anext_locked_futures w c w1 c1 r :
  anext_locked w c = (w1, c1, r) -> futures w1 = futures w.
Proof.
  unfold anext_locked. intros H.
  destruct (state_of (futures w) (_tail c)); simplify_eq; try done.
  simpl. destruct (_next_callback_f c); [|done].
  by destruct (done _ _).
Qed.

Lemma anext_resume_futures w c fr w1 c1 r :
  anext_resume w c fr = (w1, c1, r) -> futures w1 = futures w.
Proof.
  destruct fr; simpl; [|apply anext_locked_futures].
  destruct (Semaphore.try_acquire _); [apply anext_locked_futures|].
  by intros [= <- _ _].
Qed.

(** *** The producer's head

    The head of a producer is always a future of the store, and it is
    pending until [stop] cancels it. *)
Definition head_ok (s : world A * push_aiter) : Prop :=
  _head s.2 < length (futures s.1) /\
  (state_of (futures s.1) (_head s.2) = Pending \/
   state_of (futures s.1) (_head s.2) = Cancelled).

Lemma head_ok_init w0 : head_ok (push_aiter_init w0).
Proof.
  unfold head_ok, push_aiter_init. simpl. rewrite length_app. simpl.
  split; [lia|]. left. apply state_of_new.
Qed.

Lemma push_nowait_pending w p x :
  _head p < length (futures w) ->
  state_of (futures w) (_head p) = Pending ->
  push_nowait w p x =
    Ok (World (<[_head p := Resolved x (length (futures w))]> (futures w ++ [Pending]))
              (spawned w),
        PushAiter (cursor p) (length (futures w))).
Proof.
  intros Hlt Hst. unfold push_nowait, cancelled. rewrite Hst. simpl.
  unfold set_result, done. rewrite state_of_app_l, Hst by done. reflexivity.
Qed.

Lemma push_nowait_cancelled w p x :
  state_of (futures w) (_head p) = Cancelled ->
  push_nowait w p x = Raise ValueError.
Proof. intros Hst. unfold push_nowait, cancelled. by rewrite Hst. Qed.

Lemma stop_pending w p :
  state_of (futures w) (_head p) = Pending ->
  stop w p = World (<[_head p := Cancelled]> (futures w)) (spawned w).
Proof. intros Hst. unfold stop, cancel, done. by rewrite Hst. Qed.

Lemma stop_cancelled w p :
  state_of (futures w) (_head p) = Cancelled -> stop w p = w.
Proof. intros Hst. unfold stop, done. by rewrite Hst. Qed.

Lemma head_ok_apply s o : head_ok s -> head_ok (apply s o).
Proof.
  destruct s as [w p]. intros [Hlt Hst]. simpl in Hlt, Hst.
  assert (Hpush : forall x,
    head_ok match push_nowait w p x with Ok r => r | Raise _ => (w, p) end).
  { intros x. destruct Hst as [Hst|Hst].
    - rewrite push_nowait_pending by done. split; simpl.
      + rewrite length_insert, length_app. simpl. lia.
      + left. rewrite state_of_insert_ne by lia. apply state_of_new.
    - rewrite push_nowait_cancelled by done. split; auto. }
  destruct o as [x|x| |fr|c fr]; simpl.
  - unfold push. specialize (Hpush x). by destruct (push_nowait w p x).
  - apply Hpush.
  - destruct Hst as [Hst|Hst].
    + rewrite stop_pending by done. split; simpl.
      * by rewrite length_insert.
      * right. by apply state_of_insert_eq.
    + rewrite stop_cancelled by done. split; auto.
  - destruct (anext_resume w (cursor p) fr) as [[w1 c1] r] eqn:E.
    apply anext_resume_futures in E. split; simpl; rewrite E; auto.
  - destruct (anext_resume w c fr) as [[w1 c1] r] eqn:E.
    apply anext_resume_futures in E. split; simpl; rewrite E; auto.
Qed.

Lemma head_ok_run ops : forall s, head_ok s -> head_ok (run s ops).
Proof.
  induction ops as [|o ops IH]; intros s Hs; [done|].
  simpl. apply IH. by apply head_ok_apply.
Qed.

(** Once the head is cancelled, no operation revives it. *)
Definition stopped (s : world A * push_aiter) : Prop :=
  state_of (futures s.1) (_head s.2) = Cancelled.

Lemma stopped_apply s o : stopped s -> stopped (apply s o).
Proof.
  destruct s as [w p]. unfold stopped. simpl. intros Hst.
  destruct o as [x|x| |fr|c fr]; simpl.
  - unfold push. by rewrite push_nowait_cancelled.
  - by rewrite push_nowait_cancelled.
  - by rewrite stop_cancelled.
  - destruct (anext_resume w (cursor p) fr) as [[w1 c1] r] eqn:E.
    apply anext_resume_futures in E. simpl. by rewrite E.
  - destruct (anext_resume w c fr) as [[w1 c1] r] eqn:E.
    apply anext_resume_futures in E. simpl. by rewrite E.
Qed.

Lemma stopped_run ops : forall s, stopped s -> stopped (run s ops).
Proof.
  induction ops as [|o ops IH]; intros s Hs; [done|].
  simpl. apply IH. by apply stopped_apply.
Qed.

Lemma stopped_after_stop s : head_ok s -> stopped (apply s OpStop).
Proof.
  destruct s as [w p]. intros [Hlt [Hst|Hst]]; simpl in *; unfold stopped; simpl.
  - rewrite stop_pending by done. simpl. by apply state_of_insert_eq.
  - by rewrite stop_cancelled.
Qed.

(** *** The chain grows by one future per push *)

(** Resolved futures are never rewritten. *)
Definition extends (h h' : list (future A)) : Prop :=
  forall f x n, h !! f = Some (Resolved x n) -> h' !! f = Some (Resolved x n).

Lemma extends_refl h : extends h h.
Proof. by intros f x n. Qed.

Lemma extends_trans h1 h2 h3 : extends h1 h2 -> extends h2 h3 -> extends h1 h3.
Proof. intros H12 H23 f x n Hf. by apply H23, H12. Qed.

Lemma chain_extends h h' xs : forall f g,
  extends h h' -> chain h f xs g -> chain h' f xs g.
Proof.
  induction xs as [|x xs IH]; intros f g Hext; simpl; [done|].
  intros (n & Hf & Hn). exists n. split; [by apply Hext|]. by apply IH.
Qed.

Lemma chain_app h xs ys f g k :
  chain h f xs g -> chain h g ys k -> chain h f (xs ++ ys) k.
Proof.
  revert f. induction xs as [|x xs IH]; intros f; simpl.
  - by intros ->.
  - intros (n & Hf & Hn) Hys. exists n. split; [done|]. by apply IH.
Qed.

Lemma extends_push h f x :
  f < length h -> state_of h f = Pending ->
  extends h (<[f := Resolved x (length h)]> (h ++ [Pending])).
Proof.
  intros Hlt Hst g y n Hg.
  assert (g <> f) by (intros ->; apply state_of_lookup in Hg; congruence).
  rewrite list_lookup_insert_ne by done.
  rewrite lookup_app_l; [done|]. by eapply lookup_lt_Some.
Qed.

Lemma extends_cancel h f : state_of h f = Pending -> extends h (<[f := Cancelled]> h).
Proof.
  intros Hst g y n Hg.
  assert (g <> f) by (intros ->; apply state_of_lookup in Hg; congruence).
  by rewrite list_lookup_insert_ne.
Qed.

Lemma push_all_chain items : forall w p,
  _head p < length (futures w) ->
  state_of (futures w) (_head p) = Pending ->
  exists w' p',
    push_all w p items = Ok (w', p') /\
    chain (futures w') (_head p) items (_head p') /\
    extends (futures w) (futures w') /\
    length (futures w') = length (futures w) + length items /\
    _head p' < length (futures w') /\
    state_of (futures w') (_head p') = Pending /\
    cursor p' = cursor p /\ spawned w' = spawned w.
Proof.
  induction items as [|x items IH]; intros w p Hlt Hst.
  - exists w, p. simpl. repeat split; auto using extends_refl; lia.
  - simpl. rewrite push_nowait_pending by done. simpl.
    set (h1 := <[_head p := Resolved x (length (futures w))]> (futures w ++ [Pending])).
    assert (Hlen : length h1 = S (length (futures w))).
    { unfold h1. rewrite length_insert, length_app. simpl. lia. }
    destruct (IH (World h1 (spawned w)) (PushAiter (cursor p) (length (futures w))))
      as (w' & p' & Hrun & Hch & Hext & Hl & Hlt' & Hst' & Hc & Hsp).
    { simpl. lia. }
    { simpl. unfold h1. rewrite state_of_insert_ne by lia. apply state_of_new. }
    exists w', p'. simpl in *. split; [done|]. repeat split; auto.
    + exists (length (futures w)). split; [|done].
      apply Hext. unfold h1. apply list_lookup_insert_eq.
      rewrite length_app. simpl. lia.
    + eapply extends_trans; [|exact Hext]. by apply extends_push.
    + lia.
Qed.

(** *** A cursor replays the chain from its slot *)

Lemma anext_resolved w c x n :
  _lock c = Semaphore.init ->
  futures w !! _tail c = Some (Resolved x n) ->
  exists w1,
    __anext__ w c = (w1, LinkedAiter n Semaphore.init (_next_callback_f c), Return x) /\
    futures w1 = futures w.
Proof.
  destruct c as [t l cb]. simpl. intros -> Hf.
  unfold __anext__, anext_resume. simpl.
  unfold anext_locked. simpl. rewrite (state_of_lookup _ _ _ Hf). simpl.
  destruct cb as [cb|]; [destruct (done (futures w) n)|];
    eexists; split; reflexivity.
Qed.

Lemma anext_cancelled w c :
  _lock c = Semaphore.init ->
  state_of (futures w) (_tail c) = Cancelled ->
  __anext__ w c = (w, c, Throw StopAsyncIteration).
Proof.
  intros Hl Hf. unfold __anext__, anext_resume. rewrite Hl. simpl.
  unfold anext_locked. simpl. rewrite Hf. simpl.
  destruct c as [t l cb]. simpl in *. by subst.
Qed.

Lemma anext_pending w c :
  _lock c = Semaphore.init ->
  state_of (futures w) (_tail c) = Pending ->
  __anext__ w c = (w, set_lock c 0, Await AtTail).
Proof.
  intros Hl Hf. unfold __anext__, anext_resume. rewrite Hl. simpl.
  unfold anext_locked. simpl. by rewrite Hf.
Qed.

Lemma drain_chain xs : forall w c g,
  _lock c = Semaphore.init ->
  chain (futures w) (_tail c) xs g ->
  state_of (futures w) g = Cancelled ->
  drain (S (length xs)) w c =
    (xs, Some StopAsyncIteration,
     LinkedAiter g Semaphore.init (_next_callback_f c)).
Proof.
  induction xs as [|x xs IH]; intros w c g Hl Hch Hg.
  - simpl in Hch. subst g. cbn [length drain].
    rewrite anext_cancelled by done. destruct c; simpl in *; by subst.
  - destruct Hch as (n & Hf & Hn). cbn [length].
    change (drain (S (S (length xs))) w c) with
      (match __anext__ w c with
       | (w1, c1, Return x) =>
           let '(xs, e, c2) := drain (S (length xs)) w1 c1 in (x :: xs, e, c2)
       | (_, c1, Throw e) => ([], Some e, c1)
       | (_, c1, Await _) => ([], None, c1)
       end).
    destruct (anext_resolved w c x n Hl Hf) as (w1 & -> & Hw1).
    rewrite (IH w1 _ g); simpl; rewrite ?Hw1; done.
Qed.

(** On a chain whose end is still pending the cursor yields the items and
    then parks on the pending future. *)
Lemma drain_chain_pending xs : forall w c g,
  _lock c = Semaphore.init ->
  chain (futures w) (_tail c) xs g ->
  state_of (futures w) g = Pending ->
  drain (S (length xs)) w c =
    (xs, None, LinkedAiter g 0 (_next_callback_f c)).
Proof.
  induction xs as [|x xs IH]; intros w c g Hl Hch Hg.
  - simpl in Hch. subst g. cbn [length drain].
    rewrite anext_pending by done. destruct c; simpl in *; by subst.
  - destruct Hch as (n & Hf & Hn). cbn [length].
    change (drain (S (S (length xs))) w c) with
      (match __anext__ w c with
       | (w1, c1, Return x) =>
           let '(xs, e, c2) := drain (S (length xs)) w1 c1 in (x :: xs, e, c2)
       | (_, c1, Throw e) => ([], Some e, c1)
       | (_, c1, Await _) => ([], None, c1)
       end).
    destruct (anext_resolved w c x n Hl Hf) as (w1 & -> & Hw1).
    rewrite (IH w1 _ g); simpl; rewrite ?Hw1; done.
Qed.

(** *** What has been pushed, at any moment *)

(** The items of the pushes that succeed along a list of operations. *)
Fixpoint pushed (s : world A * push_aiter) (ops : list op) : list A :=
  match ops with
  | [] => []
  | o :: ops' =>
      match o with
      | OpPush x | OpPushNowait x =>
          if cancelled (futures s.1) (_head s.2) then pushed (apply s o) ops'
          else x :: pushed (apply s o) ops'
      | _ => pushed (apply s o) ops'
      end
  end.

Lemma chain_apply s o start xs :
  head_ok s ->
  chain (futures s.1) start xs (_head s.2) ->
  chain (futures (apply s o).1) start (xs ++ pushed s [o]) (_head (apply s o).2).
Proof.
  destruct s as [w p]. intros [Hlt Hst] Hch. cbn [fst snd] in *.
  assert (Hpush : forall x,
    chain (futures match push_nowait w p x with Ok r => r | Raise _ => (w, p) end.1)
      start (xs ++ (if cancelled (futures w) (_head p) then [] else [x]))
      (_head match push_nowait w p x with Ok r => r | Raise _ => (w, p) end.2)).
  { intros x. unfold cancelled. destruct Hst as [Hst|Hst]; rewrite Hst.
    - rewrite push_nowait_pending by done. cbn [fst snd futures _head].
      eapply chain_app.
      + eapply chain_extends; [|exact Hch]. by apply extends_push.
      + exists (length (futures w)). split; [|done].
        apply list_lookup_insert_eq. rewrite length_app. simpl. lia.
    - rewrite push_nowait_cancelled by done. by rewrite app_nil_r. }
  destruct o as [x|x| |fr|c fr]; cbn [pushed apply fst snd].
  - unfold push. specialize (Hpush x).
    destruct (cancelled (futures w) (_head p));
      by destruct (push_nowait w p x) as [[w1 p1]|e].
  - specialize (Hpush x).
    destruct (cancelled (futures w) (_head p));
      by destruct (push_nowait w p x) as [[w1 p1]|e].
  - rewrite app_nil_r. destruct Hst as [Hst|Hst].
    + rewrite stop_pending by done. cbn.
      eapply chain_extends; [|exact Hch]. by apply extends_cancel.
    + by rewrite stop_cancelled.
  - rewrite app_nil_r.
    destruct (anext_resume w (cursor p) fr) as [[w1 c1] r] eqn:E.
    apply anext_resume_futures in E. cbn. by rewrite E.
  - rewrite app_nil_r.
    destruct (anext_resume w c fr) as [[w1 c1] r] eqn:E.
    apply anext_resume_futures in E. cbn. by rewrite E.
Qed.

Lemma chain_run ops : forall s start xs,
  head_ok s ->
  chain (futures s.1) start xs (_head s.2) ->
  chain (futures (run s ops).1) start (xs ++ pushed s ops) (_head (run s ops).2).
Proof.
  induction ops as [|o ops IH]; intros s start xs Hok Hch.
  - cbn. by rewrite app_nil_r.
  - cbn [run fold_left]. fold (run (apply s o) ops).
    assert (Hstep := chain_apply s o start xs Hok Hch).
    apply (IH _ _ _ (head_ok_apply s o Hok)) in Hstep.
    replace (xs ++ pushed s (o :: ops))
      with ((xs ++ pushed s [o]) ++ pushed (apply s o) ops); [done|].
    rewrite <- app_assoc. f_equal. cbn [pushed].
    destruct o; try done;
      by destruct (cancelled (futures s.1) (_head s.2)).
Qed.

(** Whatever has been done to the producer and by the other cursors, a
    cursor built by the constructor at the first slot yields the items
    pushed so far, in push order; then it ends if the producer has been
    stopped, and parks otherwise. *)
Lemma cursor_at_first_slot_replays w0 ops cb :
  let s0 := push_aiter_init w0 in
  let s := run s0 ops in
  let c := (linked_aiter_init s.1 (Some (_head s0.2)) cb).2 in
  exists c',
    drain (S (length (pushed s0 ops))) s.1 c =
      (pushed s0 ops,
       if cancelled (futures s.1) (_head s.2)
       then Some StopAsyncIteration else None,
       c').
Proof.
  intros s0 s c.
  assert (Hch : chain (futures s.1) (_head s0.2) (pushed s0 ops) (_head s.2)).
  { apply (chain_run ops s0 (_head s0.2) []); [apply head_ok_init|done]. }
  assert (Hst : state_of (futures s.1) (_head s.2) = Pending \/
                state_of (futures s.1) (_head s.2) = Cancelled).
  { apply (head_ok_run ops s0), head_ok_init. }
  unfold cancelled. destruct Hst as [Hst|Hst]; rewrite Hst; eexists.
  - by apply drain_chain_pending with (g := _head s.2).
  - by apply drain_chain with (g := _head s.2).
Qed.

(** *** Pushing after [stop] *)

Lemma push_stopped (s : world A * push_aiter) x :
  stopped s ->
  push_nowait s.1 s.2 x = Raise ValueError /\
  push s.1 s.2 x = Throw ValueError.
Proof.
  intros Hst. unfold push. rewrite push_nowait_cancelled by done. done.
Qed.

Lemma stopped_after_stop_run w0 ops1 ops2 :
  stopped (run (apply (run (push_aiter_init w0) ops1) OpStop) ops2).
Proof.
  apply stopped_run, stopped_after_stop, head_ok_run, head_ok_init.
Qed.

(** *** N pushes, then stop, seen from the first slot *)

Lemma pushes_then_stop w0 xs :
  let s0 := push_aiter_init w0 in
  exists w1 p1,
    push_all s0.1 s0.2 xs = Ok (w1, p1) /\
    chain (futures (stop w1 p1)) (_head s0.2) xs (_head p1) /\
    state_of (futures (stop w1 p1)) (_head p1) = Cancelled.
Proof.
  intros s0. destruct (head_ok_init w0) as [Hlt Hst]. fold s0 in Hlt, Hst.
  assert (Hp : state_of (futures s0.1) (_head s0.2) = Pending).
  { unfold s0, push_aiter_init. simpl. apply state_of_new. }
  destruct (push_all_chain xs s0.1 s0.2 Hlt Hp)
    as (w1 & p1 & Hrun & Hch & Hext & Hl & Hlt' & Hst' & _).
  exists w1, p1. split; [done|]. rewrite stop_pending by done. simpl. split.
  - eapply chain_extends; [|exact Hch]. by apply extends_cancel.
  - by apply state_of_insert_eq.
Qed.

(** A cursor built by the constructor at the first slot, whatever its
    callback, yields the pushed items in push order and then ends. *)
Lemma constructed_cursor_replays w0 xs cb :
  let s0 := push_aiter_init w0 in
  exists w1 p1,
    push_all s0.1 s0.2 xs = Ok (w1, p1) /\
    let '(w2, c) := linked_aiter_init (stop w1 p1) (Some (_head s0.2)) cb in
    exists c', drain (S (length xs)) w2 c = (xs, Some StopAsyncIteration, c').
Proof.
  intros s0. destruct (pushes_then_stop w0 xs) as (w1 & p1 & Hrun & Hch & Hst).
  exists w1, p1. split; [done|]. simpl. eexists.
  by apply drain_chain with (g := _head p1).
Qed.

(** *** Only [stop] closes a producer *)

Definition is_stop (o : @op A) : bool :=
  match o with
  | OpStop => true
  | _ => false
  end.

Lemma pending_apply s o :
  head_ok s -> state_of (futures s.1) (_head s.2) = Pending ->
  is_stop o = false ->
  state_of (futures (apply s o).1) (_head (apply s o).2) = Pending.
Proof.
  destruct s as [w p]. intros [Hlt _] Hst Ho. cbn [fst snd] in *.
  destruct o as [x|x| |fr|c fr]; cbn [apply]; try done.
  - unfold push. rewrite push_nowait_pending by done. cbn.
    rewrite state_of_insert_ne by lia. apply state_of_new.
  - rewrite push_nowait_pending by done. cbn.
    rewrite state_of_insert_ne by lia. apply state_of_new.
  - destruct (anext_resume w (cursor p) fr) as [[w1 c1] r] eqn:E.
    apply anext_resume_futures in E. cbn. by rewrite E.
  - destruct (anext_resume w c fr) as [[w1 c1] r] eqn:E.
    apply anext_resume_futures in E. cbn. by rewrite E.
Qed.

Lemma cancelled_run ops : forall s,
  head_ok s -> state_of (futures s.1) (_head s.2) = Pending ->
  cancelled (futures (run s ops).1) (_head (run s ops).2) = existsb is_stop ops.
Proof.
  induction ops as [|o ops IH]; intros s Hok Hst.
  - cbn. unfold cancelled. by rewrite Hst.
  - cbn [run fold_left existsb]. fold (run (apply s o) ops).
    destruct (is_stop o) eqn:Ho.
    + destruct o; try done. cbn [orb].
      assert (Hs : stopped (run (apply s OpStop) ops))
        by (by apply stopped_run, stopped_after_stop).
      unfold cancelled. by rewrite Hs.
    + cbn [orb]. apply IH; [by apply head_ok_apply|by apply pending_apply].
Qed.

End WithItem.
End LinkedFacts.

Module QAiterFacts.
Import QAiter.
Section WithItem.
Context {A : Type}.
Implicit Types (q : q_aiter A) (items : list A).

Lemma put_Some q x q1 :
  put q x = Some q1 ->
  Queue.full (_q q) = false /\
  q1 = set_q q (Queue.Q (Queue.maxsize (_q q)) (Queue.items (_q q) ++ [x])).
Proof.
  unfold put, Queue.put_nowait. destruct (Queue.full (_q q)); [done|].
  by intros [= <-].
Qed.




(** [push] never overfills a bounded queue. *)
Lemma push_bounded items : forall q q' r,
  push q items = (q', r) ->
  (0 < Queue.maxsize (_q q))%Z ->
  (Z.of_nat (Queue.qsize (_q q)) <= Queue.maxsize (_q q))%Z ->
  (Z.of_nat (Queue.qsize (_q q')) <= Queue.maxsize (_q q))%Z.
Proof.
  induction items as [|x items IH]; intros q q' r Hp Hpos Hle; simpl in Hp.
  - by simplify_eq.
  - destruct (_stopping q); [by simplify_eq|].
    set (q1 := match _full_callback q with
               | Some _ => if Queue.full (_q q) then call_full_callback q x else q
               | None => q
               end) in *.
    assert (Hq1 : _q q1 = _q q).
    { unfold q1. destruct (_full_callback q); [destruct (Queue.full _)|]; done. }
    destruct (put q1 x) as [q2|] eqn:Hput.
    + apply put_Some in Hput as [Hnf ->]. rewrite Hq1 in Hnf.
      apply IH in Hp; cbn in *; rewrite ?Hq1 in *; try done.
      unfold Queue.full in Hnf.
      destruct (Queue.maxsize (_q q) <=? 0)%Z eqn:E0; [lia|].
      apply Z.leb_gt in Hnf. unfold Queue.qsize in *. cbn.
      rewrite length_app. cbn. lia.
    + simplify_eq. by rewrite Hq1.
Qed.

(** Pushing into a stopped stream. *)
Lemma push_stopping q x rest :
  _stopping q = true -> push q (x :: rest) = (q, Throw ValueError).
Proof. intros H. simpl. by rewrite H. Qed.

Lemma push_nowait_stopping q x rest :
  _stopping q = true -> push_nowait q (x :: rest) = Raise ValueError.
Proof. intros H. simpl. by rewrite H. Qed.

Lemma stop_stopping q : _stopping (stop q) = true.
Proof. unfold stop. by destruct (_stopping q) eqn:E. Qed.



Lemma anext_stopping q : _stopping (__anext__ q).1 = _stopping q.
Proof.
  unfold __anext__, Queue.get_nowait.
  destruct (_stopping q) eqn:Hs; [|done].
  destruct (_stopped q); [done|].
  by destruct (Queue.items (_q q)).
Qed.

Lemma anext_resume_keeps_stopping q fr :
  _stopping (anext_resume q fr).1 = _stopping q.
Proof.
  destruct fr as [[x|]]; [done|]. cbn [anext_resume].
  destruct (_stopping q) eqn:Hs; [|done]. by rewrite anext_stopping.
Qed.

(** *** [stop] is for good *)

Lemma push_keeps_stopping items : forall q, _stopping (push q items).1 = _stopping q.
Proof.
  induction items as [|x items IH]; intros q; [done|]. cbn [push].
  destruct (_stopping q) eqn:Hs; [done|].
  set (q1 := match _full_callback q with
             | Some _ => if Queue.full (_q q) then call_full_callback q x else q
             | None => q
             end).
  assert (Hq1 : _stopping q1 = _stopping q).
  { unfold q1. destruct (_full_callback q); [destruct (Queue.full _)|]; done. }
  destruct (put q1 x) as [q2|] eqn:Hput; cbn; [|congruence].
  apply put_Some in Hput as [_ ->]. rewrite IH. cbn. congruence.
Qed.

Lemma push_nowait_keeps_stopping items : forall q q1,
  push_nowait q items = Ok q1 -> _stopping q1 = _stopping q.
Proof.
  induction items as [|x items IH]; intros q q1; cbn [push_nowait].
  - by intros [= <-].
  - destruct (_stopping q) eqn:Hs; [done|]. destruct (full q).
    + destruct (_full_callback q); intros ->%IH; cbn; congruence.
    + unfold Queue.put_nowait. destruct (Queue.full (_q q)); [done|].
      intros ->%IH. cbn. congruence.
Qed.

Lemma apply_keeps_stopping q (o : op A) :
  _stopping q = true -> _stopping (apply q o) = true.
Proof.
  intros Hs. destruct o as [items|[x rest]|items| | |fr|fr]; cbn [apply].
  - by rewrite push_keeps_stopping.
  - cbn [push_resume]. destruct (put q x) as [q1|] eqn:Hput; [|done].
    apply put_Some in Hput as [_ ->]. by rewrite push_keeps_stopping.
  - destruct (push_nowait q items) as [q1|e] eqn:Hp; [|done].
    apply push_nowait_keeps_stopping in Hp. congruence.
  - unfold stop. by rewrite Hs.
  - by rewrite anext_stopping.
  - by rewrite anext_resume_keeps_stopping.
  - destruct fr as [[x|]]; [done|]. cbn [q_get_run].
    unfold Queue.get_nowait. by destruct (Queue.items (_q q)).
Qed.

Lemma run_keeps_stopping (ops : list (op A)) : forall q,
  _stopping q = true -> _stopping (run q ops) = true.
Proof.
  induction ops as [|o ops IH]; intros q Hs; [done|].
  cbn. apply IH. by apply apply_keeps_stopping.
Qed.

(** *** One non-blocking push *)

(** The stream after [push_nowait(item)] on a stream that is not stopped. *)
Definition accept q (x : A) : q_aiter A :=
  if full q then
    match _full_callback q with
    | Some _ => drop_item (call_full_callback q x) x
    | None => drop_item q x
    end
  else set_q q (Queue.Q (Queue.maxsize (_q q)) (Queue.items (_q q) ++ [x])).

Lemma push_nowait_one q x :
  _stopping q = false -> push_nowait q [x] = Ok (accept q x).
Proof.
  intros Hs. unfold accept. cbn [push_nowait]. rewrite Hs.
  unfold Queue.put_nowait, full.
  destruct (Queue.full (_q q)); [by destruct (_full_callback q)|done].
Qed.

Lemma unbounded_not_full (qu : Queue.t A) :
  (Queue.maxsize qu <= 0)%Z -> Queue.full qu = false.
Proof.
  intros H. unfold Queue.full.
  destruct (Queue.maxsize qu <=? 0)%Z eqn:E; [done|]. lia.
Qed.

Lemma accept_unbounded q x :
  (Queue.maxsize (_q q) <= 0)%Z ->
  accept q x = set_q q (Queue.Q (Queue.maxsize (_q q)) (Queue.items (_q q) ++ [x])).
Proof.
  intros H. unfold accept, full. by rewrite unbounded_not_full.
Qed.

Lemma accept_static q x :
  _stopping (accept q x) = _stopping q /\
  _stopped (accept q x) = _stopped q /\
  _full_callback (accept q x) = _full_callback q /\
  Queue.maxsize (_q (accept q x)) = Queue.maxsize (_q q).
Proof.
  unfold accept. destruct (full q); [|done].
  destruct q as [qu sg sd [cb|] fc dr]; done.
Qed.

Lemma anext_resume_stopping q :
  _stopping q = true -> anext_resume q (AtWait None) = __anext__ q.
Proof. intros H. cbn [anext_resume]. by rewrite H. Qed.

(** The four outcomes of [__anext__] from the top of its loop. *)
Inductive anext_outcome q : q_aiter A * resumed A (anext_frame A) -> Prop :=
| anext_parks :
    _stopping q = false ->
    anext_outcome q (q, Await (AtWait None))
| anext_over :
    _stopping q = true -> _stopped q = true ->
    anext_outcome q (q, Throw StopAsyncIteration)
| anext_item x rest :
    _stopping q = true -> _stopped q = false ->
    Queue.items (_q q) = x :: rest ->
    anext_outcome q
      (set_q q (Queue.Q (Queue.maxsize (_q q)) rest), Return x)
| anext_end :
    _stopping q = true -> _stopped q = false ->
    Queue.items (_q q) = [] ->
    anext_outcome q
      (QAiter (_q q) (_stopping q) true (_full_callback q) (full_calls q)
              (dropped q),
       Throw StopAsyncIteration).

Lemma anext_cases q : anext_outcome q (__anext__ q).
Proof.
  destruct q as [[m its] [|] sd cb fc dr]; [|by apply anext_parks].
  destruct sd; [by apply anext_over|].
  destruct its as [|x rest].
  - by apply (anext_end (QAiter (Queue.Q m []) true false cb fc dr)).
  - by apply (anext_item (QAiter (Queue.Q m (x :: rest)) true false cb fc dr) x rest).
Qed.

(** *** A non-blocking push of several items *)

(** How many of [n] items a queue still takes: all of them when it is
    unbounded, and as many as it has free slots otherwise. *)
Definition room (qu : Queue.t A) (n : nat) : nat :=
  if (Queue.maxsize qu <=? 0)%Z then n
  else Nat.min n (Z.to_nat (Queue.maxsize qu) - Queue.qsize qu).

Lemma room_full qu n : Queue.full qu = true -> room qu n = 0.
Proof.
  unfold Queue.full, room. destruct (Queue.maxsize qu <=? 0)%Z; [done|].
  intros H%Z.leb_le. lia.
Qed.

Lemma room_not_full qu x n :
  Queue.full qu = false ->
  room qu (S n) =
    S (room (Queue.Q (Queue.maxsize qu) (Queue.items qu ++ [x])) n).
Proof.
  unfold Queue.full, room, Queue.qsize. cbn [Queue.maxsize Queue.items].
  destruct (Queue.maxsize qu <=? 0)%Z; [done|].
  intros H%Z.leb_gt. rewrite length_app. cbn [length]. lia.
Qed.

(** [push_nowait] enqueues the items that find room and skips the others,
    calling [_full_callback], when there is one, with each of them. *)
Lemma push_nowait_spec items : forall q,
  _stopping q = false ->
  let k := room (_q q) (length items) in
  push_nowait q items =
    Ok (QAiter (Queue.Q (Queue.maxsize (_q q))
                        (Queue.items (_q q) ++ take k items))
               false (_stopped q) (_full_callback q)
               (full_calls q ++
                  match _full_callback q with
                  | Some _ => drop k items
                  | None => []
                  end)
               (dropped q ++ drop k items)).
Proof.
  induction items as [|x items IH]; intros q Hns k.
  - destruct q as [[m its] sg sd cb fc dr]. cbn in *. subst sg.
    assert (Hk : k = 0) by (unfold k, room; cbn; by destruct (m <=? 0)%Z).
    rewrite Hk. cbn. destruct cb; by rewrite !app_nil_r.
  - cbn [push_nowait]. rewrite Hns. unfold full.
    destruct (Queue.full (_q q)) eqn:Hf.
    + assert (Hk : k = 0) by (by apply room_full).
      assert (Hk' : forall q', _q q' = _q q -> room (_q q') (length items) = 0).
      { intros q' ->. by apply room_full. }
      rewrite Hk. cbn [take drop].
      destruct (_full_callback q) as [cb|] eqn:Hcb.
      * rewrite IH by done. cbv zeta. rewrite Hk' by done.
        cbn. rewrite Hcb, !app_nil_r, <- !app_assoc. done.
      * rewrite IH by done. cbv zeta. rewrite Hk' by done.
        cbn. rewrite Hcb, !app_nil_r, <- !app_assoc. done.
    + unfold Queue.put_nowait. rewrite Hf. cbn.
      rewrite IH by done. cbv zeta. cbn [_q set_q Queue.maxsize Queue.items
        _stopped _full_callback full_calls dropped].
      unfold k. cbn [length]. rewrite (room_not_full _ x) by done.
      cbn [take drop]. by rewrite <- app_assoc.
Qed.

(** *** The buffer of a bounded stream never overflows *)

Definition within_capacity q : Prop :=
  (Z.of_nat (Queue.qsize (_q q)) <= Queue.maxsize (_q q))%Z.

Lemma push_keeps_maxsize items : forall q,
  Queue.maxsize (_q (push q items).1) = Queue.maxsize (_q q).
Proof.
  induction items as [|x items IH]; intros q; [done|]. cbn [push].
  destruct (_stopping q) eqn:Hs; [done|].
  set (q1 := match _full_callback q with
             | Some _ => if Queue.full (_q q) then call_full_callback q x else q
             | None => q
             end).
  assert (Hq1 : _q q1 = _q q).
  { unfold q1. destruct (_full_callback q); [destruct (Queue.full _)|]; done. }
  destruct (put q1 x) as [q2|] eqn:Hput; cbn; [|by rewrite Hq1].
  apply put_Some in Hput as [_ ->]. rewrite IH. cbn. by rewrite Hq1.
Qed.

Lemma anext_capacity q :
  within_capacity q ->
  within_capacity (__anext__ q).1 /\
  Queue.maxsize (_q (__anext__ q).1) = Queue.maxsize (_q q).
Proof.
  unfold within_capacity.
  destruct (anext_cases q) as [Hs|Hs Hd|x rest Hs Hd Hq|Hs Hd Hq]; cbn; try done.
  unfold Queue.qsize. rewrite Hq. cbn. lia.
Qed.

Lemma get_capacity q fr :
  within_capacity q ->
  within_capacity (q_get_run q fr).1 /\
  Queue.maxsize (_q (q_get_run q fr).1) = Queue.maxsize (_q q).
Proof.
  unfold within_capacity, q_get_run, Queue.get_nowait.
  destruct fr as [[y|]]; [done|].
  destruct (Queue.items (_q q)) as [|x rest] eqn:Hq; [done|].
  unfold Queue.qsize. rewrite Hq. cbn. lia.
Qed.

Lemma apply_capacity q (o : op A) :
  (0 < Queue.maxsize (_q q))%Z -> within_capacity q ->
  within_capacity (apply q o) /\
  Queue.maxsize (_q (apply q o)) = Queue.maxsize (_q q).
Proof.
  intros Hpos Hc. destruct o as [items|[x rest]|items| | |fr|fr]; cbn [apply].
  - split; [|apply push_keeps_maxsize]. unfold within_capacity.
    rewrite push_keeps_maxsize.
    destruct (push q items) as [q' r] eqn:Hp. by eapply push_bounded.
  - cbn [push_resume]. destruct (put q x) as [q1|] eqn:Hput; [|done].
    apply put_Some in Hput as [Hnf ->].
    split; [|by rewrite push_keeps_maxsize]. unfold within_capacity.
    rewrite push_keeps_maxsize.
    destruct (push _ rest) as [q' r] eqn:Hp. cbn [fst].
    apply push_bounded in Hp; cbn in *; try done.
    unfold Queue.full in Hnf.
    destruct (Queue.maxsize (_q q) <=? 0)%Z eqn:E0; [lia|].
    apply Z.leb_gt in Hnf. unfold Queue.qsize in *. cbn.
    rewrite length_app. cbn. lia.
  - destruct (_stopping q) eqn:Hs.
    + destruct items as [|x items]; cbn; [done|]. by rewrite Hs.
    + rewrite push_nowait_spec by done. cbv zeta. unfold within_capacity.
      cbn. split; [|done]. unfold within_capacity, room, Queue.qsize in *.
      destruct (Queue.maxsize (_q q) <=? 0)%Z eqn:E0; [lia|].
      rewrite length_app, length_take. lia.
  - unfold stop. by destruct (_stopping q).
  - by apply anext_capacity.
  - destruct fr as [[y|]]; [done|]. cbn [anext_resume].
    destruct (_stopping q); [by apply anext_capacity|done].
  - by apply get_capacity.
Qed.

Lemma run_capacity (ops : list (op A)) : forall q,
  (0 < Queue.maxsize (_q q))%Z -> within_capacity q ->
  within_capacity (run q ops) /\
  Queue.maxsize (_q (run q ops)) = Queue.maxsize (_q q).
Proof.
  induction ops as [|o ops IH]; intros q Hpos Hc; [done|].
  cbn [run fold_left]. fold (run (apply q o) ops).
  destruct (apply_capacity q o Hpos Hc) as [Hc1 Hm1].
  destruct (IH (apply q o)) as [Hc2 Hm2]; [lia|done|].
  split; [done|congruence].
Qed.

End WithItem.
End QAiterFacts.

Module PipeFacts.
Import QAiter Pipe QAiterFacts.
Section WithItem.
Context {A : Type}.
Implicit Types (s : sys A) (items : list A).

(** Where the items are: still to be pushed by the producer, in the
    buffer, held by the finished task [q_get], or delivered. *)
Definition pending (p : producer A) : list A :=
  match p with
  | PStart items => items
  | PParked (InPut x rest) => x :: rest
  | _ => []
  end.

Definition held (c : consumer A) : list A :=
  match c with
  | CParked (AtWait (Some x)) => [x]
  | _ => []
  end.

Definition buffered s : list A := Queue.items (_q (qa s)).

Record inv items s : Prop := Inv {
  inv_items : out s ++ held (cons s) ++ buffered s ++ pending (prod s) = items;
  inv_stopping : _stopping (qa s) = true <-> prod s = PDone;
  inv_prod : forall e, prod s <> PFailed e;
  inv_cons : forall e, cons s <> CFailed e;
  inv_stopped : _stopped (qa s) = true -> cons s = CEnded;
  inv_ended : cons s = CEnded -> _stopping (qa s) = true /\ buffered s = []
}.






















End WithItem.
End PipeFacts.

Section DriverFacts.
Context {St B F : Type} (anext : St -> St * resumed B F).

Lemma aiter_to_iter_S fuel s :
  aiter_to_iter anext (S fuel) s =
    match anext s with
    | (s1, Return y) =>
        let '(ys, e, s2) := aiter_to_iter anext fuel s1 in (y :: ys, e, s2)
    | (s1, Throw StopAsyncIteration) => ([], Exhausted, s1)
    | (s1, Throw e) => ([], Failed e, s1)
    | (s1, Await _) => ([], Unfinished, s1)
    end.
Proof. reflexivity. Qed.

End DriverFacts.

Module MapAiterFacts.
Import MapAiter.
Section WithItem.
Context {A B : Type}.
Implicit Types (f : map_fn A B) (src : list A) (log : list (exn * A)).

(** What the stream should give: the results of the calls that return, and
    the log of the calls that raise. *)
Definition returned f (x : A) : option B :=
  match call f x with
  | Ok y => Some y
  | Raise _ => None
  end.

Definition raised f (x : A) : option (exn * A) :=
  match call f x with
  | Ok _ => None
  | Raise e => Some (e, x)
  end.

(** The two branches of [map_aiter] run the same loop. *)
Lemma anext_unfold f (st : state A) :
  __anext__ f st =
    if finished st then (st, Throw StopAsyncIteration)
    else loop (call f) (source st) (logged st).
Proof.
  unfold __anext__. destruct (finished st); [done|].
  by destruct (iscoroutinefunction f).
Qed.

Lemma map_anext_finished f (st : state A) :
  finished st = true -> __anext__ f st = (st, Throw StopAsyncIteration).
Proof. intros H. by rewrite anext_unfold, H. Qed.

(** As long as the exceptions raised are instances of [Exception], the
    stream gives the results of the calls that return, in order, logs the
    others, and ends with the input. *)
Lemma run_catches f src : forall fuel log,
  length src < fuel ->
  (forall x e, x ∈ src -> call f x = Raise e -> isinstance_Exception e = true) ->
  aiter_to_iter (__anext__ f) fuel (State src false log) =
    (omap (returned f) src, Exhausted,
     State [] true (log ++ omap (raised f) src)).
Proof.
  induction src as [|x rest IH]; intros fuel log Hfuel Hexc;
    (destruct fuel as [|fuel]; [simpl in Hfuel; lia|]).
  - cbn [aiter_to_iter]. rewrite anext_unfold. simpl. by rewrite app_nil_r.
  - assert (Hrest : forall y e, y ∈ rest -> call f y = Raise e ->
                      isinstance_Exception e = true).
    { intros y e Hy. apply Hexc. by right. }
    cbn [aiter_to_iter]. rewrite anext_unfold. cbn [finished source logged loop].
    unfold returned at 1, raised at 1. cbn [omap list_omap].
    destruct (call f x) as [y|e] eqn:Hx.
    + rewrite (IH fuel log); [done| |done]. simpl in Hfuel. lia.
    + rewrite (Hexc x e); [|by left|done].
      specialize (IH (S fuel) (log ++ [(e, x)])).
      cbn [aiter_to_iter] in IH. rewrite anext_unfold in IH.
      cbn [finished source logged] in IH.
      rewrite IH; [|simpl in Hfuel; lia|done].
      by rewrite <- app_assoc.
Qed.

(** An exception that is not an instance of [Exception] goes through. *)
Lemma run_propagates f x rest log e fuel :
  call f x = Raise e -> isinstance_Exception e = false ->
  aiter_to_iter (__anext__ f) (S fuel) (State (x :: rest) false log) =
    ([], Failed e, State rest true log).
Proof.
  intros Hx He. cbn [aiter_to_iter]. rewrite anext_unfold. simpl.
  rewrite Hx, He. by destruct e.
Qed.

(** The stream up to the first item on which the mapping function raises
    an exception that is not an instance of [Exception]: the items before
    it are mapped or logged, the exception leaves the generator, and what
    follows the item stays in the input. *)
Lemma run_stops f pre x post e : forall fuel log,
  length pre < fuel ->
  (forall y e', y ∈ pre -> call f y = Raise e' ->
     isinstance_Exception e' = true) ->
  call f x = Raise e -> isinstance_Exception e = false ->
  aiter_to_iter (__anext__ f) fuel (State (pre ++ x :: post) false log) =
    (omap (returned f) pre, Failed e,
     State post true (log ++ omap (raised f) pre)).
Proof.
  induction pre as [|y pre IH]; intros fuel log Hfuel Hexc Hx He;
    (destruct fuel as [|fuel]; [simpl in Hfuel; lia|]).
  - cbn [app omap list_omap]. rewrite app_nil_r. by apply run_propagates.
  - assert (Hpre : forall z e', z ∈ pre -> call f z = Raise e' ->
                     isinstance_Exception e' = true).
    { intros z e' Hz. apply Hexc. by right. }
    cbn [app aiter_to_iter]. rewrite anext_unfold.
    cbn [finished source logged loop].
    unfold returned at 1, raised at 1. cbn [omap list_omap].
    destruct (call f y) as [v|e'] eqn:Hy.
    + rewrite (IH fuel log); [done| |done..]. simpl in Hfuel. lia.
    + rewrite (Hexc y e'); [|by left|done].
      specialize (IH (S fuel) (log ++ [(e', y)])).
      cbn [aiter_to_iter] in IH. rewrite anext_unfold in IH.
      cbn [finished source logged] in IH.
      rewrite IH; [|simpl in Hfuel; lia|done..].
      by rewrite <- app_assoc.
Qed.

End WithItem.
End MapAiterFacts.

Module AzipFacts.
Import Azip.
Section WithItem.
Context {A : Type}.
Implicit Types (i : input A) (inputs pre post : list (input A)).

(** An input after [n] more calls of its [__anext__]. *)
Definition adv (n : nat) i : input A :=
  Input (drop n (remaining i)) (n + calls i).

(** The rounds of a zip: the heads of the streams, then the rounds of
    their tails. *)
Fixpoint rows (m : nat) (ls : list (list A)) : list (list A) :=
  match m with
  | 0 => []
  | S m' => omap head ls :: rows m' (map tail ls)
  end.

Lemma adv_0 i : adv 0 i = i.
Proof. by destruct i. Qed.

Lemma adv_adv n i : adv n (adv 1 i) = adv (S n) i.
Proof.
  unfold adv. simpl. rewrite drop_drop. f_equal. lia.
Qed.

Lemma remaining_adv_1 i : remaining (adv 1 i) = tail (remaining i).
Proof. unfold adv. simpl. by destruct (remaining i). Qed.

Lemma input_anext_cons i x rest :
  remaining i = x :: rest -> input_anext i = (adv 1 i, Return x).
Proof. intros H. unfold input_anext, adv. by rewrite H. Qed.

Lemma input_anext_nil i :
  remaining i = [] -> input_anext i = (adv 1 i, Throw StopAsyncIteration).
Proof. intros H. unfold input_anext, adv. by rewrite H. Qed.

(** A round where every input has an item. *)
Lemma advance_all inputs :
  Forall (fun i => remaining i <> []) inputs ->
  advance inputs = (map (adv 1) inputs, Ok (omap head (map remaining inputs))).
Proof.
  induction 1 as [|i inputs Hi _ IH]; [done|].
  destruct (remaining i) as [|x rest] eqn:Hr; [done|].
  cbn [advance]. rewrite (input_anext_cons i x rest Hr), IH.
  cbn. by rewrite Hr.
Qed.

(** A round where the input [i0] has ended: the inputs at its left have
    been advanced, the inputs at its right are left as they were. *)
Lemma advance_stop pre i0 post :
  Forall (fun i => remaining i <> []) pre ->
  remaining i0 = [] ->
  advance (pre ++ i0 :: post) =
    (map (adv 1) pre ++ adv 1 i0 :: post, Raise StopAsyncIteration).
Proof.
  intros Hpre H0. induction Hpre as [|i pre Hi _ IH].
  - cbn [app advance map]. by rewrite (input_anext_nil i0 H0).
  - destruct (remaining i) as [|x rest] eqn:Hr; [done|].
    cbn [app advance map]. by rewrite (input_anext_cons i x rest Hr), IH.
Qed.

Lemma map_adv_0 inputs : map (adv 0) inputs = inputs.
Proof.
  induction inputs as [|i inputs IH]; [done|]. simpl. by rewrite adv_0, IH.
Qed.

Lemma map_adv_adv n inputs :
  map (adv n) (map (adv 1) inputs) = map (adv (S n)) inputs.
Proof.
  rewrite map_map. apply map_ext. intros i. apply adv_adv.
Qed.

Lemma map_remaining_adv_1 inputs :
  map remaining (map (adv 1) inputs) = map tail (map remaining inputs).
Proof.
  rewrite !map_map. apply map_ext. intros i. apply remaining_adv_1.
Qed.

Lemma run_rows m : forall pre i0 post,
  Forall (fun i => m < length (remaining i)) pre ->
  length (remaining i0) = m ->
  Forall (fun i => m <= length (remaining i)) post ->
  aiter_to_iter __anext__ (S m) (State (pre ++ i0 :: post) false) =
    (rows m (map remaining (pre ++ i0 :: post)), Exhausted,
     State (map (adv (S m)) pre ++ adv (S m) i0 :: map (adv m) post) true).
Proof.
  induction m as [|m IH]; intros pre i0 post Hpre H0 Hpost.
  - cbn [aiter_to_iter]. unfold __anext__. cbn [finished anext_list].
    rewrite advance_stop.
    + by rewrite map_adv_0.
    + eapply Forall_impl; [exact Hpre|]. intros i Hi E. simpl in Hi.
      rewrite E in Hi. simpl in Hi. lia.
    + by apply nil_length_inv.
  - rewrite aiter_to_iter_S. unfold __anext__ at 1. cbn [finished anext_list].
    rewrite advance_all.
    2:{ apply Forall_app. split; [|constructor].
        - eapply Forall_impl; [exact Hpre|]. intros i Hi E. simpl in Hi.
          rewrite E in Hi. simpl in Hi. lia.
        - intros E. by rewrite E in H0.
        - eapply Forall_impl; [exact Hpost|]. intros i Hi E. simpl in Hi.
          rewrite E in Hi. simpl in Hi. lia. }
    assert (Hmap : map (adv 1) (pre ++ i0 :: post) =
                   map (adv 1) pre ++ adv 1 i0 :: map (adv 1) post).
    { by rewrite map_app. }
    rewrite Hmap.
    rewrite (IH (map (adv 1) pre) (adv 1 i0) (map (adv 1) post)).
    + rewrite <- Hmap, map_remaining_adv_1, !map_adv_adv, adv_adv. done.
    + apply Forall_map. eapply Forall_impl; [exact Hpre|]. intros i Hi.
      simpl in *. rewrite length_drop. lia.
    + simpl. rewrite length_drop. lia.
    + apply Forall_map. eapply Forall_impl; [exact Hpost|]. intros i Hi.
      simpl in *. rewrite length_drop. lia.
Qed.

Lemma rows_length m : forall ls, length (rows m ls) = m.
Proof. induction m as [|m IH]; intros ls; simpl; [done|]. by rewrite IH. Qed.

Lemma omap_head (ls : list (list A)) :
  omap head ls = omap (fun l => l !! 0) ls.
Proof.
  induction ls as [|l ls IH]; [done|].
  change (omap head (l :: ls)) with
    (match head l with Some x => x :: omap head ls | None => omap head ls end).
  change (omap (fun l => l !! 0) (l :: ls)) with
    (match l !! 0 with
     | Some x => x :: omap (fun l => l !! 0) ls
     | None => omap (fun l => l !! 0) ls
     end).
  by rewrite IH, head_lookup.
Qed.

Lemma omap_tail_lookup (ls : list (list A)) k :
  omap (fun l => l !! k) (map tail ls) = omap (fun l => l !! S k) ls.
Proof.
  induction ls as [|l ls IH]; [done|].
  change (omap (fun l => l !! k) (map tail (l :: ls))) with
    (match tail l !! k with
     | Some x => x :: omap (fun l => l !! k) (map tail ls)
     | None => omap (fun l => l !! k) (map tail ls)
     end).
  change (omap (fun l => l !! S k) (l :: ls)) with
    (match l !! S k with
     | Some x => x :: omap (fun l => l !! S k) ls
     | None => omap (fun l => l !! S k) ls
     end).
  by rewrite IH, lookup_tail.
Qed.

Lemma rows_lookup m : forall (ls : list (list A)) k,
  k < m -> rows m ls !! k = Some (omap (fun l => l !! k) ls).
Proof.
  induction m as [|m IH]; intros ls k Hk; [lia|].
  destruct k as [|k]; cbn [rows].
  - change ((?x :: ?l) !! 0) with (Some x). by rewrite omap_head.
  - change ((?x :: ?l) !! S k) with (l !! k).
    rewrite IH by lia. by rewrite omap_tail_lookup.
Qed.

Lemma omap_lookup_all (ls : list (list A)) k :
  Forall (fun l => k < length l) ls ->
  Forall2 (fun l x => l !! k = Some x) ls (omap (fun l => l !! k) ls).
Proof.
  induction 1 as [|l ls Hl _ IH]; [constructor|].
  destruct (lookup_lt_is_Some_2 l k Hl) as [x Hx].
  change (omap (fun l => l !! k) (l :: ls)) with
    (match l !! k with
     | Some x => x :: omap (fun l => l !! k) ls
     | None => omap (fun l => l !! k) ls
     end).
  rewrite Hx. by constructor.
Qed.

Lemma map_remaining_fresh (ls : list (list A)) :
  map remaining (map (fun items => Input items 0) ls) = ls.
Proof. rewrite map_map. cbn. apply map_id. Qed.

Lemma map_adv_fresh n (ls : list (list A)) :
  map (adv n) (map (fun items => Input items 0) ls) =
  map (fun l => Input (drop n l) n) ls.
Proof.
  rewrite map_map. apply map_ext. intros l. unfold adv. cbn.
  by rewrite Nat.add_0_r.
Qed.

(** The run of [azip] on streams of which [l0] is the first shortest. *)
Lemma run_azip ahead (l0 : list A) behind :
  Forall (fun l => length l0 < length l) ahead ->
  Forall (fun l => length l0 <= length l) behind ->
  aiter_to_iter __anext__ (S (length l0)) (azip (ahead ++ l0 :: behind)) =
    (rows (length l0) (ahead ++ l0 :: behind), Exhausted,
     State (map (fun l => Input (drop (S (length l0)) l) (S (length l0)))
                (ahead ++ [l0])
            ++ map (fun l => Input (drop (length l0) l) (length l0)) behind)
           true).
Proof.
  intros Ha Hb. unfold azip.
  assert (Hsplit : map (fun items => Input items 0) (ahead ++ l0 :: behind) =
            map (fun items => Input items 0) ahead ++ Input l0 0 ::
            map (fun items => Input items 0) behind) by (by rewrite map_app).
  rewrite Hsplit, (run_rows (length l0)).
  - rewrite <- Hsplit, map_remaining_fresh, !map_adv_fresh.
    rewrite map_app, <- app_assoc. cbn [map app]. unfold adv. cbn.
    by rewrite Nat.add_0_r.
  - apply Forall_map. eapply Forall_impl; [exact Ha|]. done.
  - done.
  - apply Forall_map. eapply Forall_impl; [exact Hb|]. done.
Qed.

(** Every non-empty family of streams has a first shortest one. *)
Lemma first_shortest (ls : list (list A)) :
  ls <> [] ->
  exists ahead l0 behind,
    ls = ahead ++ l0 :: behind /\
    Forall (fun l => length l0 < length l) ahead /\
    Forall (fun l => length l0 <= length l) behind.
Proof.
  induction ls as [|l ls IH]; [done|]. intros _.
  destruct ls as [|l' ls'].
  - exists [], l, []. by repeat constructor.
  - destruct IH as (ahead & l0 & behind & Heq & Hpre & Hpost); [done|].
    destruct (decide (length l <= length l0)) as [Hle|Hgt].
    + exists [], l, (l' :: ls'). split; [done|]. split; [constructor|].
      rewrite Heq. apply Forall_app. split.
      * eapply Forall_impl; [exact Hpre|]. simpl. lia.
      * constructor; [done|]. eapply Forall_impl; [exact Hpost|]. simpl. lia.
    + exists (l :: ahead), l0, behind. rewrite Heq. split; [done|].
      split; [|done]. constructor; [lia|done].
Qed.

(** A generator that has finished stays as it is: no input is advanced. *)
Lemma azip_anext_finished (st : state A) :
  finished st = true -> __anext__ st = (st, Throw StopAsyncIteration).
Proof. intros H. unfold __anext__. by rewrite H. Qed.

(** Without inputs every round gives the empty tuple and the generator
    never ends. *)
Lemma run_no_inputs fuel :
  aiter_to_iter __anext__ fuel (azip ([] : list (list A))) =
    (replicate fuel [], Unfinished, azip []).
Proof.
  induction fuel as [|fuel IH]; [done|]. rewrite aiter_to_iter_S.
  change (__anext__ (azip [])) with
    (azip ([] : list (list A)), Return ([] : list A) : resumed _ Empty_set).
  cbv beta iota. by rewrite IH.
Qed.

End WithItem.
End AzipFacts.

Module ForkerFacts.
Import QAiter QAiterFacts Forker.
Section WithItem.
Context {A : Type}.
Implicit Types (s : forker A) (f g : fork A) (F : list A) (q : q_aiter A).

(** *** One fork *)

Definition unbounded f : Prop := (Queue.maxsize (_q (aiter f)) <= 0)%Z.

(** What holds of every fork: [F] is the list of the items fetched so far
    and [reg] tells whether the fork is registered.  A registered fork with
    an unbounded buffer has observed the items that it was created with and
    every item fetched since its creation, in order. *)
Record fork_ok F (reg : Prop) f : Prop := ForkOk {
  fo_reg_at : registered_at f <= length F;
  fo_observed :
    reg -> unbounded f ->
    observed f = preloaded f ++ drop (registered_at f) F;
  fo_callback : _full_callback (aiter f) = None;
  fo_calls : full_calls (aiter f) = [];
  fo_dropped : unbounded f -> dropped (aiter f) = [];
  fo_failed : forall e, pc f <> FFailed e;
  fo_stopped : _stopped (aiter f) = true -> pc f = FEnded;
  fo_ended :
    pc f = FEnded ->
    _stopping (aiter f) = true /\ Queue.items (_q (aiter f)) = []
}.

(** A step of the consumer keeps what the fork has observed. *)
Lemma deliver_anext_ok F reg f :
  fork_ok F reg f -> held (pc f) = [] -> pc f <> FEnded ->
  let f' := deliver f (__anext__ (aiter f)) in
  fork_ok F reg f' /\
  _stopping (aiter f') = _stopping (aiter f) /\
  pc f' <> FAtUpstream.
Proof.
  intros [Hra Hobs Hcb Hcalls Hdr Hfail Hsd Hend] Hheld Hne.
  destruct f as [q act p sn pre ra]. unfold observed, unbounded in *.
  cbn [aiter pc seen preloaded registered_at is_active] in *.
  rewrite Hheld in Hobs. cbn [app] in Hobs.
  destruct (anext_cases q) as [Hs|Hs Hd|x rest Hs Hd Hq|Hs Hd Hq]; cbn.
  - split; [|done]. split; cbn; try done. intros Hd. by apply Hsd in Hd.
  - by apply Hsd in Hd.
  - split; [|done]. split; cbn; try done.
    + intros Hr Hu. rewrite <- Hobs, Hq by done. by rewrite <- app_assoc.
    + by rewrite Hd.
  - split; [|done]. split; cbn; try done.
Qed.

Lemma deliver_resume_ok F reg f fr :
  fork_ok F reg f -> pc f = FAtWait fr ->
  (fr = AtWait None -> _stopping (aiter f) = true) ->
  let f' := deliver f (anext_resume (aiter f) fr) in
  fork_ok F reg f' /\
  _stopping (aiter f') = _stopping (aiter f) /\
  pc f' <> FAtUpstream.
Proof.
  intros Hok Hpc Hen. destruct fr as [[x|]].
  - destruct Hok as [Hra Hobs Hcb Hcalls Hdr Hfail Hsd Hend].
    destruct f as [q act p sn pre ra]. unfold observed, unbounded in *.
    cbn [aiter pc seen preloaded registered_at is_active] in *. subst p.
    cbn. split; [|done]. split; cbn; try done.
    + intros Hr Hu. rewrite <- Hobs by done. cbn. by rewrite <- app_assoc.
    + intros Hd. by apply Hsd in Hd.
  - rewrite anext_resume_stopping by auto.
    apply deliver_anext_ok; [done| |]; by rewrite Hpc.
Qed.

Lemma getter_ok F reg f x rest :
  fork_ok F reg f -> pc f = FAtWait (AtWait None) ->
  Queue.items (_q (aiter f)) = x :: rest ->
  fork_ok F reg
    (set_pc (set_aiter f (set_q (aiter f)
                            (Queue.Q (Queue.maxsize (_q (aiter f))) rest)))
            (FAtWait (AtWait (Some x)))).
Proof.
  intros [Hra Hobs Hcb Hcalls Hdr Hfail Hsd Hend] Hpc Hq.
  destruct f as [q act p sn pre ra]. unfold observed, unbounded in *.
  cbn [aiter pc seen preloaded registered_at is_active] in *. subst p.
  split; cbn; try done.
  - intros Hr Hu. rewrite <- Hobs by done. by rewrite Hq.
  - intros Hd. by apply Hsd in Hd.
Qed.

Lemma set_pc_ok F reg f p :
  fork_ok F reg f -> held (pc f) = [] -> pc f <> FEnded ->
  p = FAtLock \/ p = FAtUpstream ->
  fork_ok F reg (set_pc f p).
Proof.
  intros [Hra Hobs Hcb Hcalls Hdr Hfail Hsd Hend] Hheld Hne Hp.
  destruct f as [q act p0 sn pre ra]. unfold observed, unbounded in *.
  cbn [aiter pc seen preloaded registered_at is_active] in *.
  rewrite Hheld in Hobs.
  split; cbn; try done.
  - by destruct Hp as [-> | ->].
  - by destruct Hp as [-> | ->].
  - intros Hd. by apply Hsd in Hd.
  - by destruct Hp as [-> | ->].
Qed.

(** The fan-out gives a registered fork the item fetched. *)
Lemma accept_ok F f x :
  fork_ok F True f -> _stopping (aiter f) = false ->
  fork_ok (F ++ [x]) True (set_aiter f (accept (aiter f) x)).
Proof.
  intros [Hra Hobs Hcb Hcalls Hdr Hfail Hsd Hend] Hs.
  destruct (accept_static (aiter f) x) as (Hs' & Hd' & Hcb' & Hm').
  destruct f as [q act p sn pre ra]. unfold observed, unbounded in *.
  cbn [aiter pc seen preloaded registered_at is_active set_aiter] in *.
  split; unfold observed, unbounded;
    cbn [aiter pc seen preloaded registered_at is_active set_aiter];
    try done.
  - rewrite length_app. simpl. lia.
  - intros _ Hu. rewrite Hm' in Hu. rewrite accept_unbounded by done.
    cbn. rewrite drop_app_le by done. rewrite !app_assoc.
    f_equal. rewrite <- !app_assoc. by apply Hobs.
  - by rewrite Hcb'.
  - unfold accept. destruct (full q); [|done]. by rewrite Hcb.
  - intros Hu. rewrite Hm' in Hu. rewrite accept_unbounded by done.
    by apply Hdr.
  - by rewrite Hd'.
  - intros Hp. apply Hend in Hp as [Hp _]. congruence.
Qed.

(** Forks that are not served only see the list of fetched items grow. *)
Lemma unregistered_ok F f x :
  fork_ok F False f -> fork_ok (F ++ [x]) False f.
Proof.
  intros [Hra Hobs Hcb Hcalls Hdr Hfail Hsd Hend].
  split; try done. rewrite length_app. lia.
Qed.

Lemma fork_ok_weaken F (reg reg' : Prop) f :
  (reg' -> reg) -> fork_ok F reg f -> fork_ok F reg' f.
Proof.
  intros Himp [Hra Hobs Hcb Hcalls Hdr Hfail Hsd Hend].
  split; try done. intros Hr. by apply Hobs, Himp.
Qed.

Lemma stop_ok F reg f :
  fork_ok F reg f -> fork_ok F reg (set_aiter f (stop (aiter f))).
Proof.
  intros [Hra Hobs Hcb Hcalls Hdr Hfail Hsd Hend].
  destruct f as [q act p sn pre ra]. unfold observed, unbounded, stop in *.
  cbn [aiter pc seen preloaded registered_at is_active set_aiter] in *.
  destruct (_stopping q) eqn:Hs.
  - split; unfold observed, unbounded; cbn; try done. by rewrite Hs.
  - split; unfold observed, unbounded; cbn; try done.
    intros Hp. by apply Hend in Hp as [Hp _].
Qed.

(** *** The fan-out and the stops *)

Lemma push_outputs_spec (x : A) outputs : forall (fs : list (fork A)),
  NoDup outputs ->
  (forall i f, fs !! i = Some f -> _stopping (aiter f) = false) ->
  exists fs',
    push_outputs fs outputs x = (fs', None) /\
    length fs' = length fs /\
    forall i f, fs !! i = Some f ->
      fs' !! i = Some (if decide (i ∈ outputs)
                       then set_aiter f (accept (aiter f) x) else f).
Proof.
  induction outputs as [|o outputs IH]; intros fs Hnd Hns.
  - exists fs. split; [done|]. split; [done|]. intros i f Hf.
    rewrite decide_False; [done|]. apply not_elem_of_nil.
  - apply NoDup_cons in Hnd as [Ho Hnd]. cbn [push_outputs].
    destruct (fs !! o) as [fo|] eqn:Hfo.
    + rewrite push_nowait_one by eauto.
      set (fs1 := <[o := set_aiter fo (accept (aiter fo) x)]> fs).
      destruct (IH fs1 Hnd) as (fs' & Hrun & Hlen & Hlook).
      { intros i f. unfold fs1. destruct (decide (i = o)) as [->|Hne].
        - rewrite list_lookup_insert_eq by (by eapply lookup_lt_Some).
          intros [= <-]. cbn.
          destruct (accept_static (aiter fo) x) as (-> & _). eauto.
        - rewrite list_lookup_insert_ne by done. eauto. }
      exists fs'. split; [done|]. split.
      { rewrite Hlen. unfold fs1. by rewrite length_insert. }
      intros i f Hf. destruct (decide (i = o)) as [->|Hne].
      * assert (f = fo) by congruence. subst f.
        rewrite (Hlook o (set_aiter fo (accept (aiter fo) x))).
        -- rewrite decide_False by done. rewrite decide_True; [done|by left].
        -- unfold fs1. by rewrite list_lookup_insert_eq by (by eapply lookup_lt_Some).
      * rewrite (Hlook i f).
        -- destruct (decide (i ∈ outputs)) as [Hin|Hin].
           ++ rewrite decide_True; [done|by right].
           ++ rewrite decide_False; [done|].
              intros [?|?]%elem_of_cons; done.
        -- unfold fs1. by rewrite list_lookup_insert_ne.
    + destruct (IH fs Hnd Hns) as (fs' & Hrun & Hlen & Hlook).
      exists fs'. split; [done|]. split; [done|].
      intros i f Hf. rewrite (Hlook i f Hf).
      assert (i <> o) by congruence.
      destruct (decide (i ∈ outputs)) as [Hin|Hin].
      * rewrite decide_True; [done|by right].
      * rewrite decide_False; [done|]. intros [?|?]%elem_of_cons; done.
Qed.

Lemma stop_outputs_spec outputs : forall (fs : list (fork A)),
  NoDup outputs ->
  length (stop_outputs fs outputs) = length fs /\
  forall i f, fs !! i = Some f ->
    stop_outputs fs outputs !! i =
      Some (if decide (i ∈ outputs)
            then set_aiter f (stop (aiter f)) else f).
Proof.
  induction outputs as [|o outputs IH]; intros fs Hnd.
  - split; [done|]. intros i f Hf.
    rewrite decide_False; [done|]. apply not_elem_of_nil.
  - apply NoDup_cons in Hnd as [Ho Hnd]. cbn [stop_outputs].
    destruct (fs !! o) as [fo|] eqn:Hfo.
    + set (fs1 := <[o := set_aiter fo (stop (aiter fo))]> fs).
      destruct (IH fs1 Hnd) as (Hlen & Hlook). split.
      { rewrite Hlen. unfold fs1. by rewrite length_insert. }
      intros i f Hf. destruct (decide (i = o)) as [->|Hne].
      * assert (f = fo) by congruence. subst f.
        rewrite (Hlook o (set_aiter fo (stop (aiter fo)))).
        -- rewrite decide_False by done. rewrite decide_True; [done|by left].
        -- unfold fs1. by rewrite list_lookup_insert_eq by (by eapply lookup_lt_Some).
      * rewrite (Hlook i f).
        -- destruct (decide (i ∈ outputs)) as [Hin|Hin].
           ++ rewrite decide_True; [done|by right].
           ++ rewrite decide_False; [done|].
              intros [?|?]%elem_of_cons; done.
        -- unfold fs1. by rewrite list_lookup_insert_ne.
    + destruct (IH fs Hnd) as (Hlen & Hlook). split; [done|].
      intros i f Hf. rewrite (Hlook i f Hf).
      assert (i <> o) by congruence.
      destruct (decide (i ∈ outputs)) as [Hin|Hin].
      * rewrite decide_True; [done|by right].
      * rewrite decide_False; [done|]. intros [?|?]%elem_of_cons; done.
Qed.

(** *** The system *)

(** The invariant of the forker over the upstream [upstream].  In the
    middle of a step of fork [i] the fork may still be marked as waiting
    for an upstream call that has returned: [skip = Some i] leaves it out
    of the last clause. *)
Record inv (upstream : list A) (skip : option nat) s : Prop := Inv {
  inv_sem : in_flight s + _is_fetching s = 1;
  inv_issued : issued s = length (fetched s) + terminal s + in_flight s;
  inv_up : fetched s ++ _open_aiter s = upstream;
  inv_open :
    terminal s = 0 ->
    forall i f, forks s !! i = Some f -> _stopping (aiter f) = false;
  inv_closed : 0 < terminal s -> _open_aiter s = [];
  inv_nodup : NoDup (_outputs s);
  inv_range : forall i, i ∈ _outputs s -> i < length (forks s);
  inv_forks :
    forall i f, forks s !! i = Some f ->
      fork_ok (fetched s) (i ∈ _outputs s) f;
  inv_fetch :
    forall i f, forks s !! i = Some f -> pc f = FAtUpstream ->
      Some i <> skip ->
      in_flight s = 1 /\
      forall j g, forks s !! j = Some g -> pc g = FAtUpstream ->
        Some j <> skip -> j = i
}.

Lemma inv_init upstream : inv upstream None (aiter_forker upstream).
Proof.
  split; cbn; try done.
  - lia.
  - apply NoDup_nil_2.
  - intros i Hi. by apply not_elem_of_nil in Hi.
Qed.

Lemma inv_set_fork upstream skip s i f f' :
  inv upstream skip s ->
  skip = None \/ skip = Some i ->
  forks s !! i = Some f ->
  fork_ok (fetched s) (i ∈ _outputs s) f' ->
  _stopping (aiter f') = _stopping (aiter f) ->
  pc f' <> FAtUpstream ->
  inv upstream None (set_fork s i f').
Proof.
  intros [Hsem Hiss Hup Hopen Hclosed Hnd Hrange Hforks Hfetch]
    Hskip Hf Hok Hst Hpc.
  assert (Hlt : i < length (forks s)) by (by eapply lookup_lt_Some).
  destruct s as [op outs sem fs fe iss inf term].
  unfold set_fork, set_forks. cbn in *.
  assert (Hlook : forall j g, <[i := f']> fs !! j = Some g ->
            (j = i /\ g = f') \/ (j <> i /\ fs !! j = Some g)).
  { intros j g. destruct (decide (j = i)) as [->|Hne].
    - rewrite list_lookup_insert_eq by done. intros [= <-]. by left.
    - rewrite list_lookup_insert_ne by done. by right. }
  split; cbn; try done.
  - intros Ht j g [[-> ->]|[Hne Hg]]%Hlook.
    + rewrite Hst. eauto.
    + eauto.
  - intros j Hj. rewrite length_insert. auto.
  - intros j g [[-> ->]|[Hne Hg]]%Hlook; auto.
  - intros j g [[-> ->]|[Hne Hg]]%Hlook Hg' _; [done|].
    assert (Hsk : Some j <> skip) by (destruct Hskip as [->| ->]; congruence).
    destruct (Hfetch j g Hg Hg' Hsk) as [Hin Huniq]. split; [done|].
    intros k h [[-> ->]|[Hnk Hh]]%Hlook Hh' _; [done|].
    apply (Huniq k h Hh Hh'). destruct Hskip as [->| ->]; congruence.
Qed.

(** Fork [i] takes the semaphore and calls the upstream. *)
Lemma inv_issue upstream skip s i f sem :
  inv upstream skip s ->
  skip = None \/ skip = Some i ->
  forks s !! i = Some f ->
  held (pc f) = [] -> pc f <> FEnded ->
  Semaphore.try_acquire (_is_fetching s) = Some sem ->
  inv upstream None
    (Forker (_open_aiter s) (_outputs s) sem
            (<[i := set_pc f FAtUpstream]> (forks s)) (fetched s)
            (S (issued s)) (S (in_flight s)) (terminal s)).
Proof.
  intros [Hsem Hiss Hup Hopen Hclosed Hnd Hrange Hforks Hfetch]
    Hskip Hf Hheld Hne Hacq.
  assert (Hlt : i < length (forks s)) by (by eapply lookup_lt_Some).
  assert (Hok := set_pc_ok _ _ f FAtUpstream (Hforks i f Hf) Hheld Hne
                   (or_intror eq_refl)).
  destruct s as [op outs sm fs fe iss inf term]. cbn in *.
  unfold Semaphore.try_acquire, Semaphore.locked in Hacq.
  destruct sm as [|sm]; [done|]. cbn in Hacq. simplify_eq.
  assert (inf = 0 /\ sm = 0) as [-> ->] by lia. cbn.
  assert (Hlook : forall j g,
            <[i := set_pc f FAtUpstream]> fs !! j = Some g ->
            (j = i /\ g = set_pc f FAtUpstream) \/ (j <> i /\ fs !! j = Some g)).
  { intros j g. destruct (decide (j = i)) as [->|Hnj].
    - rewrite list_lookup_insert_eq by done. intros [= <-]. by left.
    - rewrite list_lookup_insert_ne by done. by right. }
  assert (Hnone : forall j g, j <> i -> fs !! j = Some g ->
            pc g <> FAtUpstream).
  { intros j g Hnj Hg Hg'.
    assert (Hsk : Some j <> skip) by (destruct Hskip as [->| ->]; congruence).
    destruct (Hfetch j g Hg Hg' Hsk) as [Hin _]. lia. }
  split; cbn; try done.
  - intros Ht j g [[-> ->]|[Hnj Hg]]%Hlook; cbn; eauto.
  - intros j Hj. rewrite length_insert. auto.
  - intros j g [[-> ->]|[Hnj Hg]]%Hlook; auto.
  - intros j g [[-> ->]|[Hnj Hg]]%Hlook Hg' _.
    + split; [done|].
      intros k h [[-> ->]|[Hnk Hh]]%Hlook Hh' _; [done|].
      by destruct (Hnone k h Hnk Hh).
    + by destruct (Hnone j g Hnj Hg).
Qed.

(** The loop of an active fork keeps the invariant. *)
Lemma active_anext_inv upstream skip s i f :
  inv upstream skip s ->
  skip = None \/ skip = Some i ->
  forks s !! i = Some f ->
  held (pc f) = [] -> pc f <> FEnded ->
  inv upstream None (active_forked_anext s i f).
Proof.
  intros Hinv Hskip Hf Hheld Hne. unfold active_forked_anext, _fetch_next.
  assert (Hok := inv_forks _ _ _ Hinv i f Hf).
  assert (Hpark : inv upstream None (set_fork s i (set_pc f FAtLock))).
  { eapply inv_set_fork; try done.
    apply set_pc_ok; auto. }
  destruct (Queue.empty (_q (aiter f)) && negb (_stopping (aiter f))).
  - destruct (Semaphore.locked (_is_fetching s)); [done|].
    destruct (Semaphore.try_acquire (_is_fetching s)) as [sem|] eqn:Hacq;
      [|done].
    by eapply inv_issue.
  - destruct (deliver_anext_ok _ _ f Hok Hheld Hne) as (Hok' & Hst & Hpc).
    by eapply inv_set_fork.
Qed.

(** The upstream has returned to fork [i]: the table [fs'] is the table
    after the fan-out or after the stops. *)
Lemma inv_returned upstream s i f op' fs' F' term' :
  inv upstream None s ->
  forks s !! i = Some f -> pc f = FAtUpstream ->
  length fs' = length (forks s) ->
  (forall j f0, forks s !! j = Some f0 ->
     exists g, fs' !! j = Some g /\ pc g = pc f0 /\
       fork_ok F' (j ∈ _outputs s) g /\
       (term' = 0 -> _stopping (aiter g) = false)) ->
  length F' + term' = S (length (fetched s) + terminal s) ->
  F' ++ op' = upstream ->
  (0 < term' -> op' = []) ->
  inv upstream None
    (continue
       (Forker op' (_outputs s) (Semaphore.release (_is_fetching s)) fs' F'
               (issued s) (in_flight s - 1) term') i).
Proof.
  intros Hinv Hf Hpc Hlen Hfs HF Hup Hcl.
  destruct (Hfs i f Hf) as (g & Hg & Hgpc & _).
  unfold continue. cbn [forks]. rewrite Hg.
  apply active_anext_inv with (skip := Some i); [|by right|done| |];
    [|by rewrite Hgpc, Hpc|by rewrite Hgpc, Hpc].
  destruct Hinv as [Hsem Hiss Hupo Hopen Hclosed Hnd Hrange Hforks Hfetch].
  destruct (Hfetch i f Hf Hpc) as [Hin Huniq]; [done|].
  assert (Hback : forall j g', fs' !! j = Some g' ->
            exists f0, forks s !! j = Some f0 /\ pc g' = pc f0 /\
              fork_ok F' (j ∈ _outputs s) g' /\
              (term' = 0 -> _stopping (aiter g') = false)).
  { intros j g' Hg'.
    destruct (lookup_lt_is_Some_2 (forks s) j) as [f0 Hf0].
    { rewrite <- Hlen. by eapply lookup_lt_Some. }
    destruct (Hfs j f0 Hf0) as (g0 & Hg0 & ? & ? & ?).
    exists f0. by simplify_eq. }
  unfold Semaphore.release.
  split; cbn [forks _outputs _is_fetching _open_aiter fetched issued
              in_flight terminal]; try done.
  - lia.
  - lia.
  - intros Ht j g' (f0 & _ & _ & _ & Hs)%Hback. auto.
  - intros j Hj. rewrite Hlen. auto.
  - intros j g' (f0 & _ & _ & Hok & _)%Hback. done.
  - intros j g' (f0 & Hf0 & Hp & _)%Hback Hg' Hsk.
    rewrite Hp in Hg'. destruct Hsk. f_equal. by apply (Huniq j f0).
Qed.

Lemma fetch_returns_inv upstream s i f :
  inv upstream None s ->
  forks s !! i = Some f -> pc f = FAtUpstream ->
  inv upstream None (_fetch_next_returns s i).
Proof.
  intros Hinv Hf Hpc. unfold _fetch_next_returns.
  destruct (_open_aiter s) as [|x rest] eqn:Hop.
  - destruct (stop_outputs_spec (_outputs s) (forks s)) as [Hlen Hlook];
      [by destruct Hinv|].
    eapply inv_returned; try done.
    + intros j f0 Hf0. eexists. split; [by apply Hlook|].
      assert (Hok := inv_forks _ _ _ Hinv j f0 Hf0).
      destruct (decide (j ∈ _outputs s)); (split; [done|split; [|lia]]);
        [by apply stop_ok|done].
    + rewrite <- (inv_up _ _ _ Hinv), Hop. done.
  - assert (Ht : terminal s = 0).
    { destruct (terminal s) eqn:E; [done|].
      assert (0 < terminal s) as Hc%(inv_closed _ _ _ Hinv) by lia.
      congruence. }
    destruct (push_outputs_spec x (_outputs s) (forks s))
      as (fs' & Hrun & Hlen & Hlook);
      [by destruct Hinv|by apply (inv_open _ _ _ Hinv)|].
    rewrite Hrun.
    eapply inv_returned; try done.
    + intros j f0 Hf0. eexists. split; [by apply Hlook|].
      assert (Hok := inv_forks _ _ _ Hinv j f0 Hf0).
      assert (Hs := inv_open _ _ _ Hinv Ht j f0 Hf0).
      destruct (decide (j ∈ _outputs s)) as [Hin|Hin].
      * split; [done|]. split.
        -- apply (fork_ok_weaken _ True); [done|].
           apply accept_ok; [|done]. by apply (fork_ok_weaken _ (j ∈ _outputs s)).
        -- intros _. cbn. by destruct (accept_static (aiter f0) x) as (-> & _).
      * split; [done|]. split; [|done].
        apply (fork_ok_weaken _ False); [done|].
        apply unregistered_ok. by apply (fork_ok_weaken _ (j ∈ _outputs s)).
    + rewrite length_app. simpl. lia.
    + rewrite <- (inv_up _ _ _ Hinv), Hop. by rewrite <- app_assoc.
    + lia.
Qed.

Lemma new_fork_inv upstream s qo m act :
  inv upstream None s -> inv upstream None (new_fork s qo m act).
Proof.
  intros [Hsem Hiss Hup Hopen Hclosed Hnd Hrange Hforks Hfetch].
  destruct s as [op outs sem fs fe iss inf term]. unfold new_fork. cbn in *.
  set (fnew := Fork (q_aiter_init qo m None) act FIdle []
                 (Queue.items (_q (q_aiter_init qo m None))) (length fe)).
  assert (Hlook : forall j g, (fs ++ [fnew]) !! j = Some g ->
            (j < length fs /\ fs !! j = Some g) \/
            (j = length fs /\ g = fnew)).
  { intros j g Hg. destruct (decide (j < length fs)) as [Hlt|Hge].
    - rewrite lookup_app_l in Hg by done. by left.
    - rewrite lookup_app_r in Hg by lia.
      destruct (j - length fs) as [|k] eqn:E; cbn in Hg; [|done].
      right. split; [lia|]. by simplify_eq. }
  assert (Hnew : length fs ∉ outs).
  { intros Hin%Hrange. lia. }
  split; cbn; try done.
  - intros Ht j g [[Hlt Hg]|[-> ->]]%Hlook; [eauto|done].
  - apply NoDup_app. split; [done|]. split; [|apply NoDup_singleton].
    intros j Hj ->%list_elem_of_singleton. done.
  - intros j [Hj| ->%list_elem_of_singleton]%elem_of_app;
      rewrite length_app; simpl; [|lia].
    apply Hrange in Hj. lia.
  - intros j g [[Hlt Hg]|[-> ->]]%Hlook.
    + apply (fork_ok_weaken _ (j ∈ outs)); [|auto].
      intros [Hj| ->%list_elem_of_singleton]%elem_of_app; [done|lia].
    + split; unfold observed, unbounded; cbn; try done.
      intros _ _. by rewrite drop_all, app_nil_r.
  - intros j g [[Hlt Hg]|[-> ->]]%Hlook Hg' _; [|done].
    destruct (Hfetch j g Hg Hg') as [Hin Huniq]; [done|]. split; [done|].
    intros k h [[Hk Hh]|[-> ->]]%Hlook Hh' _; [|done]. by apply (Huniq k h).
Qed.

Lemma remove_fork_inv upstream s i :
  inv upstream None s -> inv upstream None (remove_fork s i).
Proof.
  intros [Hsem Hiss Hup Hopen Hclosed Hnd Hrange Hforks Hfetch].
  destruct s as [op outs sem fs fe iss inf term]. unfold remove_fork. cbn in *.
  split; cbn; try done.
  - by apply NoDup_filter.
  - intros j [_ Hj]%list_elem_of_filter. auto.
  - intros j g Hg. apply (fork_ok_weaken _ (j ∈ outs)); [|auto].
    by intros [_ Hj]%list_elem_of_filter.
Qed.

Lemma forker_step_inv upstream l s s' :
  inv upstream None s -> step l s = Some s' -> inv upstream None s'.
Proof.
  intros Hinv Hstep. destruct l as [qo m act|i|i|i|i]; cbn [step] in Hstep.
  - simplify_eq. by apply new_fork_inv.
  - simplify_eq. by apply remove_fork_inv.
  - destruct (forks s !! i) as [f|] eqn:Hf; [|done].
    destruct (pc f) eqn:Hpc; try done.
    destruct (is_active f); simplify_eq.
    + apply active_anext_inv with (skip := None); auto; by rewrite Hpc.
    + assert (Hok := inv_forks _ _ _ Hinv i f Hf).
      destruct (deliver_anext_ok _ _ f Hok) as (Hok' & Hst & Hpc');
        [by rewrite Hpc|by rewrite Hpc|].
      by apply inv_set_fork with (skip := None) (f := f); auto.
  - destruct (forks s !! i) as [f|] eqn:Hf; [|done].
    assert (Hok := inv_forks _ _ _ Hinv i f Hf).
    destruct (pc f) as [| | |[[x|]]| |] eqn:Hpc; try done.
    + destruct (Semaphore.try_acquire (_is_fetching s)) as [sem|] eqn:Hacq;
        [|done].
      simplify_eq.
      assert (Hsame : Semaphore.release sem = _is_fetching s).
      { unfold Semaphore.try_acquire, Semaphore.locked, Semaphore.release in *.
        destruct (_is_fetching s); [done|]. cbn in Hacq. simplify_eq. lia. }
      rewrite Hsame.
      replace (Forker _ _ _ _ _ _ _ _) with s by (by destruct s).
      unfold continue. rewrite Hf.
      apply active_anext_inv with (skip := None); auto; by rewrite Hpc.
    + simplify_eq. by eapply fetch_returns_inv.
    + simplify_eq.
      destruct (deliver_resume_ok _ _ f (AtWait (Some x)) Hok Hpc)
        as (Hok' & Hst & Hpc'); [done|].
      by apply inv_set_fork with (skip := None) (f := f); auto.
    + destruct (_stopping (aiter f)) eqn:Hs; [|done]. simplify_eq.
      destruct (deliver_resume_ok _ _ f (AtWait None) Hok Hpc)
        as (Hok' & Hst & Hpc'); [done|].
      by apply inv_set_fork with (skip := None) (f := f); auto.
  - destruct (forks s !! i) as [f|] eqn:Hf; [|done].
    assert (Hok := inv_forks _ _ _ Hinv i f Hf).
    destruct (pc f) as [| | |[[x|]]| |] eqn:Hpc; try done.
    unfold Queue.empty, q_get_run, Queue.get_nowait in Hstep.
    destruct (Queue.items (_q (aiter f))) as [|x rest] eqn:Hq; [done|].
    simplify_eq.
    apply inv_set_fork with (skip := None) (f := f); auto.
    by apply getter_ok.
Qed.

Lemma run_inv upstream ls : forall s,
  inv upstream None s -> inv upstream None (run ls s).
Proof.
  induction ls as [|l ls IH]; intros s Hinv; [done|]. cbn [run].
  destruct (step l s) as [s'|] eqn:Hstep; [|by apply IH].
  apply IH. by eapply forker_step_inv.
Qed.

(** *** Draining: every fork is registered and none is created or removed *)

Record drain_inv s : Prop := DrainInv {
  di_all : _outputs s = seq 0 (length (forks s));
  di_term : terminal s <= 1;
  di_done :
    0 < terminal s ->
    in_flight s = 0 /\
    forall i f, forks s !! i = Some f -> _stopping (aiter f) = true
}.

Lemma deliver_stopping f (r : q_aiter A * resumed A (anext_frame A)) :
  _stopping (aiter (deliver f r)) = _stopping r.1.
Proof.
  destruct r as [q1 [x|e|fr]]; cbn; [done| |done]. by destruct e.
Qed.

Lemma drain_set_fork s i f f' :
  drain_inv s -> forks s !! i = Some f ->
  _stopping (aiter f') = _stopping (aiter f) ->
  drain_inv (set_fork s i f').
Proof.
  intros [Hall Hterm Hdone] Hf Hst.
  assert (Hlt : i < length (forks s)) by (by eapply lookup_lt_Some).
  destruct s as [op outs sem fs fe iss inf term]. unfold set_fork, set_forks.
  cbn in *. split; cbn; try done.
  - by rewrite length_insert.
  - intros Ht. destruct (Hdone Ht) as [Hin Hs]. split; [done|].
    intros j g. destruct (decide (j = i)) as [->|Hne].
    + rewrite list_lookup_insert_eq by done. intros [= <-].
      rewrite Hst. eauto.
    + rewrite list_lookup_insert_ne by done. eauto.
Qed.

Lemma active_anext_drain s i f :
  drain_inv s -> forks s !! i = Some f -> drain_inv (active_forked_anext s i f).
Proof.
  intros Hd Hf. unfold active_forked_anext, _fetch_next.
  destruct (Queue.empty (_q (aiter f)) && negb (_stopping (aiter f))) eqn:Hc.
  - apply andb_true_iff in Hc as [_ Hns%negb_true_iff].
    assert (Hpark : drain_inv (set_fork s i (set_pc f FAtLock))).
    { by eapply drain_set_fork. }
    destruct (Semaphore.locked (_is_fetching s)); [done|].
    destruct (Semaphore.try_acquire (_is_fetching s)) as [sem|]; [|done].
    destruct Hd as [Hall Hterm Hdone].
    assert (Ht : terminal s = 0).
    { destruct (terminal s) eqn:E; [done|].
      destruct Hdone as [_ Hs]; [lia|]. rewrite (Hs i f Hf) in Hns. done. }
    split; cbn.
    + by rewrite length_insert.
    + lia.
    + lia.
  - eapply drain_set_fork; [done|done|].
    by rewrite deliver_stopping, anext_stopping.
Qed.

Lemma continue_drain s i : drain_inv s -> drain_inv (continue s i).
Proof.
  intros Hd. unfold continue. destruct (forks s !! i) as [f|] eqn:Hf; [|done].
  by apply active_anext_drain.
Qed.

Lemma fetch_returns_drain upstream s i f :
  inv upstream None s -> drain_inv s ->
  forks s !! i = Some f -> pc f = FAtUpstream ->
  drain_inv (_fetch_next_returns s i).
Proof.
  intros Hinv [Hall Hterm Hdone] Hf Hpc.
  destruct (inv_fetch _ _ _ Hinv i f Hf Hpc) as [Hin _]; [done|].
  assert (Ht : terminal s = 0).
  { destruct (terminal s) eqn:E; [done|]. destruct Hdone as [? _]; lia. }
  unfold _fetch_next_returns. destruct (_open_aiter s) as [|x rest] eqn:Hop.
  - apply continue_drain.
    destruct (stop_outputs_spec (_outputs s) (forks s)) as [Hlen Hlook];
      [by destruct Hinv|].
    split; cbn.
    + by rewrite Hlen.
    + lia.
    + intros _. split; [lia|]. intros j g Hg.
      destruct (lookup_lt_is_Some_2 (forks s) j) as [f0 Hf0].
      { rewrite <- Hlen. by eapply lookup_lt_Some. }
      rewrite (Hlook j f0 Hf0) in Hg. rewrite decide_True in Hg.
      * simplify_eq. cbn. apply stop_stopping.
      * rewrite Hall. apply elem_of_seq. split; [lia|].
        apply lookup_lt_Some in Hf0. lia.
  - destruct (push_outputs_spec x (_outputs s) (forks s))
      as (fs' & Hrun & Hlen & Hlook);
      [by destruct Hinv|by apply (inv_open _ _ _ Hinv)|].
    rewrite Hrun. apply continue_drain. split; cbn.
    + by rewrite Hlen.
    + lia.
    + lia.
Qed.

Lemma step_drain upstream l s s' :
  inv upstream None s -> drain_inv s -> draining l = true ->
  step l s = Some s' -> drain_inv s'.
Proof.
  intros Hinv Hd Hl Hstep. destruct l as [qo m act|i|i|i|i]; try done;
    cbn [step] in Hstep;
    (destruct (forks s !! i) as [f|] eqn:Hf; [|done]).
  - destruct (pc f) eqn:Hpc; try done.
    destruct (is_active f); simplify_eq.
    + by apply active_anext_drain.
    + eapply drain_set_fork; [done|done|].
      by rewrite deliver_stopping, anext_stopping.
  - destruct (pc f) as [| | |[[x|]]| |] eqn:Hpc; try done.
    + destruct (Semaphore.try_acquire (_is_fetching s)) as [sem|] eqn:Hacq;
        [|done].
      simplify_eq.
      assert (Hsame : Semaphore.release sem = _is_fetching s).
      { unfold Semaphore.try_acquire, Semaphore.locked, Semaphore.release in *.
        destruct (_is_fetching s); [done|]. cbn in Hacq. simplify_eq. lia. }
      rewrite Hsame.
      replace (Forker _ _ _ _ _ _ _ _) with s by (by destruct s).
      by apply continue_drain.
    + simplify_eq. by eapply fetch_returns_drain.
    + simplify_eq. eapply drain_set_fork; [done|done|].
      by rewrite deliver_stopping, anext_resume_keeps_stopping.
    + destruct (_stopping (aiter f)) eqn:Hs; [|done]. simplify_eq.
      eapply drain_set_fork; [done|done|].
      by rewrite deliver_stopping, anext_resume_keeps_stopping.
  - destruct (pc f) as [| | |[[x|]]| |] eqn:Hpc; try done.
    unfold Queue.empty, q_get_run, Queue.get_nowait in Hstep.
    destruct (Queue.items (_q (aiter f))) as [|x rest] eqn:Hq; [done|].
    simplify_eq. by eapply drain_set_fork.
Qed.

Lemma run_drain upstream ls : forall s,
  inv upstream None s -> drain_inv s -> forallb draining ls = true ->
  drain_inv (run ls s).
Proof.
  induction ls as [|l ls IH]; intros s Hinv Hd Hls; [done|].
  cbn in Hls. apply andb_true_iff in Hls as [Hl Hls]. cbn [run].
  destruct (step l s) as [s'|] eqn:Hstep; [|by apply IH].
  apply IH; [by eapply forker_step_inv|by eapply step_drain|done].
Qed.

(** Creating the forks, before any consumer runs. *)
Lemma run_creating ls : forall s,
  drain_inv s -> terminal s = 0 -> forallb creating ls = true ->
  drain_inv (run ls s) /\ terminal (run ls s) = 0.
Proof.
  induction ls as [|l ls IH]; intros s Hd Ht Hls; [done|].
  cbn in Hls. apply andb_true_iff in Hls as [Hl Hls].
  destruct l as [qo m act|i|i|i|i]; try done. cbn [run step].
  apply IH; [|done|done].
  destruct Hd as [Hall Hterm Hdone]. split; cbn.
  - rewrite Hall, length_app. cbn. by rewrite Nat.add_1_r, seq_S.
  - done.
  - lia.
Qed.

Lemma drain_init (upstream : list A) : drain_inv (aiter_forker upstream).
Proof. split; cbn; [done|lia|lia]. Qed.

Lemma run_app ls1 : forall ls2 s, run (ls1 ++ ls2) s = run ls2 (run ls1 s).
Proof.
  induction ls1 as [|l ls1 IH]; intros ls2 s; [done|]. cbn.
  by destruct (step l s).
Qed.

(** *** Passive forks alone *)

(** The labels of a program that creates no active fork. *)
Definition passive (l : label A) : bool :=
  match l with
  | NewFork _ _ active => negb active
  | _ => true
  end.

(** No call of the upstream has been made, and no fork is inside
    [_fetch_next]. *)
Record quiet (upstream : list A) s : Prop := Quiet {
  quiet_open : _open_aiter s = upstream;
  quiet_fetched : fetched s = [];
  quiet_issued : issued s = 0;
  quiet_flight : in_flight s = 0;
  quiet_terminal : terminal s = 0;
  quiet_forks :
    Forall (fun f => is_active f = false /\ pc f <> FAtLock /\
                     pc f <> FAtUpstream) (forks s)
}.

Lemma deliver_passive f (r : q_aiter A * resumed A (anext_frame A)) :
  is_active (deliver f r) = is_active f /\
  pc (deliver f r) <> FAtLock /\ pc (deliver f r) <> FAtUpstream.
Proof. destruct r as [q1 [x|e|fr]]; [done| |done]. by destruct e. Qed.

Lemma quiet_set_fork upstream s i f f' :
  quiet upstream s -> forks s !! i = Some f ->
  is_active f' = is_active f -> pc f' <> FAtLock -> pc f' <> FAtUpstream ->
  quiet upstream (set_fork s i f').
Proof.
  intros [Ho Hf Hi Hfl Ht Hfs] Hl Ha H1 H2. split; try done.
  cbn [set_fork set_forks forks]. apply Forall_insert; [done|].
  rewrite Forall_lookup in Hfs. destruct (Hfs i f Hl) as (Ha' & _).
  split; [congruence|done].
Qed.

Lemma quiet_step upstream l s s' :
  quiet upstream s -> passive l = true -> step l s = Some s' ->
  quiet upstream s'.
Proof.
  intros Hq Hl Hstep.
  assert (Hfs := quiet_forks _ _ Hq). rewrite Forall_lookup in Hfs.
  destruct l as [qo m act|i|i|i|i]; cbn [step] in Hstep.
  - simplify_eq. destruct act; [done|]. destruct Hq. split; try done.
    cbn [new_fork forks]. apply Forall_app. split; [done|].
    by repeat constructor.
  - simplify_eq. by destruct Hq.
  - destruct (forks s !! i) as [f|] eqn:Hf; [|done].
    destruct (Hfs i f Hf) as (Ha & _ & _).
    destruct (pc f); try done. rewrite Ha in Hstep. simplify_eq.
    destruct (deliver_passive f (__anext__ (aiter f))) as (? & ? & ?).
    by eapply quiet_set_fork.
  - destruct (forks s !! i) as [f|] eqn:Hf; [|done].
    destruct (Hfs i f Hf) as (Ha & Hnl & Hnu).
    destruct (pc f) as [| | |[[x|]]| |] eqn:Hpc; try done.
    + simplify_eq.
      destruct (deliver_passive f (anext_resume (aiter f) (AtWait (Some x))))
        as (? & ? & ?).
      by eapply quiet_set_fork.
    + destruct (_stopping (aiter f)); [|done]. simplify_eq.
      destruct (deliver_passive f (anext_resume (aiter f) (AtWait None)))
        as (? & ? & ?).
      by eapply quiet_set_fork.
  - destruct (forks s !! i) as [f|] eqn:Hf; [|done].
    destruct (pc f) as [| | |[[x|]]| |] eqn:Hpc; try done.
    destruct (Queue.empty _); [done|].
    destruct (q_get_run (aiter f) (AtWait None)) as [q1 fr] eqn:Hg.
    simplify_eq. destruct (Hfs i f Hf) as (Ha & _ & _).
    by eapply quiet_set_fork.
Qed.

Lemma quiet_run upstream ls : forall s,
  quiet upstream s -> forallb passive ls = true -> quiet upstream (run ls s).
Proof.
  induction ls as [|l ls IH]; intros s Hq Hls; [done|].
  cbn in Hls. apply andb_prop in Hls as [Hl Hls]. cbn [run].
  destruct (step l s) as [s'|] eqn:Hstep; [|by apply IH].
  apply IH; [|done]. by eapply quiet_step.
Qed.

Lemma quiet_init (upstream : list A) : quiet upstream (aiter_forker upstream).
Proof. by split. Qed.

(** *** What a fetch that returns does to the forks *)

Lemma deliver_aiter f (r : q_aiter A * resumed A (anext_frame A)) :
  aiter (deliver f r) = r.1.
Proof. destruct r as [q1 [x|e|fr]]; [done| |done]. by destruct e. Qed.

(** Back at its [while], fork [i] leaves the other forks as they are, and
    its own stream as it is unless the stream has been stopped. *)
Lemma continue_forks s i j g :
  forks s !! j = Some g ->
  exists g',
    forks (continue s i) !! j = Some g' /\
    _stopping (aiter g') = _stopping (aiter g) /\
    (_stopping (aiter g) = false -> aiter g' = aiter g).
Proof.
  intros Hg. unfold continue.
  destruct (forks s !! i) as [f|] eqn:Hf; [|by exists g].
  assert (Hins : forall (fs : list (fork A)) f',
            fs = <[i := f']> (forks s) ->
            _stopping (aiter f') = _stopping (aiter f) ->
            (_stopping (aiter f) = false -> aiter f' = aiter f) ->
            exists g', fs !! j = Some g' /\
              _stopping (aiter g') = _stopping (aiter g) /\
              (_stopping (aiter g) = false -> aiter g' = aiter g)).
  { intros fs f' -> H1 H2. destruct (decide (j = i)) as [->|Hne].
    - exists f'. simplify_eq. split; [|done].
      apply list_lookup_insert_eq. by eapply lookup_lt_Some.
    - exists g. by rewrite list_lookup_insert_ne. }
  unfold active_forked_anext.
  destruct (Queue.empty (_q (aiter f)) && negb (_stopping (aiter f))).
  - unfold _fetch_next. destruct (Semaphore.locked (_is_fetching s)).
    + by apply (Hins _ (set_pc f FAtLock)).
    + destruct (Semaphore.try_acquire (_is_fetching s)).
      * by apply (Hins _ (set_pc f FAtUpstream)).
      * by apply (Hins _ (set_pc f FAtLock)).
  - apply (Hins _ (deliver f (__anext__ (aiter f)))); [done| |].
    + rewrite deliver_aiter. apply anext_stopping.
    + intros Hns. rewrite deliver_aiter. unfold __anext__. by rewrite Hns.
Qed.

Lemma continue_static s i :
  fetched (continue s i) = fetched s /\
  terminal (continue s i) = terminal s /\
  _open_aiter (continue s i) = _open_aiter s /\
  _outputs (continue s i) = _outputs s.
Proof.
  unfold continue. destruct (forks s !! i) as [f|]; [|done].
  unfold active_forked_anext.
  destruct (Queue.empty (_q (aiter f)) && negb (_stopping (aiter f))); [|done].
  unfold _fetch_next. destruct (Semaphore.locked (_is_fetching s)); [done|].
  by destruct (Semaphore.try_acquire (_is_fetching s)).
Qed.

(** The upstream returns the item [x] to the fork that called it: the
    item is pushed into the stream of every registered fork. *)
Lemma fetch_returns_item upstream s i f x rest :
  inv upstream None s ->
  forks s !! i = Some f -> pc f = FAtUpstream -> _open_aiter s = x :: rest ->
  exists s',
    step (Resume i) s = Some s' /\
    fetched s' = fetched s ++ [x] /\ _open_aiter s' = rest /\
    forall j g, forks s !! j = Some g ->
      exists g',
        forks s' !! j = Some g' /\
        aiter g' = if decide (j ∈ _outputs s) then accept (aiter g) x
                   else aiter g.
Proof.
  intros Hinv Hf Hpc Hopen.
  assert (Ht : terminal s = 0).
  { destruct (terminal s) eqn:E; [done|].
    assert (0 < terminal s) as Hc%(inv_closed _ _ _ Hinv) by lia. congruence. }
  assert (Hns := inv_open _ _ _ Hinv Ht).
  destruct (push_outputs_spec x (_outputs s) (forks s))
    as (fs' & Hpush & _ & Hlook); [by destruct Hinv|done|].
  eexists. split.
  { cbn [step]. by rewrite Hf, Hpc. }
  unfold _fetch_next_returns. rewrite Hopen, Hpush.
  set (s1 := Forker rest (_outputs s) (Semaphore.release (_is_fetching s)) fs'
                    (fetched s ++ [x]) (issued s) (in_flight s - 1)
                    (terminal s)).
  destruct (continue_static s1 i) as (H1 & _ & H3 & _).
  split; [done|]. split; [done|].
  intros j g Hg.
  destruct (continue_forks s1 i j _ (Hlook j g Hg)) as (g' & Hg' & _ & Hsame).
  exists g'. split; [done|]. rewrite Hsame.
  - by destruct (decide (j ∈ _outputs s)).
  - destruct (decide (j ∈ _outputs s)); cbn [aiter set_aiter]; [|by eapply Hns].
    destruct (accept_static (aiter g) x) as [-> _]. by eapply Hns.
Qed.

(** The upstream raises [StopAsyncIteration]: every registered fork is
    stopped. *)
Lemma fetch_returns_end upstream s i f :
  inv upstream None s ->
  forks s !! i = Some f -> pc f = FAtUpstream -> _open_aiter s = [] ->
  exists s',
    step (Resume i) s = Some s' /\
    terminal s' = S (terminal s) /\ fetched s' = fetched s /\
    forall j g, forks s !! j = Some g ->
      exists g',
        forks s' !! j = Some g' /\
        _stopping (aiter g') =
          if decide (j ∈ _outputs s) then true else _stopping (aiter g).
Proof.
  intros Hinv Hf Hpc Hopen.
  destruct (stop_outputs_spec (_outputs s) (forks s)) as [_ Hlook];
    [by destruct Hinv|].
  eexists. split.
  { cbn [step]. by rewrite Hf, Hpc. }
  unfold _fetch_next_returns. rewrite Hopen.
  set (s1 := Forker [] (_outputs s) (Semaphore.release (_is_fetching s))
                    (stop_outputs (forks s) (_outputs s))
                    (fetched s) (issued s) (in_flight s - 1)
                    (S (terminal s))).
  destruct (continue_static s1 i) as (H1 & H2 & _ & _).
  split; [done|]. split; [done|].
  intros j g Hg.
  destruct (continue_forks s1 i j _ (Hlook j g Hg)) as (g' & Hg' & Hst & _).
  exists g'. split; [done|]. rewrite Hst.
  destruct (decide (j ∈ _outputs s)); cbn [aiter set_aiter]; [|done].
  apply stop_stopping.
Qed.

(** *** A fork ends only after the upstream *)

Lemma ended_after_upstream upstream s i f :
  inv upstream None s -> forks s !! i = Some f -> pc f = FEnded ->
  0 < terminal s /\ _open_aiter s = [] /\ fetched s = upstream.
Proof.
  intros Hinv Hf Hpc.
  destruct (fo_ended _ _ _ (inv_forks _ _ _ Hinv i f Hf) Hpc) as [Hs _].
  assert (Ht : 0 < terminal s).
  { destruct (terminal s) eqn:E; [|lia].
    rewrite (inv_open _ _ _ Hinv E i f Hf) in Hs. done. }
  assert (Ho := inv_closed _ _ _ Hinv Ht).
  split; [done|]. split; [done|].
  rewrite <- (inv_up _ _ _ Hinv), Ho. by rewrite app_nil_r.
Qed.

End WithItem.
End ForkerFacts.

Module ParallelMapFacts.
Import ParallelMap.
Section WithUpstream.
Context {A B U F E : Type}.
Variable ops : aiter_ops A U F E.
Variable map_f : A -> result B.
Implicit Types (s : sys A B U F) (w : worker A B F).

(** All the items that the workers have received. *)
Definition all_received s : list A := concat (map received (workers s)).

Lemma concat_received_insert (ws : list (worker A B F)) i w w' x :
  ws !! i = Some w ->
  received w' = received w ++ [x] ->
  concat (map received (<[i := w']> ws)) ≡ₚ concat (map received ws) ++ [x].
Proof.
  intros Hw Hr.
  rewrite insert_take_drop by (by eapply lookup_lt_Some).
  rewrite <- (take_drop_middle ws i w Hw) at 3.
  rewrite !map_app, !concat_app. cbn [map concat]. rewrite Hr.
  rewrite <- !app_assoc. apply Permutation_app_head.
  apply Permutation_app_head. apply Permutation_app_comm.
Qed.

Lemma concat_received_same (ws : list (worker A B F)) i w w' :
  ws !! i = Some w ->
  received w' = received w ->
  concat (map received (<[i := w']> ws)) = concat (map received ws).
Proof.
  intros Hw Hr.
  rewrite insert_take_drop by (by eapply lookup_lt_Some).
  rewrite <- (take_drop_middle ws i w Hw) at 3.
  rewrite !map_app. cbn [map]. by rewrite Hr.
Qed.

Lemma received_on_item w x :
  received (on_item map_f w x) = received w ++ [x].
Proof.
  unfold on_item. destruct (map_f x) as [y|e]; [done|].
  by destruct (isinstance_Exception e).
Qed.

(** The items received by the workers are, as a multiset, the items
    returned by the upstream. *)
Definition partition s : Prop := all_received s ≡ₚ delivered s.

Lemma after_anext_partition s i w r :
  partition s -> workers s !! i = Some w ->
  partition (after_anext map_f s i w r) /\
  length (workers (after_anext map_f s i w r)) = length (workers s).
Proof.
  unfold partition, all_received. intros Hp Hw.
  destruct r as [u [x|e|fr]]; cbn [after_anext].
  - cbn [workers delivered]. rewrite length_insert. split; [|done].
    rewrite (concat_received_insert _ i w _ x Hw (received_on_item w x)).
    by apply Permutation_app_tail.
  - destruct e; cbn [workers delivered]; rewrite length_insert;
      (split; [|done]); by rewrite (concat_received_same _ i w).
  - cbn [workers delivered]. rewrite length_insert. split; [|done].
    by rewrite (concat_received_same _ i w).
Qed.

Lemma step_partition l s s' :
  partition s -> step ops map_f l s = Some s' ->
  partition s' /\ length (workers s') = length (workers s).
Proof.
  intros Hp Hstep. destruct l as [i|i|i|e]; cbn [step] in Hstep.
  - destruct (workers s !! i) as [w|] eqn:Hw; [|done].
    destruct (wpc w); try done. simplify_eq. by apply after_anext_partition.
  - destruct (workers s !! i) as [w|] eqn:Hw; [|done].
    destruct (wpc w) as [|fr| |]; try done.
    destruct (sharable_resume ops (upstream s) fr) as [r|]; [|done].
    simplify_eq. by apply after_anext_partition.
  - destruct (workers s !! i) as [w|] eqn:Hw; [|done].
    destruct (wpc w) as [|fr| |]; try done.
    destruct (up_task ops (upstream s) fr) as [[u fr']|]; [|done].
    simplify_eq. unfold partition, all_received in *. cbn [workers delivered].
    rewrite length_insert. split; [|done].
    by rewrite (concat_received_same _ i w).
  - by simplify_eq.
Qed.

Lemma run_partition ls : forall s,
  partition s ->
  partition (run ops map_f ls s) /\
  length (workers (run ops map_f ls s)) = length (workers s).
Proof.
  induction ls as [|l ls IH]; intros s Hp; [done|]. cbn [run].
  destruct (step ops map_f l s) as [s'|] eqn:Hstep; [|by apply IH].
  destruct (step_partition l s s' Hp Hstep) as [Hp' Hlen].
  destruct (IH s' Hp') as [Hp'' Hlen']. split; [done|]. congruence.
Qed.

Lemma partition_init n (u : U) :
  partition (parallel_map_aiter n u : sys A B U F).
Proof.
  unfold partition, all_received. cbn.
  induction n as [|n IH]; [done|]. exact IH.
Qed.

(** *** What a worker yields *)

(** The result of the mapping function on an item, when it returns, and
    the entry that the worker logs, when it raises an instance of
    [Exception]. *)
Definition mapped (x : A) : option B :=
  match map_f x with
  | Ok y => Some y
  | Raise _ => None
  end.

Definition caught (x : A) : option (exn * A) :=
  match map_f x with
  | Ok _ => None
  | Raise e => if isinstance_Exception e then Some (e, x) else None
  end.

Definition worker_ok w : Prop :=
  yielded w = omap mapped (received w) /\
  wlogged w = omap caught (received w).

Lemma on_item_ok w x : worker_ok w -> worker_ok (on_item map_f w x).
Proof.
  intros [Hy Hl]. unfold worker_ok, on_item, mapped, caught in *.
  destruct (map_f x) as [y|e] eqn:Hx.
  - cbn [received yielded wlogged]. rewrite !omap_app. cbn. rewrite Hx.
    cbn. rewrite app_nil_r. by rewrite Hy, Hl.
  - destruct (isinstance_Exception e) eqn:He;
      cbn [received yielded wlogged]; rewrite !omap_app; cbn; rewrite Hx, ?He;
      cbn; rewrite ?app_nil_r; by rewrite Hy, Hl.
Qed.

Lemma after_anext_ok s i w r :
  Forall worker_ok (workers s) -> workers s !! i = Some w ->
  Forall worker_ok (workers (after_anext map_f s i w r)).
Proof.
  intros Hall Hw.
  assert (Hok : worker_ok w) by (rewrite Forall_lookup in Hall; eauto).
  destruct r as [u [x|e|fr]]; cbn [after_anext].
  - cbn [workers]. apply Forall_insert; [done|]. by apply on_item_ok.
  - destruct e; cbn [workers]; by apply Forall_insert.
  - cbn [workers]. by apply Forall_insert.
Qed.

Lemma step_ok l s s' :
  Forall worker_ok (workers s) -> step ops map_f l s = Some s' ->
  Forall worker_ok (workers s').
Proof.
  intros Hall Hstep. destruct l as [i|i|i|e]; cbn [step] in Hstep.
  - destruct (workers s !! i) as [w|] eqn:Hw; [|done].
    destruct (wpc w); try done. simplify_eq. by apply after_anext_ok.
  - destruct (workers s !! i) as [w|] eqn:Hw; [|done].
    destruct (wpc w) as [|fr| |]; try done.
    destruct (sharable_resume ops (upstream s) fr) as [r|]; [|done].
    simplify_eq. by apply after_anext_ok.
  - destruct (workers s !! i) as [w|] eqn:Hw; [|done].
    destruct (wpc w) as [|fr| |]; try done.
    destruct (up_task ops (upstream s) fr) as [[u fr']|]; [|done].
    simplify_eq. cbn [workers]. apply Forall_insert; [done|].
    rewrite Forall_lookup in Hall. by apply (Hall i w).
  - by simplify_eq.
Qed.

Lemma run_ok ls : forall s,
  Forall worker_ok (workers s) ->
  Forall worker_ok (workers (run ops map_f ls s)).
Proof.
  induction ls as [|l ls IH]; intros s Hall; [done|]. cbn [run].
  destruct (step ops map_f l s) as [s'|] eqn:Hstep; [|by apply IH].
  apply IH. by eapply step_ok.
Qed.

Lemma concat_yielded (ws : list (worker A B F)) :
  Forall worker_ok ws ->
  concat (map yielded ws) = omap mapped (concat (map received ws)).
Proof.
  induction 1 as [|w ws [Hy _] _ IH]; [done|].
  cbn [map concat]. by rewrite omap_app, Hy, IH.
Qed.

End WithUpstream.
End ParallelMapFacts.

(** ** parallel_map_aiter over a q_aiter: where the items are *)
Module ParallelQueueFacts.
Import QAiter QAiterFacts ParallelMap.
Section WithItem.
Context {A B : Type}.
Variable map_f : A -> result B.
Implicit Types (s : sys A B (q_aiter A) (anext_frame A))
               (w : worker A B (anext_frame A))
               (l : label (q_env A)) (q : q_aiter A).

(** The item that the upstream call of a worker holds: its task [q_get]
    has taken it from the queue, and the call has not returned it yet. *)
Definition in_hand w : list A :=
  match wpc w with
  | WParked (AtWait (Some x)) => [x]
  | _ => []
  end.

Definition all_in_hand s : list A := concat (map in_hand (workers s)).

(** Where the items of the stream are: returned to a worker, held by a
    call in progress, in the buffer, or skipped by a push that found the
    buffer full. *)
Definition whereabouts s : list A :=
  delivered s ++ all_in_hand s ++
  Queue.items (_q (upstream s)) ++ dropped (upstream s).

(** The state after a label, taken or not, and the item that the label
    gives to the stream: that of a push on a stream that is not stopped. *)
Definition next l s : sys A B (q_aiter A) (anext_frame A) :=
  match step q_aiter_ops map_f l s with
  | Some s' => s'
  | None => s
  end.

Definition given l s : list A :=
  match l with
  | Env (QPush x) => if _stopping (upstream s) then [] else [x]
  | _ => []
  end.

Fixpoint offered (ls : list (label (q_env A))) s : list A :=
  match ls with
  | [] => []
  | l :: ls' => given l s ++ offered ls' (next l s)
  end.

Lemma run_next l ls s :
  run q_aiter_ops map_f (l :: ls) s = run q_aiter_ops map_f ls (next l s).
Proof. unfold next. cbn [run]. by destruct (step q_aiter_ops map_f l s). Qed.

Lemma hand_split (ws : list (worker A B (anext_frame A))) i w :
  ws !! i = Some w ->
  exists others,
    concat (map in_hand ws) ≡ₚ in_hand w ++ others /\
    forall w', concat (map in_hand (<[i := w']> ws)) ≡ₚ in_hand w' ++ others.
Proof.
  intros Hw.
  exists (concat (map in_hand (take i ws)) ++
          concat (map in_hand (drop (S i) ws))).
  split.
  - rewrite <- (take_drop_middle ws i w Hw) at 1.
    rewrite map_app, concat_app. cbn [map concat]. solve_Permutation.
  - intros w'. rewrite insert_take_drop by (by eapply lookup_lt_Some).
    rewrite map_app, concat_app. cbn [map concat]. solve_Permutation.
Qed.

Lemma in_hand_on_item w x : in_hand (on_item map_f w x) = [].
Proof.
  unfold on_item, in_hand. destruct (map_f x) as [y|e]; [done|].
  by destruct (isinstance_Exception e).
Qed.

(** What a step of the upstream's [__anext__] holds when it is over. *)
Definition handed (r : resumed A (anext_frame A)) : list A :=
  match r with
  | Return x => [x]
  | Await (AtWait (Some x)) => [x]
  | _ => []
  end.

Lemma after_anext_whereabouts s i w q1 r :
  workers s !! i = Some w ->
  handed r ++ Queue.items (_q q1) ++ dropped q1 ≡ₚ
    in_hand w ++ Queue.items (_q (upstream s)) ++ dropped (upstream s) ->
  whereabouts (after_anext map_f s i w (q1, r)) ≡ₚ whereabouts s.
Proof.
  intros Hw Hp. destruct (hand_split _ i w Hw) as (others & H1 & H2).
  unfold whereabouts, all_in_hand. rewrite H1.
  transitivity (delivered s ++ others ++
                  (in_hand w ++ Queue.items (_q (upstream s)) ++
                   dropped (upstream s))); [|solve_Permutation].
  rewrite <- Hp.
  destruct r as [x|e|[[x|]]]; cbn [after_anext]; [|destruct e|..];
    cbn [workers delivered upstream]; rewrite H2;
    rewrite ?in_hand_on_item; cbn [in_hand wpc handed]; solve_Permutation.
Qed.

Lemma anext_whereabouts s i w :
  workers s !! i = Some w -> in_hand w = [] ->
  whereabouts (after_anext map_f s i w (__anext__ (upstream s))) ≡ₚ
    whereabouts s.
Proof.
  intros Hw Hh.
  destruct (anext_cases (upstream s)) as [Hs|Hs Hd|x rest Hs Hd Hq|Hs Hd Hq];
    apply after_anext_whereabouts; try done; rewrite Hh; cbn; try done.
  by rewrite Hq.
Qed.

Lemma step_whereabouts l s s' :
  step q_aiter_ops map_f l s = Some s' ->
  whereabouts s' ≡ₚ whereabouts s ++ given l s.
Proof.
  intros Hstep. destruct l as [i|i|i|e]; cbn [step given] in *.
  - rewrite app_nil_r.
    destruct (workers s !! i) as [w|] eqn:Hw; [|done].
    destruct (wpc w) eqn:Hpc; try done. simplify_eq.
    apply anext_whereabouts; [done|]. unfold in_hand. by rewrite Hpc.
  - rewrite app_nil_r.
    destruct (workers s !! i) as [w|] eqn:Hw; [|done].
    destruct (wpc w) as [|[[x|]]| |] eqn:Hpc; try done;
      cbn [sharable_resume up_resume q_aiter_ops] in Hstep.
    + simplify_eq. cbn [anext_resume].
      apply after_anext_whereabouts; [done|]. unfold in_hand. by rewrite Hpc.
    + destruct (_stopping (upstream s)) eqn:Hs; [|done]. simplify_eq.
      rewrite anext_resume_stopping by done.
      apply anext_whereabouts; [done|]. unfold in_hand. by rewrite Hpc.
  - rewrite app_nil_r.
    destruct (workers s !! i) as [w|] eqn:Hw; [|done].
    destruct (wpc w) as [|[[x|]]| |] eqn:Hpc; try done;
      cbn [up_task q_aiter_ops] in Hstep.
    destruct (Queue.empty (_q (upstream s))) eqn:He; [done|].
    unfold Queue.empty in He. cbn [q_get_run] in Hstep.
    unfold Queue.get_nowait in Hstep.
    destruct (Queue.items (_q (upstream s))) as [|x rest] eqn:Hq; [done|].
    simplify_eq. destruct (hand_split _ i w Hw) as (others & H1 & H2).
    unfold whereabouts, all_in_hand. cbn [workers delivered upstream].
    rewrite H1, H2, Hq. unfold in_hand. rewrite Hpc. cbn.
    solve_Permutation.
  - simplify_eq. unfold whereabouts, all_in_hand.
    cbn [workers delivered upstream up_env q_aiter_ops].
    destruct e as [x|].
    + destruct (_stopping (upstream s)) eqn:Hs.
      * rewrite push_nowait_stopping by done. by rewrite app_nil_r.
      * rewrite push_nowait_one by done. unfold accept, full.
        destruct (Queue.full (_q (upstream s)));
          [destruct (_full_callback (upstream s))|]; cbn; solve_Permutation.
    + rewrite app_nil_r. unfold stop.
      by destruct (_stopping (upstream s)).
Qed.

Lemma run_whereabouts ls : forall s,
  whereabouts (run q_aiter_ops map_f ls s) ≡ₚ whereabouts s ++ offered ls s.
Proof.
  induction ls as [|l ls IH]; intros s; [by rewrite app_nil_r|].
  rewrite run_next. cbn [offered]. rewrite IH. unfold next.
  destruct (step q_aiter_ops map_f l s) as [s'|] eqn:Hstep.
  - rewrite (step_whereabouts l s s' Hstep). by rewrite <- app_assoc.
  - assert (given l s = []) as ->; [|done].
    by destruct l as [i|i|i|e].
Qed.

(** *** When the workers have ended *)

(** A stream that has raised the end of the sequence has been stopped and
    is empty, and a worker ends only on such a stream. *)
Record settled s : Prop := Settled {
  st_stopping : _stopped (upstream s) = true -> _stopping (upstream s) = true;
  st_empty : _stopped (upstream s) = true -> Queue.items (_q (upstream s)) = [];
  st_ended :
    Forall (fun w => wpc w = WEnded -> _stopped (upstream s) = true)
           (workers s)
}.

Lemma after_anext_settled s i w q1 r :
  settled s ->
  (_stopped q1 = true -> _stopping q1 = true) ->
  (_stopped q1 = true -> Queue.items (_q q1) = []) ->
  (_stopped (upstream s) = true -> _stopped q1 = true) ->
  (r = Throw StopAsyncIteration -> _stopped q1 = true) ->
  settled (after_anext map_f s i w (q1, r)).
Proof.
  intros [H1 H2 H3] Hs He Hmono Hend.
  assert (Hws : forall w',
            (wpc w' = WEnded -> _stopped q1 = true) ->
            Forall (fun w => wpc w = WEnded -> _stopped q1 = true)
                   (<[i := w']> (workers s))).
  { intros w' Hw'. destruct (decide (i < length (workers s))) as [Hlt|Hge].
    - apply Forall_insert; [|done].
      eapply Forall_impl; [exact H3|]. cbn. auto.
    - rewrite list_insert_ge by lia.
      eapply Forall_impl; [exact H3|]. cbn. auto. }
  destruct r as [x|e|fr]; cbn [after_anext]; [|destruct e|];
    (split; cbn [upstream workers]; [done|done|apply Hws]); cbn; try done.
  - unfold on_item. destruct (map_f x) as [y|e]; [done|].
    by destruct (isinstance_Exception e).
  - intros _. by apply Hend.
Qed.

Lemma anext_settled s i w :
  settled s ->
  settled (after_anext map_f s i w (__anext__ (upstream s))).
Proof.
  intros Hst. assert (Hst' := Hst). destruct Hst' as [H1 H2 H3].
  destruct (anext_cases (upstream s)) as [Hs|Hs Hd|x rest Hs Hd Hq|Hs Hd Hq];
    apply after_anext_settled; try done; cbn; try congruence.
Qed.

Lemma step_settled l s s' :
  settled s -> step q_aiter_ops map_f l s = Some s' -> settled s'.
Proof.
  intros Hst Hstep. assert (Hst' := Hst). destruct Hst' as [H1 H2 H3].
  destruct l as [i|i|i|e]; cbn [step] in *.
  - destruct (workers s !! i) as [w|] eqn:Hw; [|done].
    destruct (wpc w) eqn:Hpc; try done. simplify_eq.
    by apply anext_settled.
  - destruct (workers s !! i) as [w|] eqn:Hw; [|done].
    destruct (wpc w) as [|[[x|]]| |] eqn:Hpc; try done;
      cbn [sharable_resume up_resume q_aiter_ops] in Hstep.
    + simplify_eq. cbn [anext_resume]. by apply after_anext_settled.
    + destruct (_stopping (upstream s)) eqn:Hs; [|done]. simplify_eq.
      rewrite anext_resume_stopping by done. by apply anext_settled.
  - destruct (workers s !! i) as [w|] eqn:Hw; [|done].
    destruct (wpc w) as [|[[x|]]| |] eqn:Hpc; try done;
      cbn [up_task q_aiter_ops] in Hstep.
    destruct (Queue.empty (_q (upstream s))) eqn:He; [done|].
    unfold Queue.empty in He. cbn [q_get_run] in Hstep.
    unfold Queue.get_nowait in Hstep.
    destruct (Queue.items (_q (upstream s))) as [|x rest] eqn:Hq; [done|].
    simplify_eq.
    assert (Hd : _stopped (upstream s) = false).
    { destruct (_stopped (upstream s)); [|done]. by specialize (H2 eq_refl). }
    split; cbn [upstream workers set_q _stopped _stopping _q]; try congruence.
    destruct (decide (i < length (workers s))) as [Hlt|Hge].
    + apply Forall_insert; [|done].
      eapply Forall_impl; [exact H3|]. cbn. auto.
    + rewrite list_insert_ge by lia. done.
  - simplify_eq. cbn [up_env q_aiter_ops]. destruct e as [x|].
    + destruct (_stopping (upstream s)) eqn:Hs.
      * rewrite push_nowait_stopping by done. by destruct s.
      * rewrite push_nowait_one by done.
        assert (Hd : _stopped (upstream s) = false).
        { destruct (_stopped (upstream s)); [|done].
          specialize (H1 eq_refl). congruence. }
        destruct (accept_static (upstream s) x) as (Ha & Hb & _).
        split; cbn [upstream workers]; try congruence.
        eapply Forall_impl; [exact H3|]. cbn. intros w Hw Hpc.
        specialize (Hw Hpc). congruence.
    + split; cbn [upstream workers].
      * intros _. apply stop_stopping.
      * intros Hd. unfold stop in *.
        destruct (_stopping (upstream s)); by apply H2.
      * eapply Forall_impl; [exact H3|]. cbn. intros w Hw Hpc.
        specialize (Hw Hpc). unfold stop. by destruct (_stopping (upstream s)).
Qed.

Lemma run_settled ls : forall s,
  settled s -> settled (run q_aiter_ops map_f ls s).
Proof.
  induction ls as [|l ls IH]; intros s Hst; [done|]. cbn [run].
  destruct (step q_aiter_ops map_f l s) as [s'|] eqn:Hstep; [|by apply IH].
  apply IH. by eapply step_settled.
Qed.

Lemma settled_init n q :
  _stopped q = false -> settled (parallel_map_aiter n q).
Proof.
  intros Hd. split; cbn; try congruence.
  apply Forall_replicate. done.
Qed.

Lemma ended_in_hand (ws : list (worker A B (anext_frame A))) :
  Forall (fun w => wpc w = WEnded) ws -> concat (map in_hand ws) = [].
Proof.
  induction 1 as [|w ws Hw _ IH]; [done|]. cbn [map concat].
  unfold in_hand at 1. by rewrite Hw, IH.
Qed.

End WithItem.
End ParallelQueueFacts.

Module SharedFacts.
Import Linked LinkedFacts Shared.
Section WithItem.
Context {A : Type}.
Implicit Types (s : sys A) (c : consumer A) (cs : list (consumer A)).

(** *** Lists of consumers *)

Lemma count_insert (P : consumer A -> bool) cs i c c' :
  cs !! i = Some c ->
  length (filter P (<[i := c']> cs)) + (if P c then 1 else 0) =
    length (filter P cs) + (if P c' then 1 else 0).
Proof.
  revert i. induction cs as [|d cs IH]; intros [|i] Hi; try done.
  - cbn in Hi. injection Hi as ->.
    change (<[0 := c']> (c :: cs)) with (c' :: cs).
    rewrite !filter_cons.
    destruct (P c), (P c'); cbn; repeat case_decide; cbn; try done; lia.
  - cbn in Hi. change (<[S i := c']> (d :: cs)) with (d :: <[i := c']> cs).
    rewrite !filter_cons. specialize (IH i Hi).
    destruct (decide (P d)); cbn [length]; lia.
Qed.

Lemma concat_got_insert cs i c c' x :
  cs !! i = Some c -> got c' = got c ++ [x] ->
  concat (map got (<[i := c']> cs)) ≡ₚ concat (map got cs) ++ [x].
Proof.
  intros Hc Hg.
  rewrite insert_take_drop by (by eapply lookup_lt_Some).
  rewrite <- (take_drop_middle cs i c Hc) at 3.
  rewrite !map_app. cbn [map]. rewrite !concat_app. cbn [concat]. rewrite Hg.
  rewrite <- !app_assoc. apply Permutation_app_head, Permutation_app_head.
  apply Permutation_app_comm.
Qed.

Lemma concat_got_same cs i c c' :
  cs !! i = Some c -> got c' = got c ->
  concat (map got (<[i := c']> cs)) = concat (map got cs).
Proof.
  intros Hc Hg.
  rewrite insert_take_drop by (by eapply lookup_lt_Some).
  rewrite <- (take_drop_middle cs i c Hc) at 3.
  rewrite !map_app. cbn [map]. by rewrite Hg.
Qed.

(** *** Chains *)

Lemma state_of_resolved (h : list (future A)) f x n :
  state_of h f = Resolved x n -> h !! f = Some (Resolved x n).
Proof. unfold state_of. destruct (h !! f); cbn; [congruence|done]. Qed.

Lemma chain_snoc (h : list (future A)) a xs g x n :
  chain h a xs g -> h !! g = Some (Resolved x n) -> chain h a (xs ++ [x]) n.
Proof.
  intros Hch Hg. eapply chain_app; [exact Hch|]. exists n. by split.
Qed.

(** Two chains from the same future: the one that ends at a future that
    is not resolved is the longer one. *)
Lemma chain_prefix (h : list (future A)) xs : forall a g ys k,
  chain h a xs g -> chain h a ys k ->
  (forall x n, h !! k <> Some (Resolved x n)) ->
  xs `prefix_of` ys.
Proof.
  induction xs as [|x xs IH]; intros a g ys k Hx Hy Hk.
  - apply prefix_nil.
  - destruct Hx as (n & Ha & Hx). destruct ys as [|y ys].
    + cbn in Hy. subst k. by apply Hk in Ha.
    + destruct Hy as (n' & Ha' & Hy). simplify_eq.
      apply prefix_cons. by eapply IH.
Qed.

(** *** The invariant *)

Record inv (first : nat) s : Prop := Inv {
  inv_head : head_ok (store s, stream s);
  inv_lock :
    _lock (cursor (stream s)) + length (filter inside (consumers s)) = 1;
  inv_got : concat (map got (consumers s)) ≡ₚ served s;
  inv_served :
    chain (futures (store s)) first (served s) (_tail (cursor (stream s)));
  inv_sent : chain (futures (store s)) first (sent s) (_head (stream s))
}.

Lemma shared_inv_start w0 n :
  inv (_head (push_aiter_init w0).2) (start w0 n) /\
  length (consumers (start w0 n)) = n.
Proof.
  assert (Hh := head_ok_init w0). unfold start.
  destruct (push_aiter_init w0) as [w1 p1] eqn:E.
  assert (Ht : _tail (cursor p1) = _head p1 /\ _lock (cursor p1) = 1).
  { unfold push_aiter_init in E. cbn in E. by simplify_eq. }
  destruct Ht as [Ht Hl]. split; [|apply length_replicate].
  split; cbn [store stream consumers sent served snd]; try done.
  - rewrite Hl. clear. induction n as [|n IH]; [done|]. exact IH.
  - clear. induction n as [|n IH]; [done|]. exact IH.
Qed.

(** The locked part of [__anext__] *)
Lemma head_ok_cursor s (w1 : world A) (self : linked_aiter) :
  head_ok (store s, stream s) -> futures w1 = futures (store s) ->
  head_ok (w1, PushAiter self (_head (stream s))).
Proof. intros [H1 H2] Hw. split; cbn [fst snd _head] in *; by rewrite Hw. Qed.

Lemma anext_locked_inv first s i c self :
  inv first s -> consumers s !! i = Some c ->
  _tail self = _tail (cursor (stream s)) ->
  _lock self = 0 ->
  _lock (cursor (stream s)) + (if inside c then 1 else 0) = 1 ->
  inv first (after_anext s i c (anext_locked (store s) self)).
Proof.
  intros [Hh Hl Hg Hsv Hst] Hc Ht Hl0 Hin.
  assert (Hcount := fun c' => count_insert inside (consumers s) i c c' Hc).
  unfold anext_locked. rewrite Ht.
  destruct (state_of (futures (store s)) (_tail (cursor (stream s))))
    as [|x n|] eqn:Hf.
  - (* pending: parked on the tail, holding the lock *)
    cbn [after_anext]. split; cbn [store stream consumers sent served cursor
      _head _tail _lock].
    + by apply head_ok_cursor.
    + specialize (Hcount (Consumer (CParked AtTail) (got c))).
      cbn [inside pc] in Hcount. rewrite Hl0. lia.
    + by rewrite (concat_got_same _ i c).
    + by rewrite Ht.
    + done.
  - (* resolved: the item is returned and the lock released *)
    apply state_of_resolved in Hf.
    set (w1 := match _next_callback_f (set_tail self n) with
               | Some cb =>
                   if done (futures (store s)) n then store s
                   else World (futures (store s)) (spawned (store s) ++ [(cb, n)])
               | None => store s
               end).
    assert (Hw1 : futures w1 = futures (store s)).
    { unfold w1. destruct (_next_callback_f _); [|done].
      by destruct (done _ _). }
    cbn [after_anext]. fold w1.
    split; cbn [store stream consumers sent served cursor _head _tail _lock
      set_lock set_tail]; rewrite ?Hw1.
    + by apply head_ok_cursor.
    + specialize (Hcount (Consumer CIdle (got c ++ [x]))).
      cbn [inside pc] in Hcount. rewrite Hl0. unfold Semaphore.release. lia.
    + rewrite (concat_got_insert _ i c _ x Hc) by done.
      by apply Permutation_app_tail.
    + by eapply chain_snoc.
    + done.
  - (* cancelled: end of the stream, the lock released *)
    cbn [after_anext]. split; cbn [store stream consumers sent served cursor
      _head _tail _lock set_lock].
    + by apply head_ok_cursor.
    + specialize (Hcount (Consumer CEnded (got c))).
      cbn [inside pc] in Hcount. rewrite Hl0. unfold Semaphore.release. lia.
    + by rewrite (concat_got_same _ i c).
    + by rewrite Ht.
    + done.
Qed.

Lemma anext_resume_inv first s i c fr :
  inv first s -> consumers s !! i = Some c ->
  inside c = match fr with AtTail => true | AtLock => false end ->
  inv first (after_anext s i c (anext_resume (store s) (cursor (stream s)) fr)).
Proof.
  intros Hinv Hc Hin.
  assert (Hl := inv_lock _ _ Hinv).
  assert (Hpos : inside c = true -> 0 < length (filter inside (consumers s))).
  { intros Hi. assert (Hel : c ∈ filter inside (consumers s)).
    { apply list_elem_of_filter. split; [by rewrite Hi|].
      by eapply list_elem_of_lookup_2. }
    destruct (filter inside (consumers s)); [by apply not_elem_of_nil in Hel|].
    cbn. lia. }
  destruct fr; cbn [anext_resume].
  - unfold Semaphore.try_acquire, Semaphore.locked.
    destruct (_lock (cursor (stream s))) as [|k] eqn:Hk; cbn [Nat.eqb].
    + (* the lock is taken: the caller waits for it *)
      destruct Hinv as [Hh _ Hg Hsv Hst]. cbn [after_anext].
      assert (Hcount := count_insert inside (consumers s) i c
                          (Consumer (CParked AtLock) (got c)) Hc).
      rewrite Hin in Hcount. cbn [inside pc] in Hcount.
      destruct (stream s) as [self hd] eqn:Hs. cbn [cursor _head] in *.
      split; cbn [store stream consumers sent served cursor _head _tail _lock];
        try done.
      * rewrite Hk. lia.
      * by rewrite (concat_got_same _ i c).
    + apply anext_locked_inv; try done.
      * cbn. lia.
      * rewrite Hin, Hk. lia.
  - apply anext_locked_inv; try done.
    + specialize (Hpos Hin). lia.
    + rewrite Hin. specialize (Hpos Hin). lia.
Qed.

Lemma shared_step_inv first l s s' :
  inv first s -> step l s = Some s' ->
  inv first s' /\ length (consumers s') = length (consumers s).
Proof.
  intros Hinv Hstep. destruct l as [x| |i|i]; cbn [step] in Hstep.
  - destruct Hinv as [[Hlt Hst] Hl Hg Hsv Hsn]. cbn [fst snd] in *.
    destruct Hst as [Hst|Hst].
    + rewrite push_nowait_pending in Hstep by done. simplify_eq.
      split; [|done].
      assert (Hext := extends_push _ _ x Hlt Hst).
      split; cbn [store stream consumers sent served cursor _head fst snd
        futures]; try done.
      * split; cbn [fst snd futures _head].
        -- rewrite length_insert, length_app. cbn. lia.
        -- left. rewrite state_of_insert_ne by lia. apply state_of_new.
      * by eapply chain_extends.
      * eapply chain_snoc; [by eapply chain_extends|].
        apply list_lookup_insert_eq. rewrite length_app. cbn. lia.
    + by rewrite push_nowait_cancelled in Hstep.
  - simplify_eq. split; [|done].
    destruct Hinv as [[Hlt Hst] Hl Hg Hsv Hsn]. cbn [fst snd] in *.
    destruct Hst as [Hst|Hst].
    + rewrite stop_pending by done.
      assert (Hext := extends_cancel _ _ Hst).
      split; cbn [store stream consumers sent served cursor _head fst snd
        futures]; try done.
      * split; cbn [fst snd futures].
        -- by rewrite length_insert.
        -- right. by apply state_of_insert_eq.
      * by eapply chain_extends.
      * by eapply chain_extends.
    + rewrite stop_cancelled by done. split; cbn [store stream consumers sent served]; try done.
      by split; [|right].
  - destruct (consumers s !! i) as [c|] eqn:Hc; [|done].
    destruct (pc c) eqn:Hpc; try done. simplify_eq.
    assert (Hin : inside c = false) by (unfold inside; by rewrite Hpc).
    assert (H := anext_resume_inv first s i c AtLock Hinv Hc Hin).
    split; [exact H|].
    unfold __anext__.
    destruct (anext_resume (store s) (cursor (stream s)) AtLock) as [[w1 c1] [x|e|fr]];
      cbn [after_anext]; [| destruct e |]; cbn; by rewrite length_insert.
  - destruct (consumers s !! i) as [c|] eqn:Hc; [|done].
    destruct (pc c) as [|fr| |] eqn:Hpc; try done. simplify_eq.
    assert (Hin : inside c = match fr with AtTail => true | AtLock => false end).
    { unfold inside. rewrite Hpc. by destruct fr. }
    assert (H := anext_resume_inv first s i c fr Hinv Hc Hin).
    split; [exact H|].
    destruct (anext_resume (store s) (cursor (stream s)) fr) as [[w1 c1] [x|e|fr']];
      cbn [after_anext]; [| destruct e |]; cbn; by rewrite length_insert.
Qed.

Lemma shared_run_inv first ls : forall s,
  inv first s ->
  inv first (run ls s) /\ length (consumers (run ls s)) = length (consumers s).
Proof.
  induction ls as [|l ls IH]; intros s Hinv; [done|]. cbn [run].
  destruct (step l s) as [s'|] eqn:Hstep; [|by apply IH].
  destruct (shared_step_inv first l s s' Hinv Hstep) as [Hinv' Hlen].
  destruct (IH s' Hinv') as [Hinv'' Hlen']. split; [done|]. congruence.
Qed.

(** *** No callback on a producer

    The cursor part of a [push_aiter] is built without [next_callback_f],
    and no step gives it one or creates a task. *)
Definition silent (sp : list (nat * nat)) s : Prop :=
  _next_callback_f (cursor (stream s)) = None /\ spawned (store s) = sp.

Lemma anext_resume_silent (w : world A) (self : linked_aiter) fr :
  _next_callback_f self = None ->
  _next_callback_f (anext_resume w self fr).1.2 = None /\
  spawned (anext_resume w self fr).1.1 = spawned w.
Proof.
  intros Hcb.
  assert (Hl : forall k : linked_aiter, _next_callback_f k = None ->
            _next_callback_f (anext_locked w k).1.2 = None /\
            spawned (anext_locked w k).1.1 = spawned w).
  { intros k Hk. unfold anext_locked.
    destruct (state_of (futures w) (_tail k)); cbn; try done.
    by rewrite Hk. }
  destruct fr; cbn [anext_resume]; [|by apply Hl].
  destruct (Semaphore.try_acquire (_lock self)); [by apply Hl|done].
Qed.

Lemma after_anext_silent sp s i c fr :
  silent sp s ->
  silent sp (after_anext s i c (anext_resume (store s) (cursor (stream s)) fr)).
Proof.
  intros [Hcb Hsp].
  destruct (anext_resume_silent (store s) (cursor (stream s)) fr Hcb) as [H1 H2].
  destruct (anext_resume (store s) (cursor (stream s)) fr) as [[w1 c1] [x|e|fr']];
    cbn [after_anext fst snd] in *; [|destruct e|];
    split; cbn [store stream cursor]; congruence.
Qed.

Lemma step_silent sp l s s' : silent sp s -> step l s = Some s' -> silent sp s'.
Proof.
  intros Hs Hstep. destruct l as [x| |i|i]; cbn [step] in Hstep.
  - destruct Hs as [Hcb Hsp]. unfold push_nowait in Hstep.
    destruct (cancelled _ _); [done|]. cbn in Hstep.
    destruct (set_result _ _ _ _) as [h2|e]; cbn in Hstep; [|done].
    simplify_eq. by split.
  - simplify_eq. destruct Hs as [Hcb Hsp]. split; [done|].
    cbn [store]. unfold stop. by destruct (done _ _).
  - destruct (consumers s !! i) as [c|]; [|done].
    destruct (pc c); try done. simplify_eq. by apply after_anext_silent.
  - destruct (consumers s !! i) as [c|]; [|done].
    destruct (pc c) as [|fr| |]; try done. simplify_eq.
    by apply after_anext_silent.
Qed.

Lemma run_silent sp ls : forall s, silent sp s -> silent sp (run ls s).
Proof.
  induction ls as [|l ls IH]; intros s Hs; [done|]. cbn [run].
  destruct (step l s) as [s'|] eqn:Hstep; [|by apply IH].
  apply IH. by eapply step_silent.
Qed.

Lemma start_silent (w0 : world A) n : silent (spawned w0) (start w0 n).
Proof. by split. Qed.

(** What has been served is a prefix of what has been sent. *)
Lemma served_prefix first s : inv first s -> served s `prefix_of` sent s.
Proof.
  intros [[Hlt Hst] _ _ Hsv Hsn]. cbn [fst snd] in *.
  eapply chain_prefix; [exact Hsv|exact Hsn|].
  intros x n Hk. apply state_of_lookup in Hk. destruct Hst; congruence.
Qed.

End WithItem.
End SharedFacts.

(** ** Streams that do not park *)
Module StreamFacts.

(** How a driver reports the exception that ends a stream. *)
Definition ending_of (e : exn) : ending :=
  match e with
  | StopAsyncIteration => Exhausted
  | _ => Failed e
  end.

Lemma ending_of_finished e : ending_of e <> Unfinished.
Proof. by destruct e. Qed.

Section WithStream.
Context {U A : Type}.
Variable next : U -> U * resumed A running.

(** [yields u xs u']: from the state [u], the successive calls of
    [__anext__] return the items [xs] and leave the stream in [u']. *)
Fixpoint yields (u : U) (xs : list A) (u' : U) : Prop :=
  match xs with
  | [] => u = u'
  | x :: xs' => exists u1, next u = (u1, Return x) /\ yields u1 xs' u'
  end.

(** One call and the rest of the drive. *)
Definition drive_from (r : U * resumed A running) (n : nat)
  : list A * ending * U :=
  match r with
  | (s1, Return y) =>
      let '(ys, e, s2) := aiter_to_iter next n s1 in (y :: ys, e, s2)
  | (s1, Throw StopAsyncIteration) => ([], Exhausted, s1)
  | (s1, Throw e) => ([], Failed e, s1)
  | (s1, Await _) => ([], Unfinished, s1)
  end.

Lemma drive_S n u : aiter_to_iter next (S n) u = drive_from (next u) n.
Proof. reflexivity. Qed.

Lemma drive_from_throw u e n : drive_from (u, Throw e) n = ([], ending_of e, u).
Proof. by destruct e. Qed.

Lemma yields_app xs : forall u ys u1 u2,
  yields u xs u1 -> yields u1 ys u2 -> yields u (xs ++ ys) u2.
Proof.
  induction xs as [|x xs IH]; intros u ys u1 u2; cbn.
  - by intros ->.
  - intros (v & Hv & Hxs) Hys. exists v. split; [done|]. by eapply IH.
Qed.

Lemma yields_app_inv xs : forall u ys u2,
  yields u (xs ++ ys) u2 -> exists u1, yields u xs u1 /\ yields u1 ys u2.
Proof.
  induction xs as [|x xs IH]; intros u ys u2; cbn.
  - intros H. by exists u.
  - intros (v & Hv & H). destruct (IH _ _ _ H) as (u1 & H1 & H2).
    exists u1. split; [|done]. by exists v.
Qed.

Lemma yields_take k xs u u2 :
  yields u xs u2 -> exists u1, yields u (take k xs) u1 /\ yields u1 (drop k xs) u2.
Proof. intros H. apply yields_app_inv. by rewrite take_drop. Qed.

(** A drive that comes to an end has seen the items returned one by one,
    and then the exception. *)
Lemma driven_yields fuel : forall u xs en u',
  aiter_to_iter next fuel u = (xs, en, u') -> en <> Unfinished ->
  exists u1 e, yields u xs u1 /\ next u1 = (u', Throw e) /\ en = ending_of e.
Proof.
  induction fuel as [|fuel IH]; intros u xs en u' Hrun Hen.
  - cbn in Hrun. by simplify_eq.
  - rewrite drive_S in Hrun. destruct (next u) as [u1 [x|e|fr]] eqn:Hu.
    + cbn [drive_from] in Hrun.
      destruct (aiter_to_iter next fuel u1) as [[ys en1] u2] eqn:Hrest.
      simplify_eq. destruct (IH _ _ _ _ Hrest Hen) as (v & e & Hy & Hv & ->).
      exists v, e. split; [|done]. by exists u1.
    + rewrite drive_from_throw in Hrun. simplify_eq. by exists u, e.
    + cbn in Hrun. by simplify_eq.
Qed.

Lemma yields_driven xs : forall u u1 u' e fuel,
  yields u xs u1 -> next u1 = (u', Throw e) -> length xs < fuel ->
  aiter_to_iter next fuel u = (xs, ending_of e, u').
Proof.
  induction xs as [|x xs IH]; intros u u1 u' e fuel Hy He Hfuel;
    (destruct fuel as [|fuel]; [cbn in Hfuel; lia|]); rewrite drive_S.
  - cbn in Hy. subst u1. rewrite He. apply drive_from_throw.
  - destruct Hy as (v & Hv & Hy). rewrite Hv. cbn [drive_from].
    rewrite (IH v u1 u' e fuel); [done..|]. cbn in Hfuel. lia.
Qed.

Lemma yields_unfinished xs : forall u u1,
  yields u xs u1 -> aiter_to_iter next (length xs) u = (xs, Unfinished, u1).
Proof.
  induction xs as [|x xs IH]; intros u u1 Hy.
  - cbn in *. by subst.
  - destruct Hy as (v & Hv & Hy). cbn [length]. rewrite drive_S, Hv.
    cbn [drive_from]. by rewrite (IH v u1).
Qed.

End WithStream.

(** A list given to [iter_to_aiter]. *)
Lemma yields_list {A} (xs ys : list A) :
  yields (no_park iter_to_aiter_anext) (xs ++ ys) xs ys.
Proof.
  induction xs as [|x xs IH]; [done|]. cbn. eexists. split; [done|]. exact IH.
Qed.

End StreamFacts.

(** ** map_aiter over any upstream *)
Module MapOverFacts.
Import MapOver StreamFacts.
Section WithUpstream.
Context {U A B : Type}.
Variable up_anext : U -> U * resumed A running.
Variable F : nat.
Variable f : MapAiter.map_fn A B.

Lemma map_over_unfold (st : state U A) :
  __anext__ up_anext F f st =
    if finished st then (st, Throw StopAsyncIteration)
    else loop up_anext F (MapAiter.call f) (upstream st) (logged st).
Proof.
  unfold __anext__. destruct (finished st); [done|].
  by destruct (MapAiter.iscoroutinefunction f).
Qed.

Lemma map_over_loop xs : forall u fuel n log u1 u' e,
  yields up_anext u xs u1 -> up_anext u1 = (u', Throw e) ->
  (forall x e', x ∈ xs -> MapAiter.call f x = Raise e' ->
     isinstance_Exception e' = true) ->
  length xs < fuel -> length xs < F ->
  length (omap (MapAiterFacts.returned f) xs) <= n ->
  drive_from (__anext__ up_anext F f)
             (loop up_anext fuel (MapAiter.call f) u log) n =
    (omap (MapAiterFacts.returned f) xs, ending_of e,
     State u' true (log ++ omap (MapAiterFacts.raised f) xs)).
Proof.
  induction xs as [|x xs IH]; intros u fuel n log u1 u' e Hy He Hexc Hfuel HF Hn;
    (destruct fuel as [|fuel]; [cbn in Hfuel; lia|]); cbn [loop].
  - cbn in Hy. subst u1. rewrite He, drive_from_throw. cbn.
    by rewrite app_nil_r.
  - destruct Hy as (v & Hv & Hy). rewrite Hv.
    assert (Hrest : forall z e', z ∈ xs -> MapAiter.call f z = Raise e' ->
                      isinstance_Exception e' = true).
    { intros z e' Hz. apply Hexc. by right. }
    cbn [length] in Hfuel, HF. cbn [omap list_omap] in *.
    assert (Hret : MapAiterFacts.returned f x =
                   match MapAiter.call f x with
                   | Ok y => Some y
                   | Raise _ => None
                   end) by done.
    assert (Hrai : MapAiterFacts.raised f x =
                   match MapAiter.call f x with
                   | Ok _ => None
                   | Raise e => Some (e, x)
                   end) by done.
    rewrite Hret in Hn |- *. rewrite Hrai. clear Hret Hrai.
    destruct (MapAiter.call f x) as [y|e'] eqn:Hx.
    + destruct n as [|n]; [cbn in Hn; lia|]. cbn [drive_from].
      rewrite drive_S, map_over_unfold. cbn [finished upstream logged].
      rewrite (IH v F n log u1 u' e); try done; try lia.
      cbn in Hn. lia.
    + rewrite (Hexc x e'); [|by left|done].
      rewrite (IH v fuel n (log ++ [(e', x)]) u1 u' e); try done; try lia.
      by rewrite <- app_assoc.
Qed.

(** Over an upstream that gives the items [xs] and then ends, the mapped
    stream gives the results of the calls that return and ends as the
    upstream does. *)
Lemma map_over_run u xs en u' n0 n :
  aiter_to_iter up_anext n0 u = (xs, en, u') -> en <> Unfinished ->
  (forall x e', x ∈ xs -> MapAiter.call f x = Raise e' ->
     isinstance_Exception e' = true) ->
  length xs < F ->
  length (omap (MapAiterFacts.returned f) xs) < n ->
  aiter_to_iter (__anext__ up_anext F f) n (map_aiter u) =
    (omap (MapAiterFacts.returned f) xs, en,
     State u' true (omap (MapAiterFacts.raised f) xs)).
Proof.
  intros Hrun Hen Hexc HF Hn.
  destruct (driven_yields _ _ _ _ _ _ Hrun Hen) as (u1 & e & Hy & He & ->).
  destruct n as [|n]; [lia|]. rewrite drive_S, map_over_unfold.
  cbn [map_aiter finished upstream logged].
  rewrite (map_over_loop xs u F n [] u1 u' e); try done. lia.
Qed.

(** A mapping function that returns on every item needs one round per
    call. *)
Lemma map_over_total_loop xs : forall u n log u1 u' e,
  yields up_anext u xs u1 -> up_anext u1 = (u', Throw e) ->
  (forall x, x ∈ xs -> exists y, MapAiter.call f x = Ok y) ->
  0 < F -> length xs <= n ->
  drive_from (__anext__ up_anext F f)
             (loop up_anext F (MapAiter.call f) u log) n =
    (omap (MapAiterFacts.returned f) xs, ending_of e, State u' true log).
Proof.
  destruct F as [|F'] eqn:HF'; [intros; lia|]. rewrite <- HF'.
  induction xs as [|x xs IH]; intros u n log u1 u' e Hy He Htot _ Hn;
    rewrite HF' at 2; cbn [loop].
  - cbn in Hy. subst u1. by rewrite He, drive_from_throw.
  - destruct Hy as (v & Hv & Hy). rewrite Hv.
    destruct (Htot x) as [y Hx]; [by left|]. rewrite Hx.
    destruct n as [|n]; [cbn in Hn; lia|]. cbn [drive_from].
    rewrite drive_S, map_over_unfold. cbn [finished upstream logged].
    rewrite (IH v n log u1 u' e); try done.
    + cbn [omap list_omap]. unfold MapAiterFacts.returned at 2. by rewrite Hx.
    + intros z Hz. apply Htot. by right.
    + lia.
    + cbn in Hn. lia.
Qed.

Lemma map_over_total_run u xs en u' n0 n :
  aiter_to_iter up_anext n0 u = (xs, en, u') -> en <> Unfinished ->
  (forall x, x ∈ xs -> exists y, MapAiter.call f x = Ok y) ->
  0 < F -> length xs < n ->
  aiter_to_iter (__anext__ up_anext F f) n (map_aiter u) =
    (omap (MapAiterFacts.returned f) xs, en, State u' true []).
Proof.
  intros Hrun Hen Htot HF Hn.
  destruct (driven_yields _ _ _ _ _ _ Hrun Hen) as (u1 & e & Hy & He & ->).
  destruct n as [|n]; [lia|]. rewrite drive_S, map_over_unfold.
  cbn [map_aiter finished upstream logged].
  apply (map_over_total_loop xs u n [] u1 u' e); try done. lia.
Qed.

End WithUpstream.
End MapOverFacts.

(** ** flatten_aiter *)
Module FlattenFacts.
Import Flatten StreamFacts.
Section WithUpstream.
Context {U B : Type}.
Variable up_anext : U -> U * resumed (iterable B) running.
Variable F : nat.

(** An iterable whose iteration, when it fails, fails with an instance of
    [Exception]. *)
Definition clean (items : iterable B) : Prop :=
  forall e, failure items = Some e -> isinstance_Exception e = true.

Lemma for_next_over fl :
  clean (Iterable [] fl) -> for_next (Iterable [] fl) = @Over B.
Proof.
  intros Hc. unfold for_next. cbn. destruct fl as [e|]; [|done].
  by rewrite (Hc e).
Qed.

(** The generator parked inside the loop over an iterable. *)
Lemma flatten_inner (u : U) fl (out : list B) (en : ending) (final : state U B) :
  clean (Iterable [] fl) ->
  (forall n, length out <= n ->
     drive_from (__anext__ up_anext F) (loop up_anext F u) n = (out, en, final)) ->
  forall ys n, length (ys ++ out) < n ->
    aiter_to_iter (__anext__ up_anext F) n (State u (Some (Iterable ys fl)) false) =
      (ys ++ out, en, final).
Proof.
  intros Hc Hout. induction ys as [|y ys IH]; intros n Hn;
    (destruct n as [|n]; [lia|]); rewrite drive_S; cbn [__anext__ finished in_for].
  - rewrite for_next_over by done. cbn [upstream app]. apply Hout.
    cbn in Hn. lia.
  - cbn [for_next elements failure upstream drive_from app].
    rewrite IH; [done|]. cbn in Hn. lia.
Qed.

Lemma flatten_loop its : forall u fuel n u1 u' e,
  yields up_anext u its u1 -> up_anext u1 = (u', Throw e) ->
  Forall clean its ->
  length its < fuel -> length its < F ->
  length (concat (map elements its)) <= n ->
  drive_from (__anext__ up_anext F) (loop up_anext fuel u) n =
    (concat (map elements its), ending_of e, State u' None true).
Proof.
  induction its as [|[els fl] its IH]; intros u fuel n u1 u' e Hy He Hc Hfuel HF Hn;
    (destruct fuel as [|fuel]; [cbn in Hfuel; lia|]); cbn [loop].
  - cbn in Hy. subst u1. by rewrite He, drive_from_throw.
  - destruct Hy as (v & Hv & Hy). rewrite Hv.
    apply Forall_cons in Hc as [Hc1 Hc].
    cbn [length] in Hfuel, HF. cbn [map concat elements] in Hn |- *.
    destruct els as [|y ys].
    + rewrite for_next_over by done. cbn [app] in Hn |- *.
      apply (IH v fuel n u1 u' e); try done; lia.
    + cbn [for_next elements failure drive_from].
      rewrite (flatten_inner v fl (concat (map elements its)) (ending_of e)
                 (State u' None true)); [done| | |].
      * intros e' He'. by apply Hc1.
      * intros m Hm. apply (IH v F m u1 u' e); try done; lia.
      * cbn in Hn. lia.
Qed.

(** Over an upstream that gives the iterables [its] and then ends, the
    flattened stream gives their elements and ends as the upstream does. *)
Lemma flatten_run u its en u' n0 n :
  aiter_to_iter up_anext n0 u = (its, en, u') -> en <> Unfinished ->
  Forall clean its ->
  length its < F ->
  length (concat (map elements its)) < n ->
  aiter_to_iter (__anext__ up_anext F) n (flatten_aiter u) =
    (concat (map elements its), en, State u' None true).
Proof.
  intros Hrun Hen Hc HF Hn.
  destruct (driven_yields _ _ _ _ _ _ Hrun Hen) as (u1 & e & Hy & He & ->).
  destruct n as [|n]; [lia|]. rewrite drive_S.
  cbn [flatten_aiter __anext__ finished in_for upstream].
  apply (flatten_loop its u F n u1 u' e); try done. lia.
Qed.

End WithUpstream.
End FlattenFacts.

(** ** map_filter_aiter *)
Module MapFilterFacts.
Import MapFilter StreamFacts.
Section WithUpstream.
Context {U A B : Type}.
Variable up_anext : U -> U * resumed A running.
Variable F : nat.
Variable f : MapAiter.map_fn A (iterable B).

(** The value of [_] after the loop [for _ in items] has gone through
    the elements [ys], starting from the value [cur]. *)
Definition last_cur (ys : list B) (cur : A + B) : A + B :=
  match last ys with
  | Some y => inr y
  | None => cur
  end.

(** The call of [logging.exception] for an iteration that fails. *)
Definition fail_entry (fl : option exn) (cur : A + B) : list (exn * (A + B)) :=
  match fl with
  | Some e => [(e, cur)]
  | None => []
  end.

(** What the stream gives for the item [x], and what it logs. *)
Definition given (x : A) : list B :=
  match MapAiter.call f x with
  | Ok items => elements items
  | Raise _ => []
  end.

Definition entry (x : A) : list (exn * (A + B)) :=
  match MapAiter.call f x with
  | Ok items => fail_entry (failure items) (last_cur (elements items) (inl x))
  | Raise e => [(e, inl x)]
  end.

(** On the item [x], the call of the mapping function and the iteration of
    its result raise instances of [Exception] only. *)
Definition clean (x : A) : Prop :=
  match MapAiter.call f x with
  | Ok items => forall e, failure items = Some e -> isinstance_Exception e = true
  | Raise e => isinstance_Exception e = true
  end.

Lemma last_cur_cons y ys cur : last_cur (y :: ys) cur = last_cur ys (inr y).
Proof. unfold last_cur. rewrite last_cons. by destruct (last ys). Qed.

Lemma map_filter_unfold (st : state U A B) :
  __anext__ up_anext F f st =
    if finished st then (st, Throw StopAsyncIteration)
    else resume up_anext F (MapAiter.call f) st.
Proof.
  unfold __anext__. destruct (finished st); [done|].
  by destruct (MapAiter.iscoroutinefunction f).
Qed.

Lemma for_next_done fl cur log :
  (forall e, fl = Some e -> isinstance_Exception e = true) ->
  for_next (Iterable [] fl) cur log = Over (log ++ fail_entry fl cur).
Proof.
  intros Hc. unfold for_next. cbn. destruct fl as [e|]; cbn.
  - by rewrite (Hc e).
  - by rewrite app_nil_r.
Qed.

(** The generator parked inside the loop over an iterable. *)
Lemma map_filter_inner (u u' : U) fl (out : list B) (en : ending)
    (rest : list (exn * (A + B))) :
  (forall e, fl = Some e -> isinstance_Exception e = true) ->
  (forall n log, length out <= n ->
     drive_from (__anext__ up_anext F f)
                (loop up_anext F (MapAiter.call f) u log) n =
       (out, en, State u' None true (log ++ rest))) ->
  forall ys cur n log, length (ys ++ out) < n ->
    aiter_to_iter (__anext__ up_anext F f) n
                  (State u (Some (Iterable ys fl, cur)) false log) =
      (ys ++ out, en,
       State u' None true (log ++ fail_entry fl (last_cur ys cur) ++ rest)).
Proof.
  intros Hc Hout. induction ys as [|y ys IH]; intros cur n log Hn;
    (destruct n as [|n]; [lia|]); rewrite drive_S, map_filter_unfold;
    cbn [finished resume in_for logged upstream].
  - rewrite for_next_done by done. cbn [app].
    rewrite Hout by (cbn in Hn; lia). by rewrite <- app_assoc.
  - cbn [for_next elements failure drive_from app].
    rewrite IH by (cbn in Hn; lia). by rewrite last_cur_cons.
Qed.

Lemma map_filter_loop xs : forall u fuel n log u1 u' e,
  yields up_anext u xs u1 -> up_anext u1 = (u', Throw e) ->
  Forall clean xs ->
  length xs < fuel -> length xs < F ->
  length (concat (map given xs)) <= n ->
  drive_from (__anext__ up_anext F f)
             (loop up_anext fuel (MapAiter.call f) u log) n =
    (concat (map given xs), ending_of e,
     State u' None true (log ++ concat (map entry xs))).
Proof.
  induction xs as [|x xs IH]; intros u fuel n log u1 u' e Hy He Hc Hfuel HF Hn;
    (destruct fuel as [|fuel]; [cbn in Hfuel; lia|]); cbn [loop].
  - cbn in Hy. subst u1. rewrite He, drive_from_throw. cbn.
    by rewrite app_nil_r.
  - destruct Hy as (v & Hv & Hy). rewrite Hv.
    apply Forall_cons in Hc as [Hc1 Hc].
    cbn [length] in Hfuel, HF. cbn [map concat] in Hn |- *.
    unfold given at 1 in Hn. unfold given at 1, entry at 1.
    unfold clean in Hc1. unfold on_item.
    destruct (MapAiter.call f x) as [[els fl]|e'] eqn:Hx.
    + cbn [elements failure] in *. destruct els as [|y ys].
      * rewrite for_next_done by done. cbn [app] in Hn |- *.
        rewrite (IH v fuel n _ u1 u' e); try done; try lia.
        by rewrite <- app_assoc.
      * cbn [for_next elements failure drive_from].
        rewrite (map_filter_inner v u' fl (concat (map given xs)) (ending_of e)
                   (concat (map entry xs))); try done.
        -- by rewrite last_cur_cons.
        -- intros m log' Hm. apply (IH v F m log' u1 u' e); try done; lia.
    + rewrite Hc1. cbn [app] in Hn |- *.
      rewrite (IH v fuel n _ u1 u' e); try done; try lia.
      by rewrite <- app_assoc.
Qed.

(** Over an upstream that gives the items [xs] and then ends, the stream
    gives the elements of the results and ends as the upstream does. *)
Lemma map_filter_run u xs en u' n0 n :
  aiter_to_iter up_anext n0 u = (xs, en, u') -> en <> Unfinished ->
  Forall clean xs ->
  length xs < F ->
  length (concat (map given xs)) < n ->
  aiter_to_iter (__anext__ up_anext F f) n (map_filter_aiter u) =
    (concat (map given xs), en, State u' None true (concat (map entry xs))).
Proof.
  intros Hrun Hen Hc HF Hn.
  destruct (driven_yields _ _ _ _ _ _ Hrun Hen) as (u1 & e & Hy & He & ->).
  destruct n as [|n]; [lia|]. rewrite drive_S, map_filter_unfold.
  cbn [map_filter_aiter finished resume in_for upstream logged].
  apply (map_filter_loop xs u F n [] u1 u' e); try done. lia.
Qed.

End WithUpstream.
End MapFilterFacts.

(** ** azip over two upstreams *)
Module AzipOverFacts.
Import AzipOver StreamFacts.
Section WithUpstream.
Context {U A : Type}.
Variable up_anext : U -> U * resumed A running.

(** The tuples of two lists of items. *)
Definition pairs (xs ys : list A) : list (list A) :=
  zip_with (fun x y => [x; y]) xs ys.

Lemma advance_pair i0 i1 :
  advance up_anext [i0; i1] =
    match up_anext i0 with
    | (j0, Return x) =>
        match up_anext i1 with
        | (j1, Return y) => ([j0; j1], Return [x; y])
        | (j1, Throw e) => ([j0; j1], Throw e)
        | (j1, Await k) => ([j0; j1], Await k)
        end
    | (j0, Throw e) => ([j0; i1], Throw e)
    | (j0, Await k) => ([j0; i1], Await k)
    end.
Proof.
  cbn [advance]. destruct (up_anext i0) as [j0 [x|e|k]]; try done.
  by destruct (up_anext i1) as [j1 [y|e|k]].
Qed.

Lemma anext_throw (inputs inputs' : list U) e :
  advance up_anext inputs = (inputs', Throw e) ->
  __anext__ up_anext (State inputs false) = (State inputs' true, Throw e).
Proof. intros H. unfold __anext__. cbn. rewrite H. by destruct e. Qed.

Lemma anext_return (inputs inputs' : list U) tuple :
  advance up_anext inputs = (inputs', Return tuple) ->
  __anext__ up_anext (State inputs false) = (State inputs' false, Return tuple).
Proof. intros H. unfold __anext__. cbn. by rewrite H. Qed.

(** The first stream ends first, or both have the same number of items:
    the generator ends as the first stream does, and the second stream is
    left after as many items as the first has given. *)
Lemma azip_left_ends xs : forall ys i0 i1 m0 j0 m1 e n,
  yields up_anext i0 xs m0 -> up_anext m0 = (j0, Throw e) ->
  yields up_anext i1 ys m1 -> length ys = length xs ->
  length xs < n ->
  aiter_to_iter (__anext__ up_anext) n (azip [i0; i1]) =
    (pairs xs ys, ending_of e, State [j0; m1] true).
Proof.
  induction xs as [|x xs IH]; intros ys i0 i1 m0 j0 m1 e n Hx He Hy Hlen Hn;
    (destruct n as [|n]; [cbn in Hn; lia|]); rewrite drive_S; unfold azip.
  - destruct ys; [|done]. cbn in Hx, Hy. subst m0 m1.
    rewrite (anext_throw [i0; i1] [j0; i1] e).
    + apply drive_from_throw.
    + rewrite advance_pair. by rewrite He.
  - destruct ys as [|y ys]; [done|].
    destruct Hx as (k0 & Hk0 & Hx). destruct Hy as (k1 & Hk1 & Hy).
    rewrite (anext_return [i0; i1] [k0; k1] [x; y])
      by (by rewrite advance_pair, Hk0, Hk1).
    cbn [drive_from pairs zip_with]. fold (azip [k0; k1]). fold (pairs xs ys).
    rewrite (IH ys k0 k1 m0 j0 m1 e n); try done.
    + by injection Hlen.
    + cbn in Hn. lia.
Qed.

(** The second stream ends first: the generator ends as it does, and the
    first stream has given one item more than there are tuples. *)
Lemma azip_right_ends xs : forall x ys i0 i1 m0 m1 j1 e n,
  yields up_anext i0 (xs ++ [x]) m0 ->
  yields up_anext i1 ys m1 -> up_anext m1 = (j1, Throw e) ->
  length ys = length xs ->
  length xs < n ->
  aiter_to_iter (__anext__ up_anext) n (azip [i0; i1]) =
    (pairs xs ys, ending_of e, State [m0; j1] true).
Proof.
  induction xs as [|x' xs IH]; intros x ys i0 i1 m0 m1 j1 e n Hx Hy He Hlen Hn;
    (destruct n as [|n]; [cbn in Hn; lia|]); rewrite drive_S; unfold azip.
  - destruct ys; [|done]. cbn in Hy. subst m1.
    destruct Hx as (k0 & Hk0 & Hx). cbn in Hx. subst k0.
    rewrite (anext_throw [i0; i1] [m0; j1] e).
    + apply drive_from_throw.
    + rewrite advance_pair. by rewrite Hk0, He.
  - destruct ys as [|y ys]; [done|].
    destruct Hx as (k0 & Hk0 & Hx). destruct Hy as (k1 & Hk1 & Hy).
    rewrite (anext_return [i0; i1] [k0; k1] [x'; y])
      by (by rewrite advance_pair, Hk0, Hk1).
    cbn [drive_from pairs zip_with]. fold (azip [k0; k1]). fold (pairs xs ys).
    rewrite (IH x ys k0 k1 m0 m1 j1 e n); try done.
    + by injection Hlen.
    + cbn in Hn. lia.
Qed.

Lemma firsts_pairs (xs ys : list A) (g : list A -> option A) :
  (forall x y, g [x; y] = Some x) ->
  length xs <= length ys -> omap g (pairs xs ys) = xs.
Proof.
  intros Hg. revert ys. induction xs as [|x xs IH]; intros [|y ys] Hlen;
    try done; [cbn in Hlen; lia|].
  cbn. rewrite Hg. f_equal. apply IH. cbn in Hlen. lia.
Qed.

Lemma length_pairs (xs ys : list A) :
  length (pairs xs ys) = Nat.min (length xs) (length ys).
Proof. apply length_zip_with. Qed.

Lemma pairs_take_r (xs ys : list A) : pairs xs (take (length xs) ys) = pairs xs ys.
Proof.
  revert ys. induction xs as [|x xs IH]; intros [|y ys]; try done.
  cbn. f_equal. apply IH.
Qed.

Lemma pairs_take_l (xs ys : list A) : pairs (take (length ys) xs) ys = pairs xs ys.
Proof.
  revert ys. induction xs as [|x xs IH]; intros [|y ys]; try done.
  cbn. f_equal. apply IH.
Qed.

(** Two streams that give [xs] and [ys] and then end: the tuples, how the
    generator ends, and how far each stream has been advanced. *)
Lemma azip_two_run i0 xs en0 j0 n0 i1 ys en1 j1 n1 :
  aiter_to_iter up_anext n0 i0 = (xs, en0, j0) -> en0 <> Unfinished ->
  aiter_to_iter up_anext n1 i1 = (ys, en1, j1) -> en1 <> Unfinished ->
  aiter_to_iter (__anext__ up_anext)
                (S (Nat.min (length xs) (length ys))) (azip [i0; i1]) =
    (pairs xs ys,
     (if length xs <=? length ys then en0 else en1),
     State [(aiter_to_iter up_anext (S (length ys)) i0).2;
            (aiter_to_iter up_anext (length xs) i1).2] true).
Proof.
  intros H0 Hen0 H1 Hen1.
  destruct (driven_yields _ _ _ _ _ _ H0 Hen0) as (m0 & e0 & Hy0 & He0 & ->).
  destruct (driven_yields _ _ _ _ _ _ H1 Hen1) as (m1 & e1 & Hy1 & He1 & ->).
  destruct (length xs <=? length ys) eqn:Hcmp.
  - apply Nat.leb_le in Hcmp.
    destruct (yields_take up_anext (length xs) ys _ _ Hy1) as (k1 & Hk1 & _).
    assert (Hl : length (take (length xs) ys) = length xs)
      by (rewrite length_take; lia).
    rewrite (azip_left_ends xs (take (length xs) ys) i0 i1 m0 j0 k1 e0);
      try done; [|lia].
    rewrite pairs_take_r.
    rewrite (yields_driven up_anext xs i0 m0 j0 e0 (S (length ys)));
      [|done..|lia].
    assert (Hu := yields_unfinished up_anext _ _ _ Hk1). rewrite Hl in Hu.
    by rewrite Hu.
  - apply Nat.leb_gt in Hcmp.
    destruct (yields_take up_anext (S (length ys)) xs _ _ Hy0) as (k0 & Hk0 & _).
    destruct (lookup_lt_is_Some_2 xs (length ys) Hcmp) as [x Hx].
    assert (Hl : length (take (length ys) xs) = length ys)
      by (rewrite length_take; lia).
    assert (Hu := yields_unfinished up_anext _ _ _ Hk0).
    rewrite length_take in Hu.
    replace (S (length ys) `min` length xs) with (S (length ys)) in Hu by lia.
    rewrite (take_S_r _ _ _ Hx) in Hk0.
    rewrite <- (pairs_take_l xs ys).
    rewrite (azip_right_ends (take (length ys) xs) x ys i0 i1 k0 m1 j1 e1);
      try done; [|lia].
    rewrite Hu.
    by rewrite (yields_driven up_anext ys i1 m1 j1 e1 (length xs)).
Qed.

End WithUpstream.
End AzipOverFacts.

(** ** rated_aiter *)
Module RatedFacts.
Import Rated StreamFacts.
Section WithStreams.
Context {UA UR A : Type}.
Variable aiter_anext : UA -> UA * resumed (value A) running.
Variable rate_anext : UR -> UR * resumed (value A) running.
Variable F : nat.

(** The number of items that a value of the rate limiter lets through. *)
Definition allowed (v : value A) : nat :=
  match v with
  | Int n => Z.to_nat n
  | Obj _ => 0
  end.

Definition allowance (rates : list (value A)) : nat :=
  sum_list (map allowed rates).

Local Notation "'tokens_anext'" := (MapFilter.__anext__ rate_anext F range_f).
Local Notation "'zip_anext'" :=
  (AzipOver.__anext__ (input_anext aiter_anext rate_anext F)).

Lemma range_clean (v : value A) : MapFilterFacts.clean range_f v.
Proof. unfold MapFilterFacts.clean. by destruct v. Qed.

Lemma length_given (v : value A) :
  length (MapFilterFacts.given range_f v) = allowed v.
Proof.
  unfold MapFilterFacts.given. destruct v as [n|a]; cbn; [|done].
  by rewrite length_map, length_seqZ.
Qed.

Lemma length_tokens (rates : list (value A)) :
  length (concat (map (MapFilterFacts.given range_f) rates)) = allowance rates.
Proof.
  unfold allowance. induction rates as [|v rates IH]; [done|].
  cbn. by rewrite length_app, length_given, IH.
Qed.

(** The stream of tokens: one token per unit of every integer that the
    rate limiter gives. *)
Lemma tokens_run r rates en r' n0 :
  aiter_to_iter rate_anext n0 r = (rates, en, r') -> en <> Unfinished ->
  length rates < F ->
  exists toks t1 t' e,
    length toks = allowance rates /\
    yields tokens_anext (MapFilter.map_filter_aiter r) toks t1 /\
    tokens_anext t1 = (t', Throw e) /\ en = ending_of e.
Proof.
  intros Hrun Hen HF.
  assert (Hd := MapFilterFacts.map_filter_run rate_anext F range_f r rates en r'
                  n0 (S (allowance rates)) Hrun Hen).
  rewrite length_tokens in Hd. specialize (Hd ltac:(apply Forall_forall; intros; apply range_clean) HF ltac:(lia)).
  destruct (driven_yields _ _ _ _ _ _ Hd Hen) as (t1 & e & Hy & He & ->).
  eexists _, t1, _, e. split; [apply length_tokens|]. by split.
Qed.

Lemma yields_Items xs : forall a m,
  yields aiter_anext a xs m ->
  yields (input_anext aiter_anext rate_anext F) (Items a) xs (Items m).
Proof.
  induction xs as [|x xs IH]; intros a m; cbn.
  - by intros ->.
  - intros (v & Hv & Hy). exists (Items v). split; [by rewrite Hv|]. by apply IH.
Qed.

Lemma yields_Tokens xs : forall t m,
  yields tokens_anext t xs m ->
  yields (input_anext aiter_anext rate_anext F) (Tokens t) xs (Tokens m).
Proof.
  induction xs as [|x xs IH]; intros t m; cbn [yields].
  - by intros ->.
  - intros (v & Hv & Hy). exists (Tokens v). split; [|by apply IH].
    cbn [input_anext]. by rewrite Hv.
Qed.

Lemma first_total (xs ys : list (value A)) t :
  t ∈ AzipOverFacts.pairs xs ys -> exists y, MapAiter.call first t = Ok y.
Proof.
  revert ys. induction xs as [|x xs IH]; intros [|y ys] Ht; cbn in Ht;
    try (by apply not_elem_of_nil in Ht).
  apply elem_of_cons in Ht as [->|Ht]; [by eexists|]. by eapply IH.
Qed.

Lemma rated_run a items ena a' na r rates enr r' nr :
  aiter_to_iter aiter_anext na a = (items, ena, a') -> ena <> Unfinished ->
  aiter_to_iter rate_anext nr r = (rates, enr, r') -> enr <> Unfinished ->
  length rates < F ->
  exists tokens',
    aiter_to_iter (__anext__ aiter_anext rate_anext F)
                  (S (Nat.min (allowance rates) (length items)))
                  (rated_aiter r a) =
      (take (allowance rates) items,
       (if length items <=? allowance rates then ena else enr),
       MapOver.State
         (AzipOver.State
            [Items (aiter_to_iter aiter_anext (S (allowance rates)) a).2;
             Tokens tokens'] true)
         true []).
Proof.
  intros Ha Hena Hr Henr HF.
  destruct (driven_yields _ _ _ _ _ _ Ha Hena) as (ma & ea & Hya & Hea & ->).
  destruct (tokens_run r rates enr r' nr Hr Henr HF)
    as (toks & t1 & t' & er & Hlen & Hyt & Het & ->).
  set (T := allowance rates) in *.
  assert (Hfirst : forall xs ys : list (value A), length xs <= length ys ->
            omap (MapAiterFacts.returned first) (AzipOverFacts.pairs xs ys) = xs).
  { intros xs ys. by apply AzipOverFacts.firsts_pairs. }
  unfold rated_aiter, __anext__.
  destruct (length items <=? T) eqn:Hcmp.
  - apply Nat.leb_le in Hcmp.
    destruct (yields_take tokens_anext (length items) toks _ _ Hyt)
      as (m1 & Hy1 & _).
    assert (Hl1 : length (take (length items) toks) = length items)
      by (rewrite length_take; lia).
    assert (Hz := AzipOverFacts.azip_left_ends
                    (input_anext aiter_anext rate_anext F) items
                    (take (length items) toks) (Items a)
                    (Tokens (MapFilter.map_filter_aiter r)) (Items ma) (Items a')
                    (Tokens m1) ea (S (length items))
                    (yields_Items _ _ _ Hya)
                    ltac:(cbn [input_anext]; by rewrite Hea)
                    (yields_Tokens _ _ _ Hy1) Hl1 ltac:(lia)).
    exists m1.
    rewrite (MapOverFacts.map_over_total_run zip_anext F first _ _ _ _ _ _ Hz);
      [|apply ending_of_finished|intros t Ht; by eapply first_total|lia|].
    + rewrite Hfirst by lia. rewrite take_ge by lia.
      rewrite (yields_driven aiter_anext items a ma a' ea (S T)); [done..|lia].
    + rewrite AzipOverFacts.length_pairs. lia.
  - apply Nat.leb_gt in Hcmp.
    destruct (yields_take aiter_anext (S T) items _ _ Hya) as (m0 & Hy0 & _).
    destruct (lookup_lt_is_Some_2 items T Hcmp) as [x Hx].
    assert (Hl0 : length (take T items) = T) by (rewrite length_take; lia).
    rewrite (take_S_r _ _ _ Hx) in Hy0.
    assert (Hz := AzipOverFacts.azip_right_ends
                    (input_anext aiter_anext rate_anext F) (take T items) x
                    toks (Items a) (Tokens (MapFilter.map_filter_aiter r))
                    (Items m0) (Tokens t1) (Tokens t') er (S T)
                    (yields_Items _ _ _ Hy0)
                    (yields_Tokens _ _ _ Hyt)
                    ltac:(cbn [input_anext]; by rewrite Het)
                    ltac:(lia) ltac:(lia)).
    exists t'.
    rewrite (MapOverFacts.map_over_total_run zip_anext F first _ _ _ _ _ _ Hz);
      [|apply ending_of_finished|intros t Ht; by eapply first_total|lia|].
    + rewrite Hfirst by lia.
      rewrite <- (take_S_r _ _ _ Hx) in Hy0.
      assert (Hu := yields_unfinished aiter_anext _ _ _ Hy0).
      rewrite length_take in Hu.
      replace (S T `min` length items) with (S T) in Hu by lia.
      by rewrite Hu.
    + rewrite AzipOverFacts.length_pairs. lia.
Qed.

End WithStreams.
End RatedFacts.

(* ================================================================== *)
(** * The properties of the specification                              *)
(* ================================================================== *)

Module Properties.

(** ** Linked stream and push producer *)
Section LinkedProperties.
Import Linked LinkedFacts.
Context {A : Type}.

(** C1 (split): the claim is that every cursor obtained from [split]
    replays the pushed items.  In the source [split] reads [self.tail], an
    attribute that neither [linked_aiter] nor [push_aiter] defines (the
    attribute is [_tail]): on every object, in every world, active or not,
    the call raises [AttributeError] and no cursor is obtained. *)
Theorem split_raises_AttributeError (w : world A) (self : object)
    (is_active : bool) :
  split w self is_active = Raise AttributeError.
Proof.
  unfold split. by rewrite getattr_tail_missing.
Qed.

(** C9 (no backpressure): on a producer that has not been stopped,
    whatever was pushed before and however the cursors have advanced,
    [push] and [push_nowait] succeed at once, [push] without parking, and
    any number of further items can be pushed: each push appends one future
    to the chain. *)
Theorem push_never_blocks (w0 : world A) (ops : list op) (items : list A) :
  let s := run (push_aiter_init w0) ops in
  cancelled (futures s.1) (_head s.2) = false ->
  (forall x, exists r,
     push s.1 s.2 x = Return r /\ push_nowait s.1 s.2 x = Ok r) /\
  exists w' p',
    push_all s.1 s.2 items = Ok (w', p') /\
    chain (futures w') (_head s.2) items (_head p') /\
    length (futures w') = length (futures s.1) + length items /\
    cancelled (futures w') (_head p') = false.
Proof.
  intros s Hc.
  destruct (head_ok_run ops _ (head_ok_init w0)) as [Hlt Hst]. fold s in Hlt, Hst.
  assert (Hp : state_of (futures s.1) (_head s.2) = Pending).
  { destruct Hst as [Hst|Hst]; [done|]. unfold cancelled in Hc.
    by rewrite Hst in Hc. }
  split.
  - intros x. unfold push. rewrite push_nowait_pending by done. eauto.
  - destruct (push_all_chain items s.1 s.2 Hlt Hp)
      as (w' & p' & Hrun & Hch & _ & Hlen & _ & Hst' & _).
    exists w', p'. repeat split; try done.
    unfold cancelled. by rewrite Hst'.
Qed.

End LinkedProperties.

Lemma push_never_blocks_witness :
  let s := Linked.run (Linked.push_aiter_init (Linked.World [] []))
             [Linked.OpPush 7; Linked.OpAnext Linked.AtLock] in
  Linked.cancelled (Linked.futures s.1) (Linked._head s.2) = false /\
  exists w' p',
    Linked.push_all s.1 s.2 [8; 9] = Ok (w', p') /\
    length (Linked.futures w') = length (Linked.futures s.1) + 2.
Proof.
  split; [reflexivity|].
  destruct (push_never_blocks (Linked.World [] [])
              [Linked.OpPush 7; Linked.OpAnext Linked.AtLock] [8; 9]
              eq_refl) as (_ & w' & p' & Hrun & _ & Hlen & _).
  exists w', p'. split; [exact Hrun|exact Hlen].
Defined.

(** ** Pushing into a stopped stream *)
Section StoppedProperties.
Context {A : Type}.

(** C7 (closed-stream error): after [stop], whatever was done before and
    whatever is done afterwards, a push of an item raises [ValueError] to
    its caller, for [push] and [push_nowait] of a [push_aiter] and of a
    [q_aiter]; the stream is left as it was. *)
Theorem push_after_stop_raises :
  (forall (w0 : Linked.world A) ops1 ops2 x,
     let s := Linked.run
                (Linked.apply (Linked.run (Linked.push_aiter_init w0) ops1)
                              Linked.OpStop) ops2 in
     Linked.push_nowait s.1 s.2 x = Raise ValueError /\
     Linked.push s.1 s.2 x = Throw ValueError) /\
  (forall (q0 : QAiter.q_aiter A) ops1 ops2 x rest,
     let q := QAiter.run (QAiter.stop (QAiter.run q0 ops1)) ops2 in
     QAiter.push q (x :: rest) = (q, Throw ValueError) /\
     QAiter.push_nowait q (x :: rest) = Raise ValueError).
Proof.
  split.
  - intros w0 ops1 ops2 x s.
    apply LinkedFacts.push_stopped, LinkedFacts.stopped_after_stop_run.
  - intros q0 ops1 ops2 x rest q.
    assert (Hs : QAiter._stopping q = true).
    { apply QAiterFacts.run_keeps_stopping, QAiterFacts.stop_stopping. }
    split.
    + by apply QAiterFacts.push_stopping.
    + by apply QAiterFacts.push_nowait_stopping.
Qed.

End StoppedProperties.

(** ** Bounded queue stream *)
Section QueueProperties.
Import QAiter QAiterFacts Pipe PipeFacts.
Context {A : Type}.


End QueueProperties.






(** ** map_aiter *)

(** Python values for the example: integers and strings. *)
Inductive pyval : Type :=
| PyInt (z : Z)
| PyStr (s : string).

(** A mapping function that doubles a number and raises on anything
    else. *)
Definition double : MapAiter.map_fn pyval pyval :=
  MapAiter.MapFn false
    (fun v => match v with
              | PyInt z => Ok (PyInt (2 * z))
              | PyStr _ => Raise TypeError
              end).

(** A mapping function that raises [KeyboardInterrupt]. *)
Definition interrupted : MapAiter.map_fn pyval pyval :=
  MapAiter.MapFn false (fun _ => Raise KeyboardInterrupt).

Section MapProperties.
Import MapAiter MapAiterFacts.

(** The per-item isolation that the claim describes: driven to its end, the
    stream gives the results of the calls that return, in order, has logged
    the calls that raise, and ends with end-of-sequence. *)
Definition isolates {A B} (f : map_fn A B) (items : list A) : Prop :=
  aiter_to_iter (__anext__ f) (S (length items)) (map_aiter items) =
    (omap (returned f) items, Exhausted,
     State [] true (omap (raised f) items)).

(** C6 (map error isolation), as the source has it: [except Exception]
    catches the instances of [Exception].  For every input stream and every
    mapping function, plain or coroutine, whose exceptions on the items are
    instances of [Exception], each failing item is logged and dropped and
    the output goes on with the next item; on [[1, "x", 2]] with the
    doubling function the output is [[2, 4]]. *)
Theorem map_aiter_isolates_Exceptions :
  (forall A B (f : map_fn A B) (items : list A),
     (forall x e, x ∈ items -> call f x = Raise e ->
        isinstance_Exception e = true) ->
     isolates f items) /\
  aiter_to_iter (__anext__ double) 4
    (map_aiter [PyInt 1; PyStr "x"; PyInt 2]) =
    ([PyInt 2; PyInt 4], Exhausted,
     State [] true [(TypeError, PyStr "x")]).
Proof.
  split; [|reflexivity].
  intros A B f items Hexc. unfold isolates, map_aiter.
  rewrite (run_catches f items (S (length items)) []); [done|lia|done].
Qed.

End MapProperties.

Lemma map_aiter_isolates_Exceptions_witness :
  (forall x e, x ∈ [PyInt 1; PyStr "x"; PyInt 2] ->
     MapAiter.call double x = Raise e -> isinstance_Exception e = true) /\
  isolates double [PyInt 1; PyStr "x"; PyInt 2].
Proof.
  assert (H : forall x e, x ∈ [PyInt 1; PyStr "x"; PyInt 2] ->
            MapAiter.call double x = Raise e ->
            isinstance_Exception e = true).
  { intros x e _. destruct x; simpl; intros [= <-]; reflexivity. }
  split; [exact H|].
  exact (proj1 map_aiter_isolates_Exceptions _ _ double _ H).
Defined.

(** C6, the claim as stated, fails: [KeyboardInterrupt] is not an instance
    of [Exception], so a mapping function that raises it on the item [1]
    ends the stream with that exception instead of dropping the item. *)
Lemma map_aiter_lets_KeyboardInterrupt_through :
  aiter_to_iter (MapAiter.__anext__ interrupted) 2
    (MapAiter.map_aiter [PyInt 1]) =
    ([], Failed KeyboardInterrupt, MapAiter.State [] true []) /\
  ~ isolates interrupted [PyInt 1].
Proof.
  split; [reflexivity|]. unfold isolates. intros H. discriminate H.
Qed.

(** ** azip *)
Section AzipProperties.
Import Azip AzipFacts.
Context {A : Type}.

(** C8 (zip short-circuit): for finite input streams, at least one,
    [azip] gives one tuple per round, as many as the shortest input has
    items; the tuple of round [k] holds the [k]-th item of every input.
    It ends in the round where the first shortest input ends: the inputs
    at its right are not advanced in that round, and once the generator
    has ended no input is advanced again.  A stream of length 3 zipped
    with a stream of length 5 gives exactly 3 tuples, then ends. *)
Theorem azip_ends_with_shortest (aiters : list (list A)) :
  aiters <> [] ->
  (exists ahead l0 behind out final,
     aiters = ahead ++ l0 :: behind /\
     Forall (fun l => length l0 < length l) ahead /\
     Forall (fun l => length l0 <= length l) behind /\
     aiter_to_iter __anext__ (S (length l0)) (azip aiters) =
       (out, Exhausted, final) /\
     length out = length l0 /\
     (forall k, k < length l0 ->
        exists tuple, out !! k = Some tuple /\
          Forall2 (fun l x => l !! k = Some x) aiters tuple) /\
     anext_list final =
       map (fun l => Input (drop (S (length l0)) l) (S (length l0)))
           (ahead ++ [l0])
       ++ map (fun l => Input (drop (length l0) l) (length l0)) behind /\
     __anext__ final = (final, Throw StopAsyncIteration)) /\
  (forall a b : list A,
     length a = 3 -> length b = 5 ->
     exists out final,
       aiter_to_iter __anext__ 4 (azip [a; b]) = (out, Exhausted, final) /\
       length out = 3 /\
       __anext__ final = (final, Throw StopAsyncIteration)).
Proof.
  intros Hne.
  split.
  - destruct (first_shortest aiters Hne) as (ahead & l0 & behind & -> & Ha & Hb).
    eexists ahead, l0, behind, _, _. split; [done|]. split; [done|].
    split; [done|]. split; [by apply run_azip|].
    split; [apply rows_length|]. split; [|split; [done|by apply azip_anext_finished]].
    intros k Hk. eexists. split; [by apply rows_lookup|].
    apply omap_lookup_all. apply Forall_app. split; [|constructor].
    + eapply Forall_impl; [exact Ha|]. cbn. lia.
    + done.
    + eapply Forall_impl; [exact Hb|]. cbn. lia.
  - intros a b Hla Hlb.
    assert (Hrun := run_azip [] a [b]). cbn [app] in Hrun. rewrite Hla in Hrun.
    eexists _, _. split; [apply Hrun|].
    + constructor.
    + constructor; [lia|constructor].
    + split; [apply rows_length|by apply azip_anext_finished].
Qed.

End AzipProperties.

Lemma azip_ends_with_shortest_witness :
  [[1; 2; 3]; [10; 20; 30; 40; 50]] <> [] /\
  exists out final,
    aiter_to_iter Azip.__anext__ 4
      (Azip.azip [[1; 2; 3]; [10; 20; 30; 40; 50]]) = (out, Exhausted, final) /\
    length out = 3.
Proof.
  split; [discriminate|].
  destruct (proj2 (azip_ends_with_shortest
                     [[1; 2; 3]; [10; 20; 30; 40; 50]] ltac:(discriminate))
              [1; 2; 3] [10; 20; 30; 40; 50] eq_refl eq_refl)
    as (out & final & Hrun & Hlen & _).
  exists out, final. split; [exact Hrun|exact Hlen].
Defined.

(** ** aiter_forker *)
Section ForkerProperties.
Import QAiter QAiterFacts Forker ForkerFacts.
Context {A : Type}.

Lemma reachable_inv (upstream : list A) ls :
  inv upstream None (run ls (aiter_forker upstream)).
Proof. apply run_inv, inv_init. Qed.

(** C4 (single-flight fetch): whatever forks exist and however their
    consumers are scheduled, at most one call of the upstream's
    [__anext__] is in flight, and it is in flight exactly while the
    semaphore is taken.  A consumer that advances a fork while a fetch is in
    flight issues no upstream call: if its fork is active with an empty
    buffer it parks on the semaphore, and it cannot be resumed before the
    fetch has returned.  When the forks are created first and then
    drained, the upstream is advanced at most once per item produced, plus
    once for the terminal signal. *)
Theorem forker_single_flight (upstream : list A) :
  (forall ls,
     let s := run ls (aiter_forker upstream) in
     in_flight s <= 1 /\ in_flight s + _is_fetching s = 1) /\
  (forall ls i f,
     let s := run ls (aiter_forker upstream) in
     in_flight s = 1 -> forks s !! i = Some f ->
     (forall s', step (Advance i) s = Some s' ->
        issued s' = issued s /\ in_flight s' = 1) /\
     (pc f = FIdle -> is_active f = true ->
      Queue.empty (_q (aiter f)) = true -> _stopping (aiter f) = false ->
      step (Advance i) s = Some (set_fork s i (set_pc f FAtLock))) /\
     (pc f = FAtLock -> step (Resume i) s = None)) /\
  (forall setup drain,
     forallb creating setup = true -> forallb draining drain = true ->
     let s := run (setup ++ drain) (aiter_forker upstream) in
     issued s <= length (fetched s) + 1 /\
     length (fetched s) <= length upstream).
Proof.
  split; [|split].
  - intros ls s. destruct (reachable_inv upstream ls) as [Hsem _ _ _ _ _ _ _ _].
    fold s in Hsem. lia.
  - intros ls i f s Hin Hf.
    destruct (reachable_inv upstream ls) as [Hsem _ _ _ _ _ _ _ _].
    fold s in Hsem.
    assert (Hlocked : Semaphore.locked (_is_fetching s) = true).
    { unfold Semaphore.locked. replace (_is_fetching s) with 0 by lia. done. }
    split; [|split].
    + intros s' Hstep. cbn [step] in Hstep. rewrite Hf in Hstep.
      destruct (pc f); try done.
      destruct (is_active f); simplify_eq; [|done].
      unfold active_forked_anext, _fetch_next. rewrite Hlocked.
      by destruct (Queue.empty _ && negb _).
    + intros Hpc Hact Hemp Hns. cbn [step]. rewrite Hf, Hpc, Hact.
      unfold active_forked_anext, _fetch_next. by rewrite Hemp, Hns, Hlocked.
    + intros Hpc. cbn [step]. rewrite Hf, Hpc.
      unfold Semaphore.try_acquire. by rewrite Hlocked.
  - intros setup drain Hsetup Hdrain s. unfold s. rewrite run_app.
    destruct (run_creating setup (aiter_forker upstream)) as [Hd0 _];
      [apply drain_init|done|done|].
    assert (Hinv0 := reachable_inv upstream setup).
    assert (Hd := run_drain upstream drain _ Hinv0 Hd0 Hdrain).
    assert (Hinv := run_inv upstream drain _ Hinv0).
    destruct Hinv as [Hsem Hiss Hup _ _ _ _ _ _].
    destruct Hd as [_ Hterm Hdone]. split.
    + destruct (terminal _) as [|[|t]] eqn:Et; [lia| |lia].
      destruct Hdone as [Hz _]; lia.
    + apply (f_equal length) in Hup. rewrite length_app in Hup. lia.
Qed.

(** C5 (fan-out), as the source has it.  In every state of the system,
    when the upstream returns a value to the fork that fetches, the step is
    taken, the value is recorded as fetched and, for every fork that is
    registered, active or passive, it is appended to the buffer if the
    buffer has room and dropped if the buffer is full, while the stream of
    a fork that is not registered is left as it is; when the upstream
    raises the end of the sequence, the step is taken and every registered
    fork is stopped.  So a registered fork with an unbounded buffer
    observes, in upstream order, every value fetched since its
    registration, after the items that its queue was created with, and has
    seen them all when it ends; two such forks registered at the same moment
    with equal queues observe the identical sequence. *)
Theorem forks_observe_fetched_values (upstream : list A) ls
    (s := run ls (aiter_forker upstream)) :
  (forall i f x rest,
     forks s !! i = Some f -> pc f = FAtUpstream ->
     _open_aiter s = x :: rest ->
     exists s',
       step (Resume i) s = Some s' /\
       fetched s' = fetched s ++ [x] /\
       forall j g, forks s !! j = Some g ->
         exists g',
           forks s' !! j = Some g' /\
           if decide (j ∈ _outputs s) then
             _stopping (aiter g') = false /\
             Queue.items (_q (aiter g')) =
               Queue.items (_q (aiter g)) ++
               (if full (aiter g) then [] else [x]) /\
             dropped (aiter g') =
               dropped (aiter g) ++ (if full (aiter g) then [x] else [])
           else aiter g' = aiter g) /\
  (forall i f,
     forks s !! i = Some f -> pc f = FAtUpstream -> _open_aiter s = [] ->
     exists s',
       step (Resume i) s = Some s' /\
       terminal s' = S (terminal s) /\
       forall j g, forks s !! j = Some g -> j ∈ _outputs s ->
         exists g',
           forks s' !! j = Some g' /\ _stopping (aiter g') = true) /\
  (forall i f, forks s !! i = Some f -> i ∈ _outputs s -> unbounded f ->
     observed f = preloaded f ++ drop (registered_at f) (fetched s) /\
     (pc f = FEnded ->
      seen f = preloaded f ++ drop (registered_at f) (fetched s))) /\
  (forall i j fi fj,
     forks s !! i = Some fi -> forks s !! j = Some fj ->
     i ∈ _outputs s -> j ∈ _outputs s -> unbounded fi -> unbounded fj ->
     preloaded fi = preloaded fj -> registered_at fi = registered_at fj ->
     observed fi = observed fj).
Proof.
  assert (Hinv := reachable_inv upstream ls). fold s in Hinv.
  assert (Hobs : forall i f, forks s !! i = Some f -> i ∈ _outputs s ->
            unbounded f ->
            observed f = preloaded f ++ drop (registered_at f) (fetched s)).
  { intros i f Hf Hi Hu. by apply (inv_forks _ _ _ Hinv i f Hf). }
  split; [|split; [|split]].
  - intros i f x rest Hf Hpc Hop.
    assert (Ht : terminal s = 0).
    { destruct (terminal s) eqn:E; [done|].
      assert (0 < terminal s) as Hc%(inv_closed _ _ _ Hinv) by lia.
      congruence. }
    destruct (fetch_returns_item upstream s i f x rest Hinv Hf Hpc Hop)
      as (s' & Hstep & Hfe & _ & Hforks).
    exists s'. split; [done|]. split; [done|].
    intros j g Hg. destruct (Hforks j g Hg) as (g' & Hg' & Hai).
    exists g'. split; [done|].
    destruct (decide (j ∈ _outputs s)); [|done].
    assert (Hcb := fo_callback _ _ _ (inv_forks _ _ _ Hinv j g Hg)).
    assert (Hns := inv_open _ _ _ Hinv Ht j g Hg).
    rewrite Hai. unfold accept. rewrite Hcb.
    destruct (full (aiter g)); cbn; by rewrite ?app_nil_r.
  - intros i f Hf Hpc Hop.
    destruct (fetch_returns_end upstream s i f Hinv Hf Hpc Hop)
      as (s' & Hstep & Hte & _ & Hforks).
    exists s'. split; [done|]. split; [done|].
    intros j g Hg Hj. destruct (Hforks j g Hg) as (g' & Hg' & Hst).
    exists g'. split; [done|]. by rewrite decide_True in Hst.
  - intros i f Hf Hi Hu. split; [by eapply Hobs|].
    intros Hpc. rewrite <- (Hobs i f Hf Hi Hu). unfold observed.
    destruct (fo_ended _ _ _ (inv_forks _ _ _ Hinv i f Hf) Hpc) as [_ ->].
    rewrite Hpc. cbn. by rewrite app_nil_r.
  - intros i j fi fj Hfi Hfj Hi Hj Hui Huj Hpre Hreg.
    rewrite (Hobs i fi), (Hobs j fj) by done. by rewrite Hpre, Hreg.
Qed.

(** C10 (default forks never drop): a fork created by [new_fork] with the
    default [q] and [maxsize] gets an empty queue of [maxsize] 0 and is
    registered.  In every state of the system, however long its buffer has
    grown, a fork whose queue has [maxsize] 0 is not full, the non-blocking
    push appends to its buffer, the overflow path has never been taken for
    it, and while it is registered it has observed every value fetched
    since its registration. *)
Theorem default_forks_never_drop (upstream : list A) :
  (forall (s : forker A) active,
     let s' := new_fork s None Forker.default_maxsize active in
     exists f,
       forks s' !! length (forks s) = Some f /\
       length (forks s) ∈ _outputs s' /\
       Queue.maxsize (_q (aiter f)) = 0%Z /\
       Queue.items (_q (aiter f)) = [] /\ preloaded f = []) /\
  (forall ls i f,
     let s := run ls (aiter_forker upstream) in
     forks s !! i = Some f ->
     Queue.maxsize (_q (aiter f)) = 0%Z ->
     full (aiter f) = false /\
     dropped (aiter f) = [] /\
     full_calls (aiter f) = [] /\
     (forall x, _stopping (aiter f) = false ->
        exists q1,
          push_nowait (aiter f) [x] = Ok q1 /\
          Queue.items (_q q1) = Queue.items (_q (aiter f)) ++ [x] /\
          dropped q1 = []) /\
     (i ∈ _outputs s ->
        observed f = preloaded f ++ drop (registered_at f) (fetched s))).
Proof.
  split.
  - intros s active s'. eexists. unfold s', new_fork. cbn [forks _outputs].
    split; [by rewrite list_lookup_middle|].
    split; [apply elem_of_app; right; by left|]. done.
  - intros ls i f s Hf Hm.
    assert (Hinv := reachable_inv upstream ls). fold s in Hinv.
    assert (Hok := inv_forks _ _ _ Hinv i f Hf).
    assert (Hu : unbounded f) by (unfold unbounded; lia).
    split; [by apply unbounded_not_full|].
    split; [by apply (fo_dropped _ _ _ Hok)|].
    split; [by apply (fo_calls _ _ _ Hok)|]. split.
    + intros x Hns. exists (accept (aiter f) x).
      split; [by apply push_nowait_one|].
      rewrite accept_unbounded by done. cbn.
      split; [done|]. by apply (fo_dropped _ _ _ Hok).
    + intros Hi. by apply (fo_observed _ _ _ Hok).
Qed.

End ForkerProperties.

(** A fork with a bounded buffer and a slow consumer: fork 0 is active
    and unbounded, fork 1 is passive with [maxsize=1]; both are created
    before the first fetch, fork 0 is drained first, fork 1 afterwards. *)
Definition bounded_fork : list (Forker.label nat) :=
  [ Forker.NewFork None 0 true; Forker.NewFork None 1 false;
    Forker.Advance 0; Forker.Resume 0; Forker.Getter 0; Forker.Resume 0;
    Forker.Advance 0; Forker.Resume 0; Forker.Getter 0; Forker.Resume 0;
    Forker.Advance 0; Forker.Resume 0;
    Forker.Advance 1; Forker.Advance 1 ].

(** A fork created after the first value has been fetched: fork 0 is
    active and is drained; fork 1 is created once the value 1 has been
    fetched, and is drained at the end. *)
Definition late_fork : list (Forker.label nat) :=
  [ Forker.NewFork None 0 true; Forker.Advance 0; Forker.Resume 0;
    Forker.NewFork None 0 false;
    Forker.Getter 0; Forker.Resume 0;
    Forker.Advance 0; Forker.Resume 0; Forker.Getter 0; Forker.Resume 0;
    Forker.Advance 0; Forker.Resume 0;
    Forker.Advance 1; Forker.Advance 1 ].

(** The claim that all forks observe the identical sequence: any two
    forks that have ended have seen the same items. *)
Definition identical_sequences (A : Type) : Prop :=
  forall (upstream : list A) ls i j fi fj,
    let s := Forker.run ls (Forker.aiter_forker upstream) in
    Forker.forks s !! i = Some fi -> Forker.forks s !! j = Some fj ->
    Forker.pc fi = Forker.FEnded -> Forker.pc fj = Forker.FEnded ->
    Forker.seen fi = Forker.seen fj.

(** C5, the claim as stated, fails.  Over the upstream [[1, 2]], a fork
    created with [maxsize=1] whose consumer is slow finds its buffer full
    when the value 2 is fanned out, and the non-blocking push drops it: the
    fork ends having seen [[1]] while its sibling has seen [[1, 2]].  And a
    fork registered after the value 1 has been fetched never receives it:
    it ends having seen [[2]]. *)
Lemma forks_can_see_different_sequences :
  map (fun f => (Forker.pc f, Forker.seen f, QAiter.dropped (Forker.aiter f)))
      (Forker.forks (Forker.run bounded_fork (Forker.aiter_forker [1; 2]))) =
    [(Forker.FEnded, [1; 2], []); (Forker.FEnded, [1], [2])] /\
  map (fun f => (Forker.pc f, Forker.seen f))
      (Forker.forks (Forker.run late_fork (Forker.aiter_forker [1; 2]))) =
    [(Forker.FEnded, [1; 2]); (Forker.FEnded, [2])] /\
  ~ identical_sequences nat.
Proof.
  split; [reflexivity|]. split; [reflexivity|]. intros H.
  specialize (H [1; 2] bounded_fork 0 1).
  cbv zeta in H. vm_compute in H.
  specialize (H _ _ eq_refl eq_refl eq_refl eq_refl). discriminate H.
Qed.

(** Two active forks created first, then drained concurrently. *)
Definition two_active_forks : list (Forker.label nat) :=
  [Forker.NewFork None 0 true; Forker.NewFork None 0 true].

Definition drain_both : list (Forker.label nat) :=
  [Forker.Advance 0; Forker.Advance 1; Forker.Resume 0; Forker.Resume 1].

(** Fork 0 has called the upstream; fork 1 arrives meanwhile. *)
Definition fetch_in_progress : list (Forker.label nat) :=
  two_active_forks ++ [Forker.Advance 0].

Lemma forker_single_flight_witness :
  (forallb Forker.creating two_active_forks = true /\
   forallb Forker.draining drain_both = true /\
   let s := Forker.run (two_active_forks ++ drain_both)
              (Forker.aiter_forker [1; 2]) in
   Forker.issued s <= length (Forker.fetched s) + 1) /\
  (let s := Forker.run fetch_in_progress (Forker.aiter_forker [1; 2]) in
   Forker.in_flight s = 1 /\
   exists f s',
     Forker.forks s !! 1 = Some f /\
     Forker.step (Forker.Advance 1) s = Some s' /\
     Forker.issued s' = Forker.issued s /\ Forker.in_flight s' = 1).
Proof.
  split.
  - split; [reflexivity|]. split; [reflexivity|].
    exact (proj1 (proj2 (proj2 (forker_single_flight [1; 2]))
                   two_active_forks drain_both eq_refl eq_refl)).
  - intros s. split; [reflexivity|].
    assert (Hf : is_Some (Forker.forks s !! 1)) by (vm_compute; eauto).
    assert (Hs : is_Some (Forker.step (Forker.Advance 1) s))
      by (vm_compute; eauto).
    destruct Hf as [f Hf], Hs as [s' Hs]. exists f, s'.
    split; [exact Hf|]. split; [exact Hs|].
    exact (proj1 (proj1 (proj2 (forker_single_flight [1; 2]))
                   fetch_in_progress 1 f eq_refl Hf) s' Hs).
Defined.

Lemma default_forks_never_drop_witness :
  let s := Forker.run
             [Forker.NewFork None 0 true; Forker.Advance 0; Forker.Resume 0]
             (Forker.aiter_forker [1; 2]) in
  exists f : Forker.fork nat,
    Forker.forks s !! 0 = Some f /\
    Queue.maxsize (QAiter._q (Forker.aiter f)) = 0%Z /\
    0 ∈ Forker._outputs s /\
    Forker.observed f =
      Forker.preloaded f ++ drop (Forker.registered_at f) (Forker.fetched s).
Proof.
  intros s.
  assert (Hf : is_Some (Forker.forks s !! 0)) by (vm_compute; eauto).
  destruct Hf as [f Hf]. exists f.
  assert (Hm : Queue.maxsize (QAiter._q (Forker.aiter f)) = 0%Z).
  { vm_compute in Hf. injection Hf as <-. reflexivity. }
  assert (Hi : 0 ∈ Forker._outputs s) by (vm_compute; left).
  split; [exact Hf|]. split; [exact Hm|]. split; [exact Hi|].
  exact (proj2 (proj2 (proj2 (proj2
    (proj2 (default_forks_never_drop [1; 2]) _ 0 f Hf Hm)))) Hi).
Defined.

Lemma forks_observe_fetched_values_witness :
  (let s := Forker.run
              [Forker.NewFork None 0 true; Forker.NewFork None 0 false;
               Forker.Advance 0]
              (Forker.aiter_forker [1; 2]) in
   exists s' g1,
     Forker.step (Forker.Resume 0) s = Some s' /\
     Forker.forks s' !! 1 = Some g1 /\
     Queue.items (QAiter._q (Forker.aiter g1)) = [1]) /\
  (let s := Forker.run
              [Forker.NewFork None 0 true; Forker.NewFork None 0 false;
               Forker.Advance 0; Forker.Resume 0; Forker.Getter 0;
               Forker.Resume 0; Forker.Advance 0]
              (Forker.aiter_forker [1]) in
   exists s' g1,
     Forker.step (Forker.Resume 0) s = Some s' /\
     Forker.forks s' !! 1 = Some g1 /\
     QAiter._stopping (Forker.aiter g1) = true) /\
  let s := Forker.run
             [Forker.NewFork None 0 true; Forker.NewFork None 0 false;
              Forker.Advance 0; Forker.Resume 0]
             (Forker.aiter_forker [1; 2]) in
  exists f0 f1,
    Forker.forks s !! 0 = Some f0 /\ Forker.forks s !! 1 = Some f1 /\
    Forker.observed f0 = Forker.observed f1.
Proof.
  split; [|split].
  { intros s.
    assert (H0 : is_Some (Forker.forks s !! 0)) by (vm_compute; eauto).
    assert (H1 : is_Some (Forker.forks s !! 1)) by (vm_compute; eauto).
    destruct H0 as [f0 H0], H1 as [f1 H1].
    assert (Hpc : Forker.pc f0 = Forker.FAtUpstream).
    { vm_compute in H0. injection H0 as <-. reflexivity. }
    assert (Hop : Forker._open_aiter s = 1 :: [2]) by reflexivity.
    destruct (proj1 (forks_observe_fetched_values [1; 2]
                [Forker.NewFork None 0 true; Forker.NewFork None 0 false;
                 Forker.Advance 0]) 0 f0 1 [2] H0 Hpc Hop)
      as (s' & Hstep & _ & Hforks).
    destruct (Hforks 1 f1 H1) as (g1 & Hg1 & Hcase).
    exists s', g1. split; [exact Hstep|]. split; [exact Hg1|].
    destruct (decide (1 ∈ Forker._outputs s)) as [_|Hn].
    - destruct Hcase as (_ & -> & _).
      vm_compute in H1. injection H1 as <-. reflexivity.
    - exfalso. apply Hn. vm_compute. right. left. }
  { intros s.
    assert (H0 : is_Some (Forker.forks s !! 0)) by (vm_compute; eauto).
    assert (H1 : is_Some (Forker.forks s !! 1)) by (vm_compute; eauto).
    destruct H0 as [f0 H0], H1 as [f1 H1].
    assert (Hpc : Forker.pc f0 = Forker.FAtUpstream).
    { vm_compute in H0. injection H0 as <-. reflexivity. }
    assert (Hop : Forker._open_aiter s = []) by reflexivity.
    assert (Hi : 1 ∈ Forker._outputs s) by (vm_compute; right; left).
    destruct (proj1 (proj2 (forks_observe_fetched_values [1]
                [Forker.NewFork None 0 true; Forker.NewFork None 0 false;
                 Forker.Advance 0; Forker.Resume 0; Forker.Getter 0;
                 Forker.Resume 0; Forker.Advance 0]))
                0 f0 H0 Hpc Hop)
      as (s' & Hstep & _ & Hforks).
    destruct (Hforks 1 f1 H1 Hi) as (g1 & Hg1 & Hst).
    exists s', g1. split; [exact Hstep|]. split; [exact Hg1|exact Hst]. }
  intros s.
  assert (H0 : is_Some (Forker.forks s !! 0)) by (vm_compute; eauto).
  assert (H1 : is_Some (Forker.forks s !! 1)) by (vm_compute; eauto).
  destruct H0 as [f0 H0], H1 as [f1 H1]. exists f0, f1.
  split; [exact H0|]. split; [exact H1|].
  apply (proj2 (proj2 (proj2
    (forks_observe_fetched_values [1; 2]
       [Forker.NewFork None 0 true; Forker.NewFork None 0 false;
        Forker.Advance 0; Forker.Resume 0]))) 0 1 f0 f1 H0 H1).
  - vm_compute. left.
  - vm_compute. right. left.
  - vm_compute in H0. injection H0 as <-. unfold ForkerFacts.unbounded.
    vm_compute. discriminate.
  - vm_compute in H1. injection H1 as <-. unfold ForkerFacts.unbounded.
    vm_compute. discriminate.
  - vm_compute in H0, H1. injection H0 as <-. injection H1 as <-. reflexivity.
  - vm_compute in H0, H1. injection H0 as <-. injection H1 as <-. reflexivity.
Defined.

(** ** sharable_aiter and parallel_map_aiter *)
Section ParallelMapProperties.
Import ParallelMap ParallelMapFacts.

(** What [sharable_aiter] does give: it passes each advance to the
    upstream as it is, so for every upstream, mapping function, number of
    workers and schedule, each item that the upstream returns is received by
    exactly one worker: the items received by the workers are, as a
    multiset, the items returned by the upstream, without duplication or
    loss. *)
Theorem workers_partition_upstream_items {A B U F E : Type}
    (ops : aiter_ops A U F E) (map_f : A -> result B)
    (worker_count : nat) (aiter : U) (ls : list (label E)) :
  let s := run ops map_f ls (parallel_map_aiter worker_count aiter) in
  (forall u, sharable_anext ops u = up_anext ops u) /\
  length (workers s) = worker_count /\
  concat (map received (workers s)) ≡ₚ delivered s.
Proof.
  intros s. split; [done|].
  destruct (run_partition ops map_f ls (parallel_map_aiter worker_count aiter))
    as [Hp Hlen]; [apply partition_init|].
  split; [|exact Hp].
  fold s in Hlen. rewrite Hlen. cbn. apply length_replicate.
Qed.

End ParallelMapProperties.

(** The claim that the advances of the shared cursor exclude each other:
    at most one call of the shared stream's [__anext__] is in progress,
    here over a [q_aiter] upstream. *)
Definition mutually_exclusive : Prop :=
  forall (map_f : nat -> result nat) worker_count (q : QAiter.q_aiter nat) ls,
    ParallelMap.in_flight
      (ParallelMap.run ParallelMap.q_aiter_ops map_f ls
         (ParallelMap.parallel_map_aiter worker_count q)) <= 1.

(** C2 (shared cursor): the claim is that the advances of the shared
    cursor exclude each other.  [sharable_aiter.__anext__] only awaits the
    upstream's [__anext__], without the queue that its docstring speaks of
    and without a lock such as the one of [linked_aiter]: over an empty
    [q_aiter] two workers driven one after the other are both parked inside
    the advance of the shared cursor. *)
Lemma two_workers_advance_at_once :
  ParallelMap.in_flight
    (ParallelMap.run ParallelMap.q_aiter_ops (fun x : nat => Ok x)
       [ParallelMap.Drive 0; ParallelMap.Drive 1]
       (ParallelMap.parallel_map_aiter 2
          (QAiter.q_aiter_init None QAiter.default_maxsize None))) = 2 /\
  ~ mutually_exclusive.
Proof.
  split; [reflexivity|]. intros H.
  specialize (H (fun x => Ok x) 2
                (QAiter.q_aiter_init None QAiter.default_maxsize None)
                [ParallelMap.Drive 0; ParallelMap.Drive 1]).
  vm_compute in H. lia.
Qed.

End Properties.

(* ================================================================== *)
(** * Further properties of the code                                   *)
(* ================================================================== *)

Module Further.

(** ** Lists as streams and back *)
Section RoundTrip.
Context {A : Type}.

(** X1 (round trip): [aiter_to_iter(iter_to_aiter(items))] gives [items]
    back, in order, and then stops; the items are taken one per call, so
    that after [fuel] calls the first [fuel] items have come out and the
    others are still in the iterable. *)
Theorem iter_to_aiter_round_trip (items : list A) :
  aiter_to_iter iter_to_aiter_anext (S (length items)) items =
    (items, Exhausted, []) /\
  forall fuel,
    aiter_to_iter iter_to_aiter_anext fuel items =
      if fuel <=? length items
      then (take fuel items, Unfinished, drop fuel items)
      else (items, Exhausted, []).
Proof.
  assert (H : forall (l : list A) fuel,
    aiter_to_iter iter_to_aiter_anext fuel l =
      if fuel <=? length l
      then (take fuel l, Unfinished, drop fuel l)
      else (l, Exhausted, [])).
  { induction l as [|x l IH]; intros [|fuel]; try done.
    rewrite aiter_to_iter_S. cbn [iter_to_aiter_anext length].
    rewrite IH. change (S fuel <=? S (length l)) with (fuel <=? length l).
    by destruct (fuel <=? length l). }
  split; [|apply H].
  rewrite H. destruct (S (length items) <=? length items) eqn:E; [|done].
  apply Nat.leb_le in E. lia.
Qed.

End RoundTrip.

(** ** Cursors and producers *)
Section LinkedFurther.
Import Linked LinkedFacts.
Context {A : Type}.

(** X2 (replay from the first slot): whatever has been done to a producer
    and by the other cursors, a cursor that the constructor builds on the
    producer's first future yields every item pushed so far, in push order;
    after them it ends when [stop] has been called, and otherwise parks: a
    stream is never ended by anything but [stop]. *)
Theorem first_slot_cursor_replays (w0 : world A) (ops : list op)
    (cb : option nat) :
  let s0 := push_aiter_init w0 in
  let s := run s0 ops in
  let c := (linked_aiter_init s.1 (Some (_head s0.2)) cb).2 in
  exists c',
    drain (S (length (pushed s0 ops))) s.1 c =
      (pushed s0 ops,
       if existsb is_stop ops then Some StopAsyncIteration else None,
       c').
Proof.
  intros s0 s c.
  destruct (cursor_at_first_slot_replays w0 ops cb) as [c' Hc'].
  exists c'. fold s0 s c in Hc'. rewrite Hc'. unfold s.
  rewrite cancelled_run; [done|apply head_ok_init|].
  unfold s0, push_aiter_init. cbn. apply state_of_new.
Qed.

End LinkedFurther.

(** ** One cursor, several consumers *)
Section SharedFurther.
Import Linked Shared SharedFacts.
Context {A : Type}.

(** X3 (a shared cursor): however many consumers advance one producer
    object, and however they are scheduled among the pushes and the stop,
    at most one of them is past the lock of [__anext__]; every item that
    [__anext__] returns goes to exactly one consumer; and the items come
    out in push order, without gap or repetition. *)
Theorem shared_cursor_serves_each_item_once (w0 : world A) (n : nat)
    (ls : list (label A)) :
  let s := run ls (start w0 n) in
  length (consumers s) = n /\
  length (filter inside (consumers s)) <= 1 /\
  concat (map got (consumers s)) ≡ₚ served s /\
  served s `prefix_of` sent s.
Proof.
  intros s. destruct (shared_inv_start w0 n) as [Hinv Hlen].
  destruct (shared_run_inv _ ls _ Hinv) as [Hinv' Hlen']. fold s in Hinv', Hlen'.
  split; [congruence|]. assert (Hl := inv_lock _ _ Hinv').
  split; [lia|]. split; [by destruct Hinv'|].
  by eapply served_prefix.
Qed.

(** X18 (no callback on a producer): [push_aiter.__init__] passes no
    callback on to [linked_aiter.__init__], whatever its argument
    [advance_callback_f]: however the consumers of a producer object
    advance it, among any pushes and stops, its cursor has no
    [_next_callback_f] and no callback task is ever created. *)
Theorem push_aiter_never_calls_back (w0 : world A) (n : nat)
    (ls : list (label A)) :
  let s := run ls (start w0 n) in
  _next_callback_f (cursor (stream s)) = None /\
  spawned (store s) = spawned w0.
Proof. intros s. apply run_silent, start_silent. Qed.

End SharedFurther.

(** ** The buffer of a q_aiter *)
Section QueueFurther.
Import QAiter QAiterFacts.
Context {A : Type}.

(** X4 (capacity): the buffer of a stream whose queue has a positive
    [maxsize] never holds more than [maxsize] items, whatever is pushed,
    blocking or not, and [maxsize] never changes. *)
Theorem q_aiter_never_overfills (q0 : q_aiter A) (ops : list (op A)) :
  (0 < Queue.maxsize (_q q0))%Z ->
  (Z.of_nat (Queue.qsize (_q q0)) <= Queue.maxsize (_q q0))%Z ->
  Queue.maxsize (_q (run q0 ops)) = Queue.maxsize (_q q0) /\
  (Z.of_nat (Queue.qsize (_q (run q0 ops))) <= Queue.maxsize (_q q0))%Z.
Proof.
  intros Hpos Hc. destruct (run_capacity ops q0 Hpos Hc) as [Hc' Hm].
  split; [done|]. unfold within_capacity in Hc'. by rewrite Hm in Hc'.
Qed.

(** X5 (non-blocking push of several items): on a stream that is not
    stopped and has no [full_callback], [push_nowait] never raises.  It
    enqueues the first items, as many as the queue has room for (all of
    them when the queue is unbounded), and skips every item after them;
    nothing else of the stream changes. *)
Theorem push_nowait_takes_what_fits (q : q_aiter A) (items : list A) :
  _stopping q = false -> _full_callback q = None ->
  let k := if (Queue.maxsize (_q q) <=? 0)%Z then length items
           else Nat.min (length items)
                        (Z.to_nat (Queue.maxsize (_q q)) - Queue.qsize (_q q)) in
  exists q',
    push_nowait q items = Ok q' /\
    Queue.items (_q q') = Queue.items (_q q) ++ take k items /\
    dropped q' = dropped q ++ drop k items /\
    full_calls q' = full_calls q /\
    _full_callback q' = None /\
    Queue.maxsize (_q q') = Queue.maxsize (_q q) /\
    _stopping q' = false /\ _stopped q' = _stopped q.
Proof.
  intros Hns Hcb k. rewrite push_nowait_spec by done.
  eexists. split; [reflexivity|]. cbn. rewrite Hcb, app_nil_r.
  by repeat split.
Qed.

End QueueFurther.

Lemma q_aiter_never_overfills_witness :
  let q0 := QAiter.q_aiter_init None 2 None in
  let ops := [QAiter.OpPushNowait [1; 2; 3]; QAiter.OpPush [4];
              QAiter.OpAnext; QAiter.OpStop; QAiter.OpAnext] in
  (0 < Queue.maxsize (QAiter._q q0))%Z /\
  (Z.of_nat (Queue.qsize (QAiter._q (QAiter.run q0 ops))) <= 2)%Z.
Proof.
  intros q0 ops. split; [reflexivity|].
  exact (proj2 (q_aiter_never_overfills q0 ops eq_refl ltac:(vm_compute; discriminate))).
Defined.

Lemma push_nowait_takes_what_fits_witness :
  let q := QAiter.q_aiter_init None 2 None in
  QAiter._stopping q = false /\ QAiter._full_callback q = None /\
  exists q',
    QAiter.push_nowait q [1; 2; 3] = Ok q' /\
    Queue.items (QAiter._q q') = [1; 2] /\
    QAiter.dropped q' = [3].
Proof.
  intros q. split; [reflexivity|]. split; [reflexivity|].
  destruct (push_nowait_takes_what_fits q [1; 2; 3] eq_refl eq_refl)
    as (q' & Hp & Hi & Hd & _).
  exists q'. split; [exact Hp|]. split; [exact Hi|exact Hd].
Defined.

(** ** map_aiter and exceptions outside [Exception] *)
Section MapFurther.
Import MapAiter MapAiterFacts.
Context {A B : Type}.

(** X6 (an exception that [except Exception] lets through): when the
    mapping function raises an exception that is not an instance of
    [Exception], the stream has given the results for the items before it
    (those that raised instances of [Exception] logged and dropped), the
    exception reaches the consumer and is not logged, the items after the
    failing one are never taken from the input, and the generator is
    finished: every later advance raises [StopAsyncIteration]. *)
Theorem map_aiter_ends_at_BaseException (f : map_fn A B)
    (pre : list A) (x : A) (post : list A) (e : exn) :
  (forall y e', y ∈ pre -> call f y = Raise e' ->
     isinstance_Exception e' = true) ->
  call f x = Raise e -> isinstance_Exception e = false ->
  let final := State post true (omap (raised f) pre) in
  aiter_to_iter (__anext__ f) (S (length pre)) (map_aiter (pre ++ x :: post)) =
    (omap (returned f) pre, Failed e, final) /\
  __anext__ f final = (final, Throw StopAsyncIteration).
Proof.
  intros Hpre Hx He final. split; [|by apply map_anext_finished].
  unfold map_aiter. rewrite (run_stops f pre x post e); [done|lia|done..].
Qed.

End MapFurther.

Lemma map_aiter_ends_at_BaseException_witness :
  let f := MapAiter.MapFn false
             (fun n : nat => if n =? 0 then Raise ValueError
                             else if n =? 9 then Raise SystemExit
                             else Ok (2 * n)) in
  aiter_to_iter (MapAiter.__anext__ f) 3 (MapAiter.map_aiter [1; 0; 9; 5]) =
    ([2], Failed SystemExit, MapAiter.State [5] true [(ValueError, 0)]).
Proof.
  intros f.
  refine (proj1 (map_aiter_ends_at_BaseException f [1; 0] 9 [5] SystemExit
                   _ eq_refl eq_refl)).
  intros y e' Hy.
  apply elem_of_cons in Hy as [->|Hy]; [cbn; discriminate|].
  apply elem_of_cons in Hy as [->|Hy]; [cbn; by intros [= <-]|].
  by apply not_elem_of_nil in Hy.
Defined.

(** ** azip without inputs *)
Section AzipFurther.
Import Azip AzipFacts.
Context {A : Type}.

(** X7 (no inputs): [azip()] called without any stream never ends: each
    advance advances nothing and yields the empty tuple, so a consumer
    obtains as many empty tuples as it asks for. *)
Theorem azip_without_inputs_never_ends (fuel : nat) :
  aiter_to_iter __anext__ fuel (azip ([] : list (list A))) =
    (replicate fuel [], Unfinished, azip []).
Proof. apply run_no_inputs. Qed.

End AzipFurther.

(** ** aiter_forker *)
Section ForkerFurther.
Import QAiter QAiterFacts Forker ForkerFacts.
Context {A : Type}.

(** X8 (passive forks): a program that creates passive forks only, however
    it advances and removes them, never makes the forker call the upstream:
    no item is fetched, the upstream is as it was given, and no fork is
    stopped or sees the end of the stream. *)
Theorem passive_forks_never_fetch (upstream : list A) (ls : list (label A)) :
  forallb passive ls = true ->
  let s := run ls (aiter_forker upstream) in
  issued s = 0 /\ fetched s = [] /\ _open_aiter s = upstream /\
  forall i f, forks s !! i = Some f ->
    is_active f = false /\ _stopping (aiter f) = false /\ pc f <> FEnded.
Proof.
  intros Hls s.
  assert (Hq := quiet_run upstream ls _ (quiet_init upstream) Hls).
  assert (Hinv := run_inv upstream ls _ (inv_init upstream)).
  fold s in Hq, Hinv. destruct Hq as [Ho Hf Hi _ Ht Hfs].
  split; [done|]. split; [done|]. split; [done|].
  intros i f Hl. rewrite Forall_lookup in Hfs.
  destruct (Hfs i f Hl) as (Ha & _).
  assert (Hns := inv_open _ _ _ Hinv Ht i f Hl).
  split; [done|]. split; [done|]. intros Hpc.
  destruct (fo_ended _ _ _ (inv_forks _ _ _ Hinv i f Hl) Hpc) as [Hs _].
  congruence.
Qed.

(** X9 (no early end): the consumer of a fork sees the end of the stream
    only after the upstream has ended: at that moment every item of the
    upstream has been fetched, and a registered fork with an unbounded
    buffer has seen, after the items its queue was created with, every
    upstream item from its registration on. *)
Theorem fork_ends_only_after_upstream (upstream : list A)
    (ls : list (label A)) (i : nat) (f : fork A) :
  let s := run ls (aiter_forker upstream) in
  forks s !! i = Some f -> pc f = FEnded ->
  _open_aiter s = [] /\ fetched s = upstream /\ 0 < terminal s /\
  (i ∈ _outputs s -> unbounded f ->
   seen f = preloaded f ++ drop (registered_at f) upstream).
Proof.
  intros s Hf Hpc.
  assert (Hinv := run_inv upstream ls _ (inv_init upstream)). fold s in Hinv.
  destruct (ended_after_upstream upstream s i f Hinv Hf Hpc) as (Ht & Ho & Hfe).
  split; [done|]. split; [done|]. split; [done|].
  intros Hi Hu. assert (Hok := inv_forks _ _ _ Hinv i f Hf).
  rewrite <- Hfe, <- (fo_observed _ _ _ Hok Hi Hu). unfold observed.
  destruct (fo_ended _ _ _ Hok Hpc) as [_ ->]. rewrite Hpc. cbn.
  by rewrite app_nil_r.
Qed.

End ForkerFurther.

(** Two passive forks, advanced and removed. *)
Definition passive_program : list (Forker.label nat) :=
  [ Forker.NewFork None 0 false; Forker.NewFork None 1 false;
    Forker.Advance 0; Forker.Advance 1; Forker.Resume 0;
    Forker.RemoveFork 1; Forker.Getter 0 ].

Lemma passive_forks_never_fetch_witness :
  forallb ForkerFacts.passive passive_program = true /\
  Forker._open_aiter
    (Forker.run passive_program (Forker.aiter_forker [1; 2])) = [1; 2].
Proof.
  split; [reflexivity|].
  exact (proj1 (proj2 (proj2
    (passive_forks_never_fetch [1; 2] passive_program eq_refl)))).
Defined.

(** One active fork drained to its end. *)
Definition drain_to_end : list (Forker.label nat) :=
  [ Forker.NewFork None 0 true;
    Forker.Advance 0; Forker.Resume 0; Forker.Getter 0; Forker.Resume 0;
    Forker.Advance 0; Forker.Resume 0 ].

Lemma fork_ends_only_after_upstream_witness :
  let s := Forker.run drain_to_end (Forker.aiter_forker [7]) in
  exists f,
    Forker.forks s !! 0 = Some f /\ Forker.pc f = Forker.FEnded /\
    Forker.fetched s = [7].
Proof.
  intros s.
  assert (Hf : is_Some (Forker.forks s !! 0)) by (vm_compute; eauto).
  destruct Hf as [f Hf]. exists f.
  assert (Hpc : Forker.pc f = Forker.FEnded).
  { vm_compute in Hf. injection Hf as <-. reflexivity. }
  split; [exact Hf|]. split; [exact Hpc|].
  exact (proj1 (proj2 (fork_ends_only_after_upstream [7] drain_to_end 0 f Hf Hpc))).
Defined.

(** ** parallel_map_aiter *)
Section ParallelMapFurther.
Import ParallelMap ParallelMapFacts.

(** X11 (what the workers yield): for every upstream, mapping function,
    number of workers and schedule, each worker has yielded the results of
    the mapping function on the items it has received, in the order it
    received them, and has logged those on which the function raised an
    instance of [Exception]; taken together the workers have yielded, as a
    multiset, the results for the items that the upstream has returned:
    every such item is mapped once. *)
Theorem workers_yield_mapped_items {A B U F E : Type}
    (ops : aiter_ops A U F E) (map_f : A -> result B)
    (worker_count : nat) (aiter : U) (ls : list (label E)) :
  let s := run ops map_f ls (parallel_map_aiter worker_count aiter) in
  Forall (fun w =>
            yielded w = omap (mapped map_f) (received w) /\
            wlogged w = omap (caught map_f) (received w)) (workers s) /\
  concat (map yielded (workers s)) ≡ₚ omap (mapped map_f) (delivered s).
Proof.
  intros s.
  assert (Hok : Forall (worker_ok map_f) (workers s)).
  { apply run_ok. cbn. apply Forall_replicate. by split. }
  split; [exact Hok|].
  rewrite (concat_yielded map_f _ Hok).
  destruct (run_partition ops map_f ls (parallel_map_aiter worker_count aiter))
    as [Hp _]; [apply partition_init|].
  fold s in Hp. unfold partition, all_received in Hp. by rewrite Hp.
Qed.

End ParallelMapFurther.

(** ** parallel_map_aiter over a q_aiter *)
Section ParallelQueueFurther.
Import QAiter ParallelMap ParallelQueueFacts.
Context {A B : Type}.

(** X10 (no item of a shared q_aiter is lost or doubled): the workers of
    [parallel_map_aiter] share a [q_aiter] without [full_callback] that has
    not ended, while a producer pushes into it with [push_nowait] and stops
    it.  Under every schedule, each item that was in the stream at the
    start or is given by a push on the stream before it is stopped is in
    exactly one place: received by one worker, held by one call of
    [__anext__] whose task [q_get] has taken it, in the buffer, or skipped
    by a push that found the buffer full.  So once all the workers have
    ended, every item that was not skipped has been received by exactly
    one worker. *)
Theorem q_aiter_items_reach_one_worker (map_f : A -> result B)
    (worker_count : nat) (q0 : q_aiter A) (ls : list (label (q_env A))) :
  _full_callback q0 = None -> _stopped q0 = false ->
  let s0 := parallel_map_aiter worker_count q0 in
  let s := run q_aiter_ops map_f ls s0 in
  let pushed := offered map_f ls s0 in
  length (workers s) = worker_count /\
  concat (map received (workers s)) ++ concat (map in_hand (workers s)) ++
    Queue.items (_q (upstream s)) ++ dropped (upstream s) ≡ₚ
    Queue.items (_q q0) ++ dropped q0 ++ pushed /\
  (0 < worker_count -> Forall (fun w => wpc w = WEnded) (workers s) ->
   concat (map received (workers s)) ++ dropped (upstream s) ≡ₚ
     Queue.items (_q q0) ++ dropped q0 ++ pushed).
Proof.
  intros _ Hd s0 s pushed.
  destruct (ParallelMapFacts.run_partition q_aiter_ops map_f ls s0)
    as [Hp Hlen]; [apply ParallelMapFacts.partition_init|].
  fold s in Hp, Hlen.
  unfold ParallelMapFacts.partition, ParallelMapFacts.all_received in Hp.
  assert (Hn : length (workers s) = worker_count).
  { rewrite Hlen. cbn. apply length_replicate. }
  assert (Hw := run_whereabouts map_f ls s0). fold s pushed in Hw.
  assert (H0 : whereabouts s0 = Queue.items (_q q0) ++ dropped q0).
  { unfold whereabouts, all_in_hand. cbn.
    assert (concat (map in_hand (replicate worker_count
              (Worker WReady [] [] [] : worker A B (anext_frame A)))) = [])
      as ->; [|done].
    clear. induction worker_count as [|n IH]; [done|]. exact IH. }
  rewrite H0, <- app_assoc in Hw.
  unfold whereabouts, all_in_hand in Hw. rewrite <- Hp in Hw.
  split; [done|]. split; [done|].
  intros Hpos Hall. rewrite <- Hw.
  rewrite (ended_in_hand _ Hall).
  assert (Hst : settled s) by (by apply run_settled, settled_init).
  destruct (workers s) as [|w ws] eqn:Hws; [cbn in Hn; lia|].
  apply Forall_cons in Hall as [Hpc _].
  assert (Hsd : _stopped (upstream s) = true).
  { destruct Hst as [_ _ He]. rewrite Hws in He.
    apply Forall_cons in He as [He _]. by apply He. }
  by rewrite (st_empty _ Hst Hsd).
Qed.

End ParallelQueueFurther.

(** Two workers over a stream of capacity 1: two pushes, each taken by the
    call of one worker, a third push that finds the stream stopped, and
    the workers driven to their ends. *)
Definition two_workers_to_end : list (ParallelMap.label (ParallelMap.q_env nat)) :=
  [ ParallelMap.Env (ParallelMap.QPush 1); ParallelMap.Drive 0;
    ParallelMap.Task 0; ParallelMap.Env (ParallelMap.QPush 2);
    ParallelMap.Env (ParallelMap.QPush 3);
    ParallelMap.Drive 1; ParallelMap.Task 1; ParallelMap.Env ParallelMap.QStop;
    ParallelMap.Env (ParallelMap.QPush 4);
    ParallelMap.Resume 0; ParallelMap.Resume 1;
    ParallelMap.Drive 0; ParallelMap.Drive 1 ].

Lemma q_aiter_items_reach_one_worker_witness :
  let q0 := QAiter.q_aiter_init None 1 None in
  let s := ParallelMap.run ParallelMap.q_aiter_ops (fun x : nat => Ok x)
             two_workers_to_end (ParallelMap.parallel_map_aiter 2 q0) in
  QAiter._full_callback q0 = None /\ QAiter._stopped q0 = false /\
  map ParallelMap.received (ParallelMap.workers s) = [[1]; [2]] /\
  QAiter.dropped (ParallelMap.upstream s) = [3] /\
  concat (map ParallelMap.received (ParallelMap.workers s)) ++
    QAiter.dropped (ParallelMap.upstream s) ≡ₚ [1; 2; 3].
Proof.
  intros q0 s. split; [reflexivity|]. split; [reflexivity|].
  split; [reflexivity|]. split; [reflexivity|].
  apply (proj2 (proj2 (q_aiter_items_reach_one_worker (fun x : nat => Ok x) 2 q0
                         two_workers_to_end eq_refl eq_refl))).
  - lia.
  - vm_compute. repeat constructor.
Defined.

(** ** Generators over generators *)
Section MapOverFurther.
Import MapOver MapOverFacts.
Context {U A B : Type}.

(** X12 (the upstream's own failure): [map_aiter] over any stream that
    does not park.  The [try] of [map_aiter] is around the [yield] only:
    when the upstream has given the items [xs] and then ends, with
    [StopAsyncIteration] or with any other exception, even an instance of
    [Exception], the mapped stream gives the results for [xs] (the items
    on which the function raises an instance of [Exception] logged and
    dropped) and then ends in the same way as the upstream. *)
Theorem map_aiter_ends_as_upstream
    (up_anext : U -> U * resumed A running) (f : MapAiter.map_fn A B)
    (u : U) (xs : list A) (en : ending) (u' : U) (n0 fuel : nat) :
  aiter_to_iter up_anext n0 u = (xs, en, u') -> en <> Unfinished ->
  (forall x e, x ∈ xs -> MapAiter.call f x = Raise e ->
     isinstance_Exception e = true) ->
  length xs < fuel ->
  aiter_to_iter (__anext__ up_anext fuel f)
                (S (length (omap (MapAiterFacts.returned f) xs)))
                (map_aiter u) =
    (omap (MapAiterFacts.returned f) xs, en,
     State u' true (omap (MapAiterFacts.raised f) xs)).
Proof.
  intros Hrun Hen Hexc Hfuel. eapply map_over_run; try done. lia.
Qed.

End MapOverFurther.

(** A stream that gives the items of a list and then fails with
    [ValueError]. *)
Definition failing_anext (l : list nat) : list nat * resumed nat running :=
  match l with
  | [] => ([], Throw ValueError)
  | x :: rest => (rest, Return x)
  end.

Lemma map_aiter_ends_as_upstream_witness :
  let f := MapAiter.MapFn false
             (fun n : nat => if n =? 0 then Raise TypeError else Ok (2 * n)) in
  aiter_to_iter failing_anext 4 [1; 0; 3] = ([1; 0; 3], Failed ValueError, []) /\
  aiter_to_iter (MapOver.__anext__ failing_anext 4 f) 3
                (MapOver.map_aiter [1; 0; 3]) =
    ([2; 6], Failed ValueError, MapOver.State [] true [(TypeError, 0)]).
Proof.
  intros f. split; [reflexivity|].
  refine (map_aiter_ends_as_upstream failing_anext f [1; 0; 3] [1; 0; 3]
            (Failed ValueError) [] 4 4 eq_refl ltac:(discriminate) _
            ltac:(cbn; lia)).
  intros x e Hx.
  apply elem_of_cons in Hx as [->|Hx]; [cbn; discriminate|].
  apply elem_of_cons in Hx as [->|Hx]; [cbn; by intros [= <-]|].
  apply elem_of_cons in Hx as [->|Hx]; [cbn; discriminate|].
  by apply not_elem_of_nil in Hx.
Defined.

Section AzipOverFurther.
Import AzipOver AzipOverFacts.
Context {U A : Type}.

(** X13 (azip of two streams): [azip] over two streams that do not park
    and give [xs] and [ys] before they end.  The generator yields the
    tuples of the items at equal positions, as many as the shorter stream
    has items.  Only [StopAsyncIteration] is caught: the generator ends as
    the first stream ends, whatever the exception, when that stream has no
    more items than the second, and as the second stream ends otherwise.
    In the end the first stream has been advanced once more than the
    second has items (unless it ended before), and the second as many
    times as the first has items. *)
Theorem azip_of_two_streams (up_anext : U -> U * resumed A running)
    (i0 : U) (xs : list A) (en0 : ending) (j0 : U) (n0 : nat)
    (i1 : U) (ys : list A) (en1 : ending) (j1 : U) (n1 : nat) :
  aiter_to_iter up_anext n0 i0 = (xs, en0, j0) -> en0 <> Unfinished ->
  aiter_to_iter up_anext n1 i1 = (ys, en1, j1) -> en1 <> Unfinished ->
  aiter_to_iter (__anext__ up_anext)
                (S (Nat.min (length xs) (length ys))) (azip [i0; i1]) =
    (zip_with (fun x y => [x; y]) xs ys,
     (if length xs <=? length ys then en0 else en1),
     State [(aiter_to_iter up_anext (S (length ys)) i0).2;
            (aiter_to_iter up_anext (length xs) i1).2] true).
Proof. apply azip_two_run. Qed.

End AzipOverFurther.

Lemma azip_of_two_streams_witness :
  aiter_to_iter (AzipOver.__anext__ failing_anext) 3
                (AzipOver.azip [[1; 2; 3; 4]; [10; 20]]) =
    ([[1; 10]; [2; 20]], Failed ValueError, AzipOver.State [[4]; []] true).
Proof.
  exact (azip_of_two_streams failing_anext
           [1; 2; 3; 4] [1; 2; 3; 4] (Failed ValueError) [] 5
           [10; 20] [10; 20] (Failed ValueError) [] 3
           eq_refl ltac:(discriminate) eq_refl ltac:(discriminate)).
Defined.

Section FlattenFurther.
Import Flatten FlattenFacts.
Context {U B : Type}.

(** X14 (flatten_aiter): over a stream that gives iterables and then
    ends, [flatten_aiter] yields the elements of every iterable, in order;
    an iteration that fails with an instance of [Exception] is given up
    silently after the elements that it has given (an object that is not
    iterable gives none), and the stream goes on with the next iterable;
    the flattened stream ends in the same way as the upstream. *)
Theorem flatten_aiter_concatenates
    (up_anext : U -> U * resumed (iterable B) running)
    (u : U) (its : list (iterable B)) (en : ending) (u' : U) (n0 fuel : nat) :
  aiter_to_iter up_anext n0 u = (its, en, u') -> en <> Unfinished ->
  Forall (fun items => forall e, failure items = Some e ->
                         isinstance_Exception e = true) its ->
  length its < fuel ->
  aiter_to_iter (__anext__ up_anext fuel)
                (S (length (concat (map elements its)))) (flatten_aiter u) =
    (concat (map elements its), en, State u' None true).
Proof.
  intros Hrun Hen Hc Hfuel. eapply flatten_run; try done. lia.
Qed.

End FlattenFurther.

(** Lists, an object that is not iterable, and an iteration that fails
    after its first element. *)
Definition some_iterables : list (iterable nat) :=
  [ Iterable [1; 2] None; Iterable [] (Some TypeError);
    Iterable [3] (Some ValueError); Iterable [] None; Iterable [4] None ].

Lemma flatten_aiter_concatenates_witness :
  aiter_to_iter (Flatten.__anext__ (no_park iter_to_aiter_anext) 6) 5
                (Flatten.flatten_aiter some_iterables) =
    ([1; 2; 3; 4], Exhausted, Flatten.State [] None true).
Proof.
  refine (flatten_aiter_concatenates (no_park iter_to_aiter_anext)
            some_iterables some_iterables Exhausted [] 6 6 eq_refl
            ltac:(discriminate) _ ltac:(cbn; lia)).
  repeat constructor; cbn; intros e He; by simplify_eq.
Defined.

Section MapFilterFurther.
Import MapFilter MapFilterFacts.
Context {U A B : Type}.

(** X15 (map_filter_aiter): over a stream that gives the items [xs] and
    then ends, [map_filter_aiter] yields, for each item in order, the
    elements of the iterable that the mapping function returns, so an item
    mapped to the empty list is filtered out; an item on which the call
    raises an instance of [Exception] gives nothing, and an iteration that
    fails with one is given up after its elements; the stream ends as the
    upstream does.  Each such failure is logged once, with the value that
    the variable [_] holds at that moment: the item when the call raised
    or no element had been yielded, and otherwise the element yielded
    last, not the item. *)
Theorem map_filter_aiter_flattens_results
    (up_anext : U -> U * resumed A running)
    (f : MapAiter.map_fn A (iterable B))
    (u : U) (xs : list A) (en : ending) (u' : U) (n0 fuel : nat) :
  aiter_to_iter up_anext n0 u = (xs, en, u') -> en <> Unfinished ->
  Forall (clean f) xs ->
  length xs < fuel ->
  aiter_to_iter (__anext__ up_anext fuel f)
                (S (length (concat (map (given f) xs)))) (map_filter_aiter u) =
    (concat (map (given f) xs), en,
     State u' None true (concat (map (entry f) xs))) /\
  (forall x e, MapAiter.call f x = Raise e ->
     given f x = [] /\ entry f x = [(e, inl x)]) /\
  (forall x ys, MapAiter.call f x = Ok (Iterable ys None) ->
     given f x = ys /\ entry f x = []) /\
  (forall x e, MapAiter.call f x = Ok (Iterable [] (Some e)) ->
     given f x = [] /\ entry f x = [(e, inl x)]) /\
  (forall x ys y e, MapAiter.call f x = Ok (Iterable (ys ++ [y]) (Some e)) ->
     given f x = ys ++ [y] /\ entry f x = [(e, inr y)]).
Proof.
  intros Hrun Hen Hc Hfuel.
  split; [eapply map_filter_run; try done; lia|].
  unfold given, entry.
  split; [|split; [|split]]; intros x; intros; rewrite H; cbn; try done.
  unfold last_cur. by rewrite last_snoc.
Qed.

End MapFilterFurther.

(** A mapping function that gives [n] times the number [n]; on 0 it
    raises, and on 3 its result fails after two elements. *)
Definition repeat_f : MapAiter.map_fn nat (iterable nat) :=
  MapAiter.MapFn false
    (fun n => if n =? 0 then Raise ValueError
              else if n =? 3 then Ok (Iterable [3; 3] (Some TypeError))
              else Ok (Iterable (replicate n n) None)).

Lemma map_filter_aiter_flattens_results_witness :
  aiter_to_iter (MapFilter.__anext__ (no_park iter_to_aiter_anext) 5 repeat_f) 6
                (MapFilter.map_filter_aiter [2; 0; 3; 1]) =
    ([2; 2; 3; 3; 1], Exhausted,
     MapFilter.State [] None true [(ValueError, inl 0); (TypeError, inr 3)]).
Proof.
  refine (proj1 (map_filter_aiter_flattens_results
                   (no_park iter_to_aiter_anext) repeat_f
                   [2; 0; 3; 1] [2; 0; 3; 1] Exhausted [] 5 5 eq_refl
                   ltac:(discriminate) _ ltac:(cbn; lia))).
  repeat constructor; unfold MapFilterFacts.clean; cbn; try done;
    intros e He; by simplify_eq.
Defined.

Section ComposeFurther.
Context {U A B : Type}.

(** X16 (map, then flatten): [map_filter_aiter(f, aiter)] gives the same
    stream as [flatten_aiter(map_aiter(f, aiter))]: over a stream that
    gives the items [xs] and then ends, with a mapping function whose
    failures and whose results' failures are instances of [Exception],
    both yield the same elements in the same order and end in the same
    way. *)
Theorem map_filter_aiter_is_flatten_of_map
    (up_anext : U -> U * resumed A running)
    (f : MapAiter.map_fn A (iterable B))
    (u : U) (xs : list A) (en : ending) (u' : U) (n0 fuel : nat) :
  aiter_to_iter up_anext n0 u = (xs, en, u') -> en <> Unfinished ->
  Forall (MapFilterFacts.clean f) xs ->
  length xs < fuel ->
  let out := concat (map (MapFilterFacts.given f) xs) in
  exists s1 s2,
    aiter_to_iter (Flatten.__anext__ (MapOver.__anext__ up_anext fuel f) fuel)
                  (S (length out))
                  (Flatten.flatten_aiter (MapOver.map_aiter u)) =
      (out, en, s1) /\
    aiter_to_iter (MapFilter.__anext__ up_anext fuel f) (S (length out))
                  (MapFilter.map_filter_aiter u) = (out, en, s2).
Proof.
  intros Hrun Hen Hc Hfuel out. unfold out. eexists _, _.
  split; [|eapply MapFilterFacts.map_filter_run; try done; lia].
  assert (Hexc : forall x e, x ∈ xs -> MapAiter.call f x = Raise e ->
            isinstance_Exception e = true).
  { intros x e Hx He. rewrite Forall_forall in Hc. specialize (Hc x Hx).
    unfold MapFilterFacts.clean in Hc. by rewrite He in Hc. }
  assert (Hm := MapOverFacts.map_over_run up_anext fuel f u xs en u' n0
                  (S (length (omap (MapAiterFacts.returned f) xs)))
                  Hrun Hen Hexc Hfuel ltac:(lia)).
  assert (Hout : concat (map elements (omap (MapAiterFacts.returned f) xs)) =
                 concat (map (MapFilterFacts.given f) xs)).
  { clear. induction xs as [|x xs IH]; [done|]. cbn.
    unfold MapAiterFacts.returned at 1, MapFilterFacts.given at 1.
    destruct (MapAiter.call f x); cbn; by rewrite IH. }
  rewrite <- Hout.
  eapply FlattenFacts.flatten_run; [exact Hm|done| | |lia].
  - clear -Hc. induction Hc as [|x xs Hx _ IH]; [constructor|]. cbn.
    unfold MapAiterFacts.returned at 1. unfold MapFilterFacts.clean in Hx.
    destruct (MapAiter.call f x) as [items|e]; [|done].
    constructor; [exact Hx|done].
  - assert (Hle : length (omap (MapAiterFacts.returned f) xs) <= length xs).
    { clear. induction xs as [|x xs IH]; [done|]. cbn.
      destruct (MapAiterFacts.returned f x); cbn; lia. }
    lia.
Qed.

End ComposeFurther.

Lemma map_filter_aiter_is_flatten_of_map_witness :
  exists s1 s2,
    aiter_to_iter
      (Flatten.__anext__
         (MapOver.__anext__ (no_park iter_to_aiter_anext) 5 repeat_f) 5) 6
      (Flatten.flatten_aiter (MapOver.map_aiter [2; 0; 3; 1])) =
      ([2; 2; 3; 3; 1], Exhausted, s1) /\
    aiter_to_iter (MapFilter.__anext__ (no_park iter_to_aiter_anext) 5 repeat_f) 6
                  (MapFilter.map_filter_aiter [2; 0; 3; 1]) =
      ([2; 2; 3; 3; 1], Exhausted, s2).
Proof.
  destruct (map_filter_aiter_is_flatten_of_map
              (no_park iter_to_aiter_anext) repeat_f
              [2; 0; 3; 1] [2; 0; 3; 1] Exhausted [] 5 5 eq_refl
              ltac:(discriminate)
              ltac:(repeat constructor; unfold MapFilterFacts.clean; cbn;
                    try done; intros e He; by simplify_eq)
              ltac:(cbn; lia))
    as (s1 & s2 & H1 & H2).
  exists s1, s2. split; [exact H1|exact H2].
Defined.

Section RatedFurther.
Import Rated RatedFacts.
Context {UA UR A : Type}.

(** X17 (rated_aiter): the stream [rated_aiter(rate_limiter, aiter)] lets
    through as many items of [aiter] as the rate limiter allows: when
    [aiter] gives [items] and the rate limiter gives [rates], each integer
    [n] among the rates allows [n] items ([n <= 0] and values that are not
    integers allow none), and the stream yields the first
    [allowance rates] items of [aiter], in order.  It ends as [aiter] does
    when [aiter] has no more items than allowed, and as the rate limiter
    does otherwise; in that case [aiter] has been advanced once more than
    items were yielded: one item is taken from it and never yielded. *)
Theorem rated_aiter_releases_allowance
    (aiter_anext : UA -> UA * resumed (value A) running)
    (rate_anext : UR -> UR * resumed (value A) running)
    (a : UA) (items : list (value A)) (ena : ending) (a' : UA) (na : nat)
    (r : UR) (rates : list (value A)) (enr : ending) (r' : UR) (nr : nat)
    (fuel : nat) :
  aiter_to_iter aiter_anext na a = (items, ena, a') -> ena <> Unfinished ->
  aiter_to_iter rate_anext nr r = (rates, enr, r') -> enr <> Unfinished ->
  length rates < fuel ->
  exists tokens',
    aiter_to_iter (__anext__ aiter_anext rate_anext fuel)
                  (S (Nat.min (allowance rates) (length items)))
                  (rated_aiter r a) =
      (take (allowance rates) items,
       (if length items <=? allowance rates then ena else enr),
       MapOver.State
         (AzipOver.State
            [Items (aiter_to_iter aiter_anext (S (allowance rates)) a).2;
             Tokens tokens'] true)
         true []).
Proof. apply rated_run. Qed.

End RatedFurther.

Lemma rated_aiter_releases_allowance_witness :
  let items := [Rated.Obj "a"; Rated.Obj "b"; Rated.Obj "c"; Rated.Obj "d"]%string in
  let rates := [Rated.Int 2; Rated.Obj "x"; Rated.Int (-1); Rated.Int 1]%string in
  exists final,
    aiter_to_iter
      (Rated.__anext__ (no_park iter_to_aiter_anext)
                       (no_park iter_to_aiter_anext) 5) 4
      (Rated.rated_aiter rates items) =
      ([Rated.Obj "a"; Rated.Obj "b"; Rated.Obj "c"]%string, Exhausted, final).
Proof.
  intros items rates.
  destruct (rated_aiter_releases_allowance
              (no_park iter_to_aiter_anext) (no_park iter_to_aiter_anext)
              items items Exhausted [] 5 rates rates Exhausted [] 5 5
              eq_refl ltac:(discriminate) eq_refl ltac:(discriminate)
              ltac:(cbn; lia)) as [tokens' H].
  eexists. exact H.
Defined.

End Further.
